(** * synth_fit: the model-grid interpolation engine ([make_model.py])

    A shallow embedding of class [ModelGrid] of [synth_fit/make_model.py]
    and the properties of it that the specification states.

    Modelling conventions.
    - The source is Python 2 with the numpy of its time (2013, before
      release 1.12): [/] between integers floors, [2**e] with a negative
      integer [e] is the float [2^e], and [len(a)/2] is an index.
    - A numpy float is modelled as an exact rational ([Q]); rounding is
      not modelled.  Comparisons ([==], [<], [<=], [in]) are the
      decidable ones of [Q].
    - The blending weight of [interp_models] divides by the difference of
      two values read from the corner table, which the routine itself can
      make equal.  numpy does not raise there: it warns and goes on with
      [inf] or [nan], which spread to every later array.  Exact
      arithmetic has no such values, so that outcome is reported as
      [Raise NonFinite].  The other quotients (the least-squares factor)
      are quotients of [Q], where a quotient by zero is [0]: the
      statements about them assume their denominators are not zero.
    - A parameter vector is a float array, as the sampler passes it.  A
      vector given with integer components only is an int64 array in
      numpy, for which [p[i]**4] is computed modulo [2^64] and differs
      from the exact power when [p[i]] exceeds 55108 in absolute value:
      the statements about the fourth-power weight bound the parameter
      accordingly.
    - Physical units ([astropy.units]) are not modelled: every quantity is
      taken to be already expressed in the units of the model, so that the
      conversions of the constructor are identities.
    - A raised Python exception is a value [Raise e] of type [result];
      logging is not modelled.
    - A one-dimensional numpy array is a [list]; an index array (the
      result of [np.where]) is a [list nat]; the flux table of the model
      collection (a two-dimensional array) is a list of rows.
    - A [dict] with string keys is a [gmap string _]; the dictionaries of
      corner spectra, keyed by tuples of floats, are association lists
      whose keys are compared component-wise. *)

From Stdlib Require Import QArith Qabs Lia Lqa.
From stdpp Require Import base option list gmap strings.

Open Scope Q_scope.

(** ** Exceptions and the error monad *)

(** [NonFinite] is not a Python exception: it marks a float computation
    that has divided by zero and goes on with [inf] or [nan]. *)
Inductive exn : Set :=
| IndexError
| KeyError
| ValueError
| TypeError
| NameError
| UnboundLocalError
| NonFinite.

Inductive result (A : Type) : Type :=
| Ok (a : A)
| Raise (e : exn).

Arguments Ok {A} a.
Arguments Raise {A} e.

#[global] Instance result_ret : MRet result := fun _ a => Ok a.
#[global] Instance result_bind : MBind result := fun _ _ f m =>
  match m with
  | Ok a => f a
  | Raise e => Raise e
  end.

(** [d[k]] on a dictionary, [l[i]] on a sequence. *)
Definition dict_get {V} (m : gmap string V) (k : string) : result V :=
  match m !! k with
  | Some v => Ok v
  | None => Raise KeyError
  end.

Definition py_get {A} (l : list A) (i : nat) : result A :=
  match l !! i with
  | Some v => Ok v
  | None => Raise IndexError
  end.

(** [l[k]] for a possibly negative Python index [k]. *)
Definition py_index {A} (l : list A) (k : Z) : result A :=
  if (0 <=? k)%Z then py_get l (Z.to_nat k)
  else if (0 <=? Z.of_nat (length l) + k)%Z
       then py_get l (Z.to_nat (Z.of_nat (length l) + k))
       else Raise IndexError.

(** ** The numpy and builtin operations the class uses *)

(** The builtin [sum(a)]: starts from [0] and adds from the left. *)
Definition py_sum (a : list Q) : Q := fold_left Qplus a 0.

(** The builtins [min(a)] and [max(a)]; [ValueError] on an empty
    sequence. *)
Definition py_min (a : list Q) : result Q :=
  match a with
  | [] => Raise ValueError
  | x :: t => Ok (fold_left (fun m y => if Qle_bool m y then m else y) t x)
  end.

Definition py_max (a : list Q) : result Q :=
  match a with
  | [] => Raise ValueError
  | x :: t => Ok (fold_left (fun m y => if Qle_bool y m then m else y) t x)
  end.

(** [np.where(mask)[0]]: the indices at which the mask holds. *)
Fixpoint np_where_from (k : nat) (mask : list bool) : list nat :=
  match mask with
  | [] => []
  | b :: t => if b then k :: np_where_from (S k) t else np_where_from (S k) t
  end.

Definition np_where (mask : list bool) : list nat := np_where_from 0 mask.

(** [np.arange(n)]. *)
Definition np_arange (n : nat) : list nat := seq 0 n.

(** [a[locs] = v] on a one-dimensional array. *)
Definition np_put (locs : list nat) (v : Q) (a : list Q) : list Q :=
  fold_left (fun acc k => <[k := v]> acc) locs a.

(** [m[locs, i] = v] on a two-dimensional array. *)
Definition np_put_col (locs : list nat) (i : nat) (v : Q)
    (m : list (list Q)) : list (list Q) :=
  fold_left (fun acc r => alter (fun row => <[i := v]> row) r acc) locs m.

(** [np.zeros(n)] and [np.zeros(r*c).reshape(r,c)]. *)
Definition np_zeros (n : nat) : list Q := replicate n 0.
Definition np_zeros2 (r c : nat) : list (list Q) := replicate r (np_zeros c).

(** An element-wise binary operation on two one-dimensional arrays, with
    numpy's broadcasting: equal lengths, or one operand of length one. *)
Definition np_broadcast {A B C} (f : A -> B -> C) (a : list A) (b : list B)
    : result (list C) :=
  if (length a =? length b)%nat then Ok (zip_with f a b)
  else match a, b with
       | [x], _ => Ok (map (f x) b)
       | _, [y] => Ok (map (fun x => f x y) a)
       | _, _ => Raise ValueError
       end.

(** [np.intersect1d(a, b)] on index arrays that are sorted and free of
    duplicates, as those of [np.arange] and [np.where] are. *)
Definition np_intersect1d (a b : list nat) : list nat :=
  filter (fun x => x ∈ b) a.

(** [np.unique(a)]: the sorted distinct values. *)
Fixpoint unique_insert (x : Q) (l : list Q) : list Q :=
  match l with
  | [] => [x]
  | y :: t =>
      match x ?= y with
      | Lt => x :: y :: t
      | Eq => y :: t
      | Gt => y :: unique_insert x t
      end
  end.

Definition np_unique (a : list Q) : list Q :=
  fold_left (fun acc x => unique_insert x acc) a [].

(** [x in a] on an array. *)
Definition np_in (x : Q) (a : list Q) : bool := existsb (Qeq_bool x) a.

(** ** Data model *)

(** The observed spectrum: dictionary with keys ['wavelength'], ['flux']
    and ['unc']. *)
Record Spectrum : Type := {
  spectrum_wavelength : list Q;
  spectrum_flux : list Q;
  spectrum_unc : list Q
}.

(** The model collection [model_dict]: the keys ['wavelength'] and
    ['flux'] (absent keys are [None]) and one coordinate column per
    physical parameter under the remaining keys. *)
Record ModelDict : Type := {
  model_wavelength : option (list Q);
  model_flux : option (list (list Q));
  model_columns : gmap string (list Q)
}.

(** One entry of [self.plims]. *)
Record Plim : Type := {
  plim_vals : list Q;
  plim_min : Q;
  plim_max : Q
}.

(** The attributes of a [ModelGrid] instance; [self.ndim] is
    [len(self.params)] throughout. *)
Record ModelGrid : Type := {
  model : ModelDict;
  wavelength_bins : list Q;
  params : list string;
  plims : gmap string Plim;
  smooth : bool;
  wave : list Q;
  flux : list Q;
  unc : list Q;
  interp : bool;
  is_grid_complete : bool;
  snap : bool
}.

Definition ndim (self : ModelGrid) : nat := length (params self).

(** ** [calc_normalization] *)

(** One pass of the loop over [range(len(n_values))], from index [i]
    on. *)
Fixpoint calc_normalization_loop (wv : list Q) (wavelength_bins : list Q)
    (n_values : list Q) (i : nat) (normalization : list Q)
    : result (list Q) :=
  match n_values with
  | [] => Ok normalization
  | n_i :: rest =>
      lo ← py_get wavelength_bins i;
      hi ← py_get wavelength_bins (S i);
      let norm_loc :=
        np_where (map (fun w => negb (Qle_bool w lo) && Qle_bool w hi) wv) in
      calc_normalization_loop wv wavelength_bins rest (S i)
        (np_put norm_loc n_i normalization)
  end.

(** [normalization[:] = n_values]: a broadcasting assignment. *)
Definition np_fill (n : nat) (values : list Q) : result (list Q) :=
  match values with
  | [v] => Ok (replicate n v)
  | _ => if (length values =? n)%nat then Ok values else Raise ValueError
  end.

Definition calc_normalization (self : ModelGrid) (n_values : list Q)
    (wavelength_bins : list Q) : result (list Q) :=
  let normalization := np_zeros (length (wave self)) in
  if (length wavelength_bins =? 0)%nat then
    np_fill (length (wave self)) n_values
  else
    normalization ← calc_normalization_loop (wave self) wavelength_bins
                      n_values 0 normalization;
    (* after the loop [i] is the last index of [n_values], or unbound *)
    match last n_values with
    | None => Raise UnboundLocalError
    | Some n_i =>
        first_edge ← py_index wavelength_bins 0;
        let norm_loc := np_where (map (fun w => Qle_bool w first_edge)
                                      (wave self)) in
        let normalization := np_put norm_loc n_i normalization in
        last_edge ← py_index wavelength_bins (-1);
        let norm_loc := np_where (map (fun w => negb (Qle_bool w last_edge))
                                      (wave self)) in
        Ok (np_put norm_loc n_i normalization)
    end.

(** ** [check_grid_coverage] *)

(** [[np.unique(self.plims[self.params[i]]["vals"]) for i in
    range(self.ndim)]]. *)
Fixpoint unique_params_of (self : ModelGrid) (names : list string)
    : result (list (list Q)) :=
  match names with
  | [] => Ok []
  | name :: rest =>
      pl ← dict_get (plims self) name;
      others ← unique_params_of self rest;
      Ok (np_unique (plim_vals pl) :: others)
  end.

(** The body of the loop that fills column [i] of [unique_combinations]. *)
Definition fill_combination_column (ncomb nd : nat)
    (unique_combinations : list (list Q)) (i : nat) (unique_i : list Q)
    : list (list Q) :=
  let div_by := (2 ^ (nd - i - 1))%nat in
  let loc := map (fun r => ((r / div_by) mod length unique_i)%nat)
                 (np_arange ncomb) in
  fold_left
    (fun acc ju =>
       let loc_j := np_where (map (Nat.eqb (fst ju)) loc) in
       np_put_col loc_j i (snd ju) acc)
    (imap pair unique_i) unique_combinations.

Definition fill_combinations (ncomb nd : nat) (unique_params : list (list Q))
    : list (list Q) :=
  fold_left
    (fun acc iu => fill_combination_column ncomb nd acc (fst iu) (snd iu))
    (imap pair unique_params) (np_zeros2 ncomb nd).

(** The inner loop over [j] for the combination [up] met at position [i]
    of the enumeration: note that the source indexes [self.params] with
    [i], the position of the combination. *)
Fixpoint coverage_p_loc (self : ModelGrid) (i : nat) (up : list Q)
    (js : list nat) (p_loc : list nat) : result (list nat) :=
  match js with
  | [] => Ok p_loc
  | j :: rest =>
      name ← py_get (params self) i;
      pl ← dict_get (plims self) name;
      up_j ← py_get up j;
      coverage_p_loc self i up rest
        (np_intersect1d p_loc
           (np_where (map (fun v => Qeq_bool v up_j) (plim_vals pl))))
  end.

(** The loop over [enumerate(unique_combinations)], with its [break]. *)
Fixpoint coverage_loop (self : ModelGrid) (ncomb : nat) (i : nat)
    (rows : list (list Q)) : result bool :=
  match rows with
  | [] => Ok true
  | up :: rest =>
      p_loc ← coverage_p_loc self i up (seq 0 (ndim self)) (np_arange ncomb);
      if (length p_loc =? 0)%nat then Ok false
      else coverage_loop self ncomb (S i) rest
  end.

Definition check_grid_coverage (self : ModelGrid) : result bool :=
  unique_params ← unique_params_of self (params self);
  let ncomb := fold_left (fun n u => (n * length u)%nat) unique_params 1%nat in
  let unique_combinations := fill_combinations ncomb (ndim self) unique_params in
  coverage_loop self (length unique_combinations) 0 unique_combinations.

(** ** The constructor *)

Definition Qlt_b (x y : Q) : bool := negb (Qle_bool y x).

(** The loop that builds [self.plims]: a parameter that is not a key of
    the model collection is logged and skipped.  The parameters are taken
    to name coordinate columns, not ['wavelength'] or ['flux']. *)
Fixpoint build_plims (model_dict : ModelDict) (names : list string)
    (acc : gmap string Plim) : result (gmap string Plim) :=
  match names with
  | [] => Ok acc
  | p :: rest =>
      match model_columns model_dict !! p with
      | None => build_plims model_dict rest acc
      | Some vals =>
          lo ← py_min vals;
          hi ← py_max vals;
          build_plims model_dict rest
            (<[p := {| plim_vals := vals; plim_min := lo; plim_max := hi |}]> acc)
      end
  end.

Definition set_is_grid_complete (b : bool) (self : ModelGrid) : ModelGrid :=
  {| model := model self; wavelength_bins := wavelength_bins self;
     params := params self; plims := plims self; smooth := smooth self;
     wave := wave self; flux := flux self; unc := unc self;
     interp := interp self; is_grid_complete := b; snap := snap self |}.

Definition set_snap (b : bool) (self : ModelGrid) : ModelGrid :=
  {| model := model self; wavelength_bins := wavelength_bins self;
     params := params self; plims := plims self; smooth := smooth self;
     wave := wave self; flux := flux self; unc := unc self;
     interp := interp self; is_grid_complete := is_grid_complete self;
     snap := b |}.

Definition key_get {A} (o : option A) : result A :=
  match o with
  | Some v => Ok v
  | None => Raise KeyError
  end.

(** [ModelGrid.__init__].  The argument [resolution] is accepted and not
    stored in any attribute.  The attributes [is_grid_complete] and
    [snap] do not exist before lines 175 to 182 assign them; they are
    [false] in the record until then. *)
Definition __init__ (spectrum : Spectrum) (model_dict : ModelDict)
    (params : list string) (smooth : bool) (resolution : option Q)
    (snap : bool) (wavelength_bins : list Q) : result ModelGrid :=
  model_wl ← key_get (model_wavelength model_dict);
  model_fl ← key_get (model_flux model_dict);
  plims ← build_plims model_dict params ∅;
  let wave := spectrum_wavelength spectrum in
  m0 ← py_get model_wl 0;
  w0 ← py_get wave 0;
  let check_diff := m0 - w0 in
  let interp :=
    if (length model_wl =? length wave)%nat && Qlt_b (Qabs check_diff) 1e-10
    then false else true in
  let self :=
    {| model := model_dict; wavelength_bins := wavelength_bins;
       params := params; plims := plims; smooth := smooth;
       wave := wave; flux := spectrum_flux spectrum;
       unc := spectrum_unc spectrum; interp := interp;
       is_grid_complete := false; snap := false |} in
  covered ← check_grid_coverage self;
  let self := set_is_grid_complete covered self in
  let self :=
    if negb (is_grid_complete self) then set_snap true self
    else set_snap snap self in
  let self := set_snap snap self in
  _ ← py_get model_fl 0;
  Ok self.

(** ** [normalize_model] *)

(** The call with [return_ck=True]: the scaled flux and the factor. *)
Definition normalize_model_ck (self : ModelGrid) (model_flux : list Q)
    : result (list Q * Q) :=
  let unc_sq := map (fun u => u ^ 2) (unc self) in
  fm ← np_broadcast Qmult (flux self) model_flux;
  fm ← np_broadcast Qdiv fm unc_sq;
  let mult1 := py_sum fm in
  mm ← np_broadcast Qmult model_flux model_flux;
  mm ← np_broadcast Qdiv mm unc_sq;
  let mult := py_sum mm in
  let ck := mult1 / mult in
  let model_flux := map (fun x => x * ck) model_flux in
  Ok (model_flux, ck).

(** The default call, [return_ck=False]. *)
Definition normalize_model (self : ModelGrid) (model_flux : list Q)
    : result (list Q) :=
  r ← normalize_model_ck self model_flux;
  Ok r.1.

(** ** [interp_models]: edges and corners *)

(** A [for] loop whose body may raise. *)
Fixpoint for_each {A S} (body : S -> A -> result S) (xs : list A) (s : S)
    : result S :=
  match xs with
  | [] => Ok s
  | x :: rest => s' ← body s x; for_each body rest s'
  end.

(** The body of the first loop: the grid values below and above [p[i]],
    or [p[i]] alone when it is a grid value.  The state is
    [(grid_edges, single_flags)]; [edge_inds] is never read and is left
    out. *)
Definition grid_edges_step (self : ModelGrid) (p : list Q)
    (st : gmap string (list Q) * list nat) (i : nat)
    : result (gmap string (list Q) * list nat) :=
  let '(grid_edges, single_flags) := st in
  p_i ← py_get p i;
  name ← py_get (params self) i;
  pl ← dict_get (plims self) name;
  let vals := plim_vals pl in
  if np_in p_i vals then
    Ok (<[name := [p_i]]> grid_edges, single_flags ++ [i])
  else
    dn_val ← py_max (List.filter (fun v => Qlt_b v p_i) vals);
    up_val ← py_min (List.filter (fun v => Qlt_b p_i v) vals);
    Ok (<[name := [dn_val; up_val]]> grid_edges, single_flags).

Definition grid_edges_of (self : ModelGrid) (p : list Q)
    : result (gmap string (list Q) * list nat) :=
  for_each (grid_edges_step self p) (seq 0 (ndim self)) (∅, []).

(** [(np.arange(num_spectra)/div_by) % 2] at row [r], where [div_by] is
    [1] when [num_spectra == 2] and [2**e] otherwise.  For [e >= 0] the
    division is the integer one.  For [e < 0] the divisor is the float
    [2^e], as Python and the numpy scalars of the time of the source
    (before release 1.12) compute it, and the quotient is [r * 2^(-e)];
    later releases of numpy raise [ValueError] at that power instead. *)
Definition corner_loc (num_spectra : nat) (e : Z) (r : nat) : Z :=
  if (num_spectra =? 2)%nat then (Z.of_nat r / 1) mod 2
  else if (0 <=? e)%Z then (Z.of_nat r / 2 ^ e) mod 2
  else (Z.of_nat r * 2 ^ (- e)) mod 2.

Definition nat_in (i : nat) (l : list nat) : bool := existsb (Nat.eqb i) l.

(** [np.delete(range(self.ndim), single_flags)]. *)
Definition to_interp_of (nd : nat) (single_flags : list nat) : list nat :=
  List.filter (fun i => negb (nat_in i single_flags)) (seq 0 nd).

(** [grid_corners[:,i] = grid_edges[self.params[i]][0]]. *)
Definition corners_single_step (self : ModelGrid)
    (grid_edges : gmap string (list Q)) (num_spectra : nat)
    (grid_corners : list (list Q)) (i : nat) : result (list (list Q)) :=
  name ← py_get (params self) i;
  edges ← dict_get grid_edges name;
  e0 ← py_get edges 0;
  Ok (np_put_col (np_arange num_spectra) i e0 grid_corners).

(** The body of the loop over [to_interp]. *)
Definition corners_interp_step (self : ModelGrid)
    (grid_edges : gmap string (list Q)) (num_spectra n_single : nat)
    (grid_corners : list (list Q)) (i : nat) : result (list (list Q)) :=
  let e := (Z.of_nat (ndim self) - Z.of_nat n_single - Z.of_nat i - 1)%Z in
  let loc := map (corner_loc num_spectra e) (np_arange num_spectra) in
  let loc1 := np_where (map (Z.eqb 0) loc) in
  let loc2 := np_where (map (fun l => negb (Z.eqb l 0)) loc) in
  name ← py_get (params self) i;
  edges ← dict_get grid_edges name;
  e0 ← py_get edges 0;
  let grid_corners := np_put_col loc1 i e0 grid_corners in
  name ← py_get (params self) i;
  edges ← dict_get grid_edges name;
  e1 ← py_get edges 1;
  Ok (np_put_col loc2 i e1 grid_corners).

(** The rows of [grid_corners] for the edges found. *)
Definition grid_corners_of (self : ModelGrid)
    (grid_edges : gmap string (list Q)) (single_flags : list nat)
    : result (list (list Q)) :=
  let num_spectra := (2 ^ (ndim self - length single_flags))%nat in
  let to_interp := to_interp_of (ndim self) single_flags in
  let grid_corners := np_zeros2 num_spectra (ndim self) in
  grid_corners ← for_each (corners_single_step self grid_edges num_spectra)
                   single_flags grid_corners;
  for_each (corners_interp_step self grid_edges num_spectra
              (length single_flags))
    to_interp grid_corners.

(** The corners [interp_models] gathers for the parameters [p]. *)
Definition grid_corners (self : ModelGrid) (p : list Q)
    : result (list (list Q)) :=
  st ← grid_edges_of self p;
  grid_corners_of self st.1 st.2.

(** ** [interp_models]: corner lookup and reduction *)

(** The flux array the routines return when no single model is found:
    [np.ones(len(self.wave))*-99.0]. *)
Definition sentinel (self : ModelGrid) : list Q :=
  replicate (length (wave self)) (-99).

(** [find_i] for the corner [cpar]: the positions of the models whose
    coordinates all equal those of the corner. *)
Definition find_i_step (self : ModelGrid) (cpar : list Q)
    (find_i : list bool) (i : nat) : result (list bool) :=
  c_i ← py_get cpar i;
  name ← py_get (params self) i;
  pl ← dict_get (plims self) name;
  np_broadcast andb find_i (map (fun v => Qeq_bool c_i v) (plim_vals pl)).

Definition find_i_of (self : ModelGrid) (cpar : list Q) : result (list nat) :=
  name0 ← py_get (params self) 0;
  pl0 ← dict_get (plims self) name0;
  let find_i := replicate (length (plim_vals pl0)) true in
  find_i ← for_each (find_i_step self cpar) (seq 0 (ndim self)) find_i;
  Ok (np_where find_i).

(** Dictionaries keyed by tuples of floats.  A value is the one-row array
    [self.model['flux'][find_i]], kept as its row. *)
Abbreviation tuple_dict := (list (list Q * list Q)).

Definition tuple_eqb (a b : list Q) : bool :=
  (length a =? length b)%nat && forallb (fun xy => Qeq_bool xy.1 xy.2) (zip a b).

Definition tuple_set (k : list Q) (v : list Q) (d : tuple_dict) : tuple_dict :=
  (k, v) :: d.

Fixpoint tuple_get (d : tuple_dict) (k : list Q) : result (list Q) :=
  match d with
  | [] => Raise KeyError
  | (k', v) :: rest => if tuple_eqb k k' then Ok v else tuple_get rest k
  end.

(** The loop that fills [corner_spectra]; [None] is the early return of
    the sentinel array. *)
Fixpoint gather_corner_spectra (self : ModelGrid) (rows : list (list Q))
    (corner_spectra : tuple_dict) : result (option tuple_dict) :=
  match rows with
  | [] => Ok (Some corner_spectra)
  | cpar :: rest =>
      find_i ← find_i_of self cpar;
      if negb (length find_i =? 1)%nat then Ok None
      else
        table ← key_get (model_flux (model self));
        k ← py_get find_i 0;
        row ← py_get table k;
        gather_corner_spectra self rest (tuple_set cpar row corner_spectra)
  end.

(** [a / b] on float64 scalars of numpy: a zero divisor does not raise,
    the quotient is [inf] or [nan]. *)
Definition float_div (a b : Q) : result Q :=
  if Qeq_bool b 0 then Raise NonFinite else Ok (a / b).

(** The blending weight of lines 389 to 395. *)
Definition coeff (name : string) (p_i interp1 interp2 : Q) : result Q :=
  if String.eqb name "teff"
  then float_div ((p_i ^ 4 - interp1 ^ 4) * 1) (interp2 ^ 4 - interp1 ^ 4)
  else float_div ((p_i - interp1) * 1) (interp2 - interp1).

(** [ns1 + (ns2-ns1)*coeff]. *)
Definition blend (ns1 ns2 : list Q) (c : Q) : result (list Q) :=
  d ← np_broadcast Qminus ns2 ns1;
  np_broadcast Qplus ns1 (map (fun x => x * c) d).

(** One pass of the reduction loop; the state is
    [(old_corners, old_spectra)]. *)
Definition reduce_step (self : ModelGrid) (p : list Q)
    (single_flags to_interp : list nat)
    (st : list (list Q) * tuple_dict) (i : nat)
    : result (list (list Q) * tuple_dict) :=
  let '(old_corners, old_spectra) := st in
  if nat_in i to_interp then
    row0 ← py_get old_corners 0;
    interp1 ← py_get row0 0;
    rowh ← py_get old_corners (length old_corners / 2);
    interp2 ← py_get rowh 0;
    name ← py_get (params self) i;
    p_i ← py_get p i;
    c ← coeff name p_i interp1 interp2;
    let new_corners := map (drop 1) (take (length old_corners / 2) old_corners) in
    new_spectra ←
      for_each (fun new_spectra cpar =>
                  ns1 ← tuple_get old_spectra (interp1 :: cpar);
                  ns2 ← tuple_get old_spectra (interp2 :: cpar);
                  new_flux ← blend ns1 ns2 c;
                  Ok (tuple_set cpar new_flux new_spectra))
               new_corners [];
    Ok (new_corners, new_spectra)
  else if nat_in i single_flags then
    row0 ← py_get old_corners 0;
    skip_var ← py_get row0 0;
    let new_corners := map (drop 1) old_corners in
    new_spectra ←
      for_each (fun new_spectra cpar =>
                  v ← tuple_get old_spectra (skip_var :: cpar);
                  Ok (tuple_set cpar v new_spectra))
               new_corners [];
    Ok (new_corners, new_spectra)
  else Ok (old_corners, old_spectra).

Section Collaborators.

(** Modelled from the spec: the smoothing operation [falt2] of module
    [smooth], which is not among the sources: given the model wavelength
    axis, a flux array and a target resolution it returns a flux array. *)
Variable falt2 : list Q -> list Q -> Q -> list Q.

(** The binding of the global name [resolution] in the module, which only
    [from smooth import *] could provide; [None] when that module exports
    no such name. *)
Variable resolution : option Q.

(** [np.interp(x, xp, fp)], [np.exp], [np.log] and [np.pi]. *)
Variable np_interp : list Q -> list Q -> list Q -> result (list Q).
Variable np_exp : Q -> Q.
Variable np_log : Q -> Q.
Variable np_pi : Q.

Definition name_get (o : option Q) : result Q :=
  match o with
  | Some v => Ok v
  | None => Raise NameError
  end.

(** The common tail of [interp_models] (lines 437 to 455) and of
    [retrieve_model] (lines 619 to 637): smoothing, resampling and
    normalization. *)
Definition smooth_resample_normalize (self : ModelGrid) (mod_flux : list Q)
    : result (list Q) :=
  mod_flux ←
    (if smooth self then
       model_wl ← key_get (model_wavelength (model self));
       res ← name_get resolution;
       Ok (falt2 model_wl mod_flux res)
     else Ok mod_flux);
  mod_flux ←
    (if interp self then
       model_wl ← key_get (model_wavelength (model self));
       np_interp (wave self) model_wl mod_flux
     else Ok mod_flux);
  normalize_model self mod_flux.

Definition interp_models (self : ModelGrid) (p : list Q) : result (list Q) :=
  st ← grid_edges_of self p;
  let '(grid_edges, single_flags) := st in
  let to_interp := to_interp_of (ndim self) single_flags in
  grid_corners ← grid_corners_of self grid_edges single_flags;
  corner_spectra ← gather_corner_spectra self grid_corners [];
  match corner_spectra with
  | None => Ok (sentinel self)
  | Some corner_spectra =>
      st ← for_each (reduce_step self p single_flags to_interp)
             (seq 0 (ndim self)) (grid_corners, corner_spectra);
      mod_flux ← tuple_get st.2 [];
      smooth_resample_normalize self mod_flux
  end.

(** ** Snap retrieval *)

(** [a.argmin()]: the first position of the least value. *)
Fixpoint argmin_from (k : nat) (best_k : nat) (best : Q) (a : list Q) : nat :=
  match a with
  | [] => best_k
  | x :: t =>
      if Qlt_b x best then argmin_from (S k) k x t
      else argmin_from (S k) best_k best t
  end.

Definition np_argmin (a : list Q) : result nat :=
  match a with
  | [] => Raise ValueError
  | x :: t => Ok (argmin_from 1 0 x t)
  end.

Definition find_nearest (arr : list Q) (val : Q) : result (list nat) :=
  k ← np_argmin (map (fun a => Qabs (a - val)) arr);
  close_val ← py_get arr k;
  Ok (np_where (map (fun a => Qle_bool (Qabs (a - close_val)) 1e-5) arr)).

(** The loop of [find_nearest2]; the state is [(min_distance,
    matched_i)].  The average of an empty difference is [nan], which
    compares false both ways. *)
Definition find_nearest2_step (p_values : list Q) (st : Q * Z)
    (im : nat * list Q) : result (Q * Z) :=
  let '(min_distance, matched_i) := st in
  d ← np_broadcast Qminus im.2 p_values;
  let mod_difference := map Qabs d in
  match mod_difference with
  | [] => Ok (min_distance, matched_i)
  | _ =>
      let check_distance :=
        py_sum mod_difference / inject_Z (Z.of_nat (length mod_difference)) in
      if Qeq_bool check_distance min_distance then Ok (min_distance, matched_i)
      else if Qlt_b check_distance min_distance
           then Ok (check_distance, Z.of_nat im.1)
           else Ok (min_distance, matched_i)
  end.

Definition find_nearest2 (param_arrays : list (list Q)) (p_values : list Q)
    : result Z :=
  st ← for_each (find_nearest2_step p_values) (imap pair param_arrays)
         (1e10, (-99)%Z);
  Ok st.2.

(** [[[self.plims[self.params[i]]["vals"][j] for i in range(self.ndim)]
    for j in range(num_models)]]. *)
Fixpoint param_row (self : ModelGrid) (names : list string) (j : nat)
    : result (list Q) :=
  match names with
  | [] => Ok []
  | name :: rest =>
      pl ← dict_get (plims self) name;
      v ← py_get (plim_vals pl) j;
      others ← param_row self rest j;
      Ok (v :: others)
  end.

Fixpoint param_arrays_of (self : ModelGrid) (js : list nat)
    : result (list (list Q)) :=
  match js with
  | [] => Ok []
  | j :: rest =>
      row ← param_row self (params self) j;
      others ← param_arrays_of self rest;
      Ok (row :: others)
  end.

(** The loop of the complete-grid branch of [retrieve_model]. *)
Definition retrieve_step (self : ModelGrid) (p : list Q) (p_loc : list nat)
    (i : nat) : result (list nat) :=
  name ← py_get (params self) i;
  column ← dict_get (model_columns (model self)) name;
  p_i ← py_get p i;
  this_p_loc ← find_nearest column p_i;
  Ok (np_intersect1d p_loc this_p_loc).

Definition retrieve_model (self : ModelGrid) (p : list Q) : result (list Q) :=
  table ← key_get (model_flux (model self));
  let p_loc := np_arange (length table) in
  p_loc ←
    (if is_grid_complete self then
       p_loc ← for_each (retrieve_step self p) (seq 0 (ndim self)) p_loc;
       Ok (map Z.of_nat p_loc)
     else
       name0 ← py_get (params self) 0;
       pl0 ← dict_get (plims self) name0;
       let num_models := length (plim_vals pl0) in
       param_arrays ← param_arrays_of self (seq 0 num_models);
       k ← find_nearest2 param_arrays p;
       Ok [k]);
  let mod_flux := sentinel self in
  match p_loc with
  | [k] =>
      row ← py_index table k;
      (* while len(mod_flux)==1: mod_flux = mod_flux[0] *)
      if (length row =? 1)%nat then Raise TypeError
      else smooth_resample_normalize self row
  | _ => Ok mod_flux
  end.

(** ** The posterior evaluation [__call__] *)

(** The value returned: [-np.inf] or a finite log-probability. *)
Inductive lnprob : Type :=
| NegInf
| Finite (x : Q).

(** The loop that compares each parameter with the limits of the model;
    [true] is the early return of [-np.inf]. *)
Fixpoint outside_limits (self : ModelGrid) (model_p : list Q)
    (indices : list nat) : result bool :=
  match indices with
  | [] => Ok false
  | i :: rest =>
      x ← py_get model_p i;
      name ← py_get (params self) i;
      pl ← dict_get (plims self) name;
      if Qlt_b (plim_max pl) x || Qlt_b x (plim_min pl) then Ok true
      else outside_limits self model_p rest
  end.

(** [np.sum] of an array, in exact arithmetic. *)
Definition np_sum (a : list Q) : Q := py_sum a.

Definition __call__ (self : ModelGrid) (p : list Q) : result lnprob :=
  let model_p := take (ndim self) p in
  lns ← py_index p (-1);
  let norm_values := drop (ndim self) (take (length p - 1) p) in
  normalization ← calc_normalization self norm_values (wavelength_bins self);
  if Qlt_b 1 lns then Ok NegInf
  else
    rejected ← outside_limits self model_p (seq 0 (ndim self));
    if (rejected : bool) then Ok NegInf
    else
      mod_flux ← (if snap self then retrieve_model self model_p
                  else interp_models self model_p);
      if Qlt_b (py_sum mod_flux) 0 then Ok NegInf
      else
        let s := np_exp lns in
        unc_sq ← np_broadcast Qmult (map (fun u => u ^ 2 + s ^ 2) (unc self))
                   (map (fun n => n ^ 2) normalization);
        scaled ← np_broadcast Qmult mod_flux normalization;
        diff ← np_broadcast Qminus (flux self) scaled;
        flux_pts ← np_broadcast Qdiv (map (fun d => d ^ 2) diff) unc_sq;
        let width_term := map (fun v => np_log (2 * np_pi * v)) unc_sq in
        total ← np_broadcast Qplus flux_pts width_term;
        Ok (Finite (- 0.5 * np_sum total)).

End Collaborators.

(** ** The specification's notions, for comparison *)

(** The Cartesian product of the per-parameter value lists. *)
Fixpoint cartesian_product (cols : list (list Q)) : list (list Q) :=
  match cols with
  | [] => [[]]
  | c :: rest => x ← c; t ← cartesian_product rest; [x :: t]
  end.

(** The coordinate columns of the fit parameters, in order. *)
Fixpoint fit_columns (self : ModelGrid) (names : list string)
    : result (list (list Q)) :=
  match names with
  | [] => Ok []
  | name :: rest =>
      pl ← dict_get (plims self) name;
      others ← fit_columns self rest;
      Ok (plim_vals pl :: others)
  end.

(** The coordinate tuple of each model. *)
Definition model_tuples (cols : list (list Q)) : list (list Q) :=
  map (fun j => map (fun c => default 0 (c !! j)) cols)
      (seq 0 (length (default [] (head cols)))).

(** GridCoverage as the specification words it: every combination of the
    Cartesian product of each parameter's unique values is matched by at
    least one model. *)
Definition grid_coverage_spec (self : ModelGrid) : result bool :=
  cols ← fit_columns self (params self);
  Ok (forallb (fun combo => existsb (tuple_eqb combo) (model_tuples cols))
              (cartesian_product (map np_unique cols))).

(** The hyper-cube corners as the specification words them: every
    combination of the edge values of each dimension. *)
Definition hypercube_corners_spec (self : ModelGrid) (p : list Q)
    : result (list (list Q)) :=
  st ← grid_edges_of self p;
  edges ← for_each (fun acc name => e ← dict_get st.1 name; Ok (acc ++ [e]))
            (params self) [];
  Ok (cartesian_product edges).

(** The two sums of the least-squares scale factor, as mathematical
    sums over the samples. *)
Fixpoint weighted_dot (a b u : list Q) : Q :=
  match a, b, u with
  | x :: a', y :: b', w :: u' => x * y / w ^ 2 + weighted_dot a' b' u'
  | _, _, _ => 0
  end.

(** ** Example grids *)

Definition default_bins : list Q := [0.9; 1.4; 1.9; 2.5].

Definition example_spectrum : Spectrum :=
  {| spectrum_wavelength := [0.5; 1.65; 3.0];
     spectrum_flux := [2; 4; 6];
     spectrum_unc := [1; 1; 2] |}.

(** A complete grid: two temperatures by two gravities. *)
Definition complete_model : ModelDict :=
  {| model_wavelength := Some [0.5; 1.65; 3.0];
     model_flux := Some [[1; 2; 3]; [2; 3; 4]; [3; 4; 5]; [4; 5; 7]];
     model_columns :=
       <["teff" := [1400; 1400; 1600; 1600]]>
         (<["logg" := [4.5; 5.0; 4.5; 5.0]]> ∅) |}.

(** The same grid without the model at (1600, 5.0). *)
Definition incomplete_model : ModelDict :=
  {| model_wavelength := Some [0.5; 1.65; 3.0];
     model_flux := Some [[1; 2; 3]; [2; 3; 4]; [3; 4; 5]];
     model_columns :=
       <["teff" := [1400; 1400; 1600]]>
         (<["logg" := [4.5; 5.0; 4.5]]> ∅) |}.

(** A complete grid over three parameters, two values each. *)
Definition cube_model : ModelDict :=
  {| model_wavelength := Some [0.5; 1.65; 3.0];
     model_flux :=
       Some [[1; 2; 3]; [2; 3; 4]; [3; 4; 5]; [4; 5; 7];
             [5; 6; 7]; [6; 7; 8]; [7; 8; 9]; [8; 9; 11]];
     model_columns :=
       <["logg" := [4.5; 4.5; 4.5; 4.5; 5.0; 5.0; 5.0; 5.0]]>
         (<["teff" := [1400; 1400; 1600; 1600; 1400; 1400; 1600; 1600]]>
            (<["fsed" := [1; 2; 1; 2; 1; 2; 1; 2]]> ∅)) |}.

(** The grid of [cube_model] without its second model, the one at
    (logg, teff, fsed) = (4.5, 1400, 2). *)
Definition holed_cube_model : ModelDict :=
  {| model_wavelength := Some [0.5; 1.65; 3.0];
     model_flux :=
       Some [[1; 2; 3]; [3; 4; 5]; [4; 5; 7];
             [5; 6; 7]; [6; 7; 8]; [7; 8; 9]; [8; 9; 11]];
     model_columns :=
       <["logg" := [4.5; 4.5; 4.5; 5.0; 5.0; 5.0; 5.0]]>
         (<["teff" := [1400; 1600; 1600; 1400; 1400; 1600; 1600]]>
            (<["fsed" := [1; 1; 2; 1; 2; 1; 2]]> ∅)) |}.

(** The grid the constructor builds for [complete_model] when asked for
    interpolation. *)
Definition complete_grid : ModelGrid :=
  {| model := complete_model; wavelength_bins := default_bins;
     params := ["teff"; "logg"];
     plims :=
       <["teff" := {| plim_vals := [1400; 1400; 1600; 1600];
                      plim_min := 1400; plim_max := 1600 |}]>
         (<["logg" := {| plim_vals := [4.5; 5.0; 4.5; 5.0];
                         plim_min := 4.5; plim_max := 5.0 |}]> ∅);
     smooth := false; wave := [0.5; 1.65; 3.0]; flux := [2; 4; 6];
     unc := [1; 1; 2]; interp := false; is_grid_complete := false;
     snap := false |}.

(** The grid the constructor builds for [incomplete_model] when asked
    for interpolation. *)
Definition incomplete_grid : ModelGrid :=
  {| model := incomplete_model; wavelength_bins := default_bins;
     params := ["teff"; "logg"];
     plims :=
       <["teff" := {| plim_vals := [1400; 1400; 1600];
                      plim_min := 1400; plim_max := 1600 |}]>
         (<["logg" := {| plim_vals := [4.5; 5.0; 4.5];
                         plim_min := 4.5; plim_max := 5.0 |}]> ∅);
     smooth := false; wave := [0.5; 1.65; 3.0]; flux := [2; 4; 6];
     unc := [1; 1; 2]; interp := false; is_grid_complete := false;
     snap := false |}.

(** ** Auxiliary notions for the statements *)

(** Whether the parameter at position [i] breaks its limits. *)
Definition limit_violated (self : ModelGrid) (model_p : list Q) (i : nat)
    : bool :=
  match model_p !! i, params self !! i with
  | Some x, Some name =>
      match plims self !! name with
      | Some pl => Qlt_b (plim_max pl) x || Qlt_b x (plim_min pl)
      | None => false
      end
  | _, _ => false
  end.


(** The model collection as the constructor indexes it: the flux table
    is [table], and each fit parameter has an entry of [plims] with as
    many values as there are models and with their least and greatest
    value for limits. *)
Definition grid_indexed (self : ModelGrid) (table : list (list Q)) : Prop :=
  model_flux (model self) = Some table /\
  Forall (fun name =>
            exists pl, plims self !! name = Some pl /\
                       length (plim_vals pl) = length table /\
                       py_min (plim_vals pl) = Ok (plim_min pl) /\
                       py_max (plim_vals pl) = Ok (plim_max pl))
         (params self).

(** Every fit parameter lies within the limits of its dimension. *)
Definition within_limits (self : ModelGrid) (model_p : list Q) : Prop :=
  forall i x name pl,
    model_p !! i = Some x -> params self !! i = Some name ->
    plims self !! name = Some pl ->
    plim_min pl <= x <= plim_max pl.

(** The normalization values have the documented shape: one value when
    no bin edge is configured, otherwise one value per bin. *)
Definition normalization_shape (self : ModelGrid) (norm_values : list Q)
    : Prop :=
  (wavelength_bins self = [] /\ length norm_values = 1%nat) \/
  (norm_values <> [] /\
   (length norm_values + 1 = length (wavelength_bins self))%nat).

(** Model [j] of the collection lies at the coordinates [cpar]: in every
    dimension the column of the parameter holds at [j] a value equal to
    the coordinate. *)
Definition model_at (self : ModelGrid) (j : nat) (cpar : list Q) : Prop :=
  forall i name pl c,
    params self !! i = Some name -> plims self !! name = Some pl ->
    cpar !! i = Some c ->
    exists v, plim_vals pl !! j = Some v /\ c == v.

(** Model [k] of the [n] models is the one model at [cpar]. *)
Definition only_model_at (self : ModelGrid) (n k : nat) (cpar : list Q)
    : Prop :=
  (k < n)%nat /\ model_at self k cpar /\
  forall j, (j < n)%nat -> model_at self j cpar -> j = k.

(** [dn] and [up] are the grid values next below and next above [x],
    which is not a grid value itself. *)
Definition brackets (vals : list Q) (x dn up : Q) : Prop :=
  dn ∈ vals /\ up ∈ vals /\ dn < x /\ x < up /\
  forall v, v ∈ vals -> v <= dn \/ up <= v.

(** ** Notions used by the further properties *)

(** The bin edges are in non-decreasing order. *)
Definition edges_ordered (bins : list Q) : Prop :=
  forall a b x y, (a <= b)%nat ->
    bins !! a = Some x -> bins !! b = Some y -> x <= y.

(** The distance [find_nearest2] compares: the average of the absolute
    coordinate differences between a model and the requested values. *)
Definition mean_abs_difference (mod_params p_values : list Q) : Q :=
  let mod_difference := map Qabs (zip_with Qminus mod_params p_values) in
  py_sum mod_difference / inject_Z (Z.of_nat (length mod_difference)).

(** What the state [(min_distance, matched_i)] of the loop of
    [find_nearest2] records about the models seen so far: either none
    is nearer than 1e10, or [matched_i] is the first of the nearest
    ones. *)
Definition nearest_so_far (param_arrays : list (list Q)) (p_values : list Q)
    (st : Q * Z) : Prop :=
  (st = (1e10, (-99)%Z) /\
   forall r, r ∈ param_arrays -> 1e10 <= mean_abs_difference r p_values) \/
  (exists j row,
     st = (mean_abs_difference row p_values, Z.of_nat j) /\
     param_arrays !! j = Some row /\
     mean_abs_difference row p_values < 1e10 /\
     (forall j' r', param_arrays !! j' = Some r' ->
        mean_abs_difference row p_values <= mean_abs_difference r' p_values) /\
     (forall j' r', (j' < j)%nat -> param_arrays !! j' = Some r' ->
        mean_abs_difference row p_values < mean_abs_difference r' p_values)).

(** ** [snap_full_run] *)

(** [np.diff(a)] on a one-dimensional array: the differences of
    consecutive entries. *)
Fixpoint np_diff (a : list Q) : list Q :=
  match a with
  | [] => []
  | x :: t =>
      match t with
      | [] => []
      | y :: _ => (y - x) :: np_diff t
      end
  end.

(** [np.unique(np.diff(np.unique(self.model[self.params[i]])))]: the
    distinct spacings of the grid values of parameter [i]. *)
Definition grid_spacings (self : ModelGrid) (i : nat) : result (list Q) :=
  name ← py_get (params self) i;
  column ← dict_get (model_columns (model self)) name;
  Ok (np_unique (np_diff (np_unique column))).

(** The first loop of [snap_full_run]; the state is [round_is_valid],
    and a parameter with no single spacing leaves the loop. *)
Fixpoint round_check (self : ModelGrid) (indices : list nat)
    (round_is_valid : bool) : result bool :=
  match indices with
  | [] => Ok round_is_valid
  | i :: rest =>
      check ← grid_spacings self i;
      if negb (length check =? 1)%nat then Ok false
      else round_check self rest true
  end.

(** The chain of samples: a two-dimensional array, given by the length
    of its second axis and its rows, each of that length. *)
Record Chain : Type := {
  chain_width : nat;
  chain_rows : list (list Q)
}.

(** The rows of the parameter table: all of the width of the chain. *)
Definition chain_shaped (c : Chain) : Prop :=
  Forall (fun row => length row = chain_width c) (chain_rows c).

(** [new_cropchain[j,i] = self.model[self.params[i]][p_loc]]. *)
Definition snap_cell (self : ModelGrid) (width : nat) (p_loc : Z) (j : nat)
    (new_cropchain : list (list Q)) (i : nat) : result (list (list Q)) :=
  name ← py_get (params self) i;
  column ← dict_get (model_columns (model self)) name;
  v ← py_index column p_loc;
  if (i <? width)%nat
  then Ok (alter (fun row => <[i := v]> row) j new_cropchain)
  else Raise IndexError.

(** The body of the loop over the samples. *)
Definition snap_row (self : ModelGrid) (width : nat)
    (param_arrays : list (list Q)) (new_cropchain : list (list Q))
    (jp : nat * list Q) : result (list (list Q)) :=
  let p := take (ndim self) jp.2 in
  p_loc ← find_nearest2 param_arrays p;
  for_each (snap_cell self width p_loc jp.1) (seq 0 (ndim self))
    new_cropchain.

Section Rounding.

(** [np.round(x, decimals)] on a float. *)
Variable np_round : Z -> Q -> Q.

(** [my_round], local to [snap_full_run]. *)
Definition my_round (x base : Q) : Q :=
  np_round 2 (base * np_round 0 (x / base)).

(** [new_cropchain[:,i] = my_round(cropchain[:,i],base_i)]. *)
Definition round_column (self : ModelGrid) (cropchain : Chain)
    (new_cropchain : list (list Q)) (i : nat) : result (list (list Q)) :=
  spacings ← grid_spacings self i;
  base_i ← py_get spacings 0;
  if (i <? chain_width cropchain)%nat
  then Ok (zip_with (fun old new =>
                       match old !! i with
                       | Some v => <[i := my_round v base_i]> new
                       | None => new
                       end)
                    (chain_rows cropchain) new_cropchain)
  else Raise IndexError.

Definition snap_full_run (self : ModelGrid) (cropchain : Chain)
    : result Chain :=
  let new_cropchain := chain_rows cropchain in
  round_is_valid ← round_check self (seq 0 (ndim self)) false;
  if round_is_valid && is_grid_complete self then
    new_cropchain ← for_each (round_column self cropchain)
                      (seq 0 (ndim self)) new_cropchain;
    Ok {| chain_width := chain_width cropchain;
          chain_rows := new_cropchain |}
  else
    name0 ← py_get (params self) 0;
    pl0 ← dict_get (plims self) name0;
    let num_models := length (plim_vals pl0) in
    param_arrays ← param_arrays_of self (seq 0 num_models);
    new_cropchain ← for_each (snap_row self (chain_width cropchain)
                                param_arrays)
                      (imap pair (chain_rows cropchain)) new_cropchain;
    Ok {| chain_width := chain_width cropchain;
          chain_rows := new_cropchain |}.

End Rounding.

(** The columns of the model dictionary are the value arrays the
    constructor stored in [plims]. *)
Definition columns_indexed (self : ModelGrid) : Prop :=
  forall i name pl,
    params self !! i = Some name -> plims self !! name = Some pl ->
    model_columns (model self) !! name = Some (plim_vals pl).

(** A sample [row] and its snapped version [row']: the first [nd]
    entries of [row'] are the coordinates of the first of the models
    nearest to the first [nd] entries of [row], and the other entries are
    those of [row]. *)
Definition snapped_to_nearest (nd : nat) (models : list (list Q))
    (row row' : list Q) : Prop :=
  exists k coords,
    models !! k = Some coords /\
    (forall k' r', models !! k' = Some r' ->
       mean_abs_difference coords (take nd row)
       <= mean_abs_difference r' (take nd row)) /\
    (forall k' r', (k' < k)%nat -> models !! k' = Some r' ->
       mean_abs_difference coords (take nd row)
       < mean_abs_difference r' (take nd row)) /\
    row' = coords ++ drop nd row.

(** ** The corner table in closed form *)

(** Bit [k] of the row number [r], as the second loop of
    [interp_models] computes it: [(r / 2**k) % 2]. *)
Definition corner_bit (r k : nat) : nat :=
  Z.to_nat ((Z.of_nat r / 2 ^ Z.of_nat k) mod 2).

(** The table after the first [m] columns were written: row [r] holds in
    column [i < m] the entry [corner_bit r (n - 1 - i)] of the edges of
    dimension [i], for [n] dimensions, and zero in the other columns. *)
Definition corner_rows_upto (m : nat) (cols : list (list Q))
    : list (list Q) :=
  map (fun r =>
         imap (fun i col =>
                 if (i <? m)%nat
                 then default 0 (col !! corner_bit r (length cols - 1 - i))
                 else 0) cols)
      (seq 0 (2 ^ length cols)).

(** The full table. *)
Definition corner_rows (cols : list (list Q)) : list (list Q) :=
  map (fun r =>
         imap (fun i col =>
                 default 0 (col !! corner_bit r (length cols - 1 - i))) cols)
      (seq 0 (2 ^ length cols)).
(** * Properties *)

(** ** Construction *)

(** Inversion of a successful sequence of two steps. *)
Lemma bind_Ok {A B} (m : result A) (f : A -> result B) b :
  m ≫= f = Ok b -> exists a, m = Ok a /\ f a = Ok b.
Proof. destruct m; cbn; [eauto | discriminate]. Qed.

Lemma bind_ret_l {A B} (a : A) (f : A -> result B) : Ok a ≫= f = f a.
Proof. reflexivity. Qed.

Lemma for_each_cons {A S} (body : S -> A -> result S) x rest s :
  for_each body (x :: rest) s = body s x ≫= for_each body rest.
Proof. reflexivity. Qed.

Lemma for_each_nil {A S} (body : S -> A -> result S) s :
  for_each body [] s = Ok s.
Proof. reflexivity. Qed.

(** Whatever the coverage check finds, the attribute [snap] of a
    constructed grid is the flag the caller passed: the assignment of
    line 182 overwrites the one of line 177. *)
Lemma init_snap_is_requested_flag spectrum model_dict names sm res sn bins mg :
  __init__ spectrum model_dict names sm res sn bins = Ok mg ->
  snap mg = sn.
Proof.
  unfold __init__. intros H.
  repeat (apply bind_Ok in H as (? & _ & H)).
  injection H as <-. reflexivity.
Qed.

Lemma init_complete_grid :
  __init__ example_spectrum complete_model ["teff"; "logg"]
           false None false default_bins = Ok complete_grid.
Proof. vm_compute. reflexivity. Qed.

Lemma init_incomplete_grid :
  __init__ example_spectrum incomplete_model ["teff"; "logg"]
           false None false default_bins = Ok incomplete_grid.
Proof. vm_compute. reflexivity. Qed.

(** C1 (fails on the code): the grid [incomplete_model] lacks the model
    at (1600, 5.0), so it is incomplete in the specification's sense and
    the constructor's own check reports it incomplete; constructed with
    [snap=False] it still ends with snap mode off, where the claim wants
    it forced on. *)
Theorem C1_incomplete_grid_leaves_snap_off :
  exists mg,
    __init__ example_spectrum incomplete_model ["teff"; "logg"]
             false None false default_bins = Ok mg /\
    grid_coverage_spec mg = Ok false /\
    is_grid_complete mg = false /\
    snap mg = false.
Proof. eexists. split; [vm_compute; reflexivity|]. vm_compute. auto. Qed.

(** C2 (fails on the code): [complete_model] holds a model for each of
    the four combinations of its two temperatures and two gravities, so
    its coverage is true as the specification defines it, yet
    [check_grid_coverage] answers false: the inner loop compares every
    coordinate of the combination with the column of one and the same
    parameter. *)
Theorem C2_complete_grid_reported_incomplete :
  exists mg,
    __init__ example_spectrum complete_model ["teff"; "logg"]
             false None false default_bins = Ok mg /\
    grid_coverage_spec mg = Ok true /\
    check_grid_coverage mg = Ok false /\
    is_grid_complete mg = false.
Proof. eexists. split; [vm_compute; reflexivity|]. vm_compute. auto. Qed.

(** ** Wavelength-dependent normalization *)

(** C3 (fails on the code): with edges [0.9, 1.4, 1.9, 2.5] and values
    [1, 2, 3], the samples at 0.5, 1.65 and 3.0 receive 3, 2 and 3: the
    sample below the first edge gets the value of the last bin, not 1. *)
Theorem C3_sample_below_first_edge_gets_last_value :
  wave complete_grid = [0.5; 1.65; 3.0] /\
  calc_normalization complete_grid [1; 2; 3] [0.9; 1.4; 1.9; 2.5]
    = Ok [3; 2; 3].
Proof. split; vm_compute; reflexivity. Qed.

(** ** Corners *)

(** C5 (fails on the code): on the three-parameter grid [cube_model]
    with parameters (logg, teff, fsed), the vector (4.5, 1500, 1.5) is
    pinned in its first dimension and interpolated in the other two.
    The four rows gathered repeat two tuples and never hold the upper
    value 2 of the last dimension, so the corner (4.5, 1400, 2) that the
    hyper-cube requires is missing. *)
Theorem C5_corners_miss_combinations :
  exists mg,
    __init__ example_spectrum cube_model ["logg"; "teff"; "fsed"]
             false None false default_bins = Ok mg /\
    outside_limits mg [4.5; 1500; 1.5] (seq 0 (ndim mg)) = Ok false /\
    hypercube_corners_spec mg [4.5; 1500; 1.5]
      = Ok [[4.5; 1400; 1]; [4.5; 1400; 2]; [4.5; 1600; 1]; [4.5; 1600; 2]] /\
    grid_corners mg [4.5; 1500; 1.5]
      = Ok [[4.5; 1400; 1]; [4.5; 1600; 1]; [4.5; 1400; 1]; [4.5; 1600; 1]].
Proof. eexists. split; [vm_compute; reflexivity|]. vm_compute. auto. Qed.

(** ** Smoothing *)

(** The constructor builds the same grid whatever resolution it is
    given. *)
Lemma init_ignores_resolution spectrum model_dict names sm res1 res2 sn bins :
  __init__ spectrum model_dict names sm res1 sn bins
  = __init__ spectrum model_dict names sm res2 sn bins.
Proof. reflexivity. Qed.

(** C6 (fails on the code): a grid constructed with smoothing enabled
    and resolution 100.  Flux retrieval reads the free name
    [resolution], not an attribute of the grid: when the module binds no
    such name both retrieval routines raise [NameError], and when it
    binds it to [g] the smoothing collaborator is handed [g], whatever
    the constructor was given. *)
Theorem C6_smoothing_reads_a_free_name falt2 np_interp :
  exists mg,
    __init__ example_spectrum complete_model ["teff"; "logg"]
             true (Some 100) false default_bins = Ok mg /\
    interp_models falt2 None np_interp mg [1400; 5.0] = Raise NameError /\
    retrieve_model falt2 None np_interp mg [1400; 5.0] = Raise NameError /\
    forall g,
      interp_models falt2 (Some g) np_interp mg [1400; 5.0]
      = normalize_model mg (falt2 [0.5; 1.65; 3.0] [2; 3; 4] g).
Proof.
  eexists. split; [vm_compute; reflexivity|].
  split; [vm_compute; reflexivity|].
  split; [vm_compute; reflexivity|].
  intros g. reflexivity.
Qed.

(** ** The blending weight *)


(** ** Least-squares normalization *)

Lemma np_broadcast_same_length {A B C} (f : A -> B -> C) a b :
  length a = length b -> np_broadcast f a b = Ok (zip_with f a b).
Proof. intros H. unfold np_broadcast. rewrite H, Nat.eqb_refl. reflexivity. Qed.

Lemma fold_left_Qplus_acc l a : fold_left Qplus l a == a + fold_left Qplus l 0.
Proof.
  revert a. induction l as [|x l IH]; intros a; cbn.
  - ring.
  - rewrite IH, (IH (0 + x)). ring.
Qed.

Lemma py_sum_cons x l : py_sum (x :: l) == x + py_sum l.
Proof. unfold py_sum. cbn. rewrite fold_left_Qplus_acc. ring. Qed.

Lemma py_sum_weighted_dot a b u :
  py_sum (zip_with Qdiv (zip_with Qmult a b) (map (fun w => w ^ 2) u))
  == weighted_dot a b u.
Proof.
  revert b u. induction a as [|x a IH]; intros [|y b] [|w u]; try reflexivity.
  cbn [zip_with map weighted_dot]. rewrite py_sum_cons, IH. reflexivity.
Qed.

Lemma weighted_dot_scale_r a b u c :
  weighted_dot a (map (fun x => x * c) b) u == c * weighted_dot a b u.
Proof.
  revert b u. induction a as [|x a IH]; intros [|y b] [|w u]; cbn; try ring.
  rewrite IH. unfold Qdiv. ring.
Qed.

Lemma weighted_dot_scale_both b u c :
  weighted_dot (map (fun x => x * c) b) (map (fun x => x * c) b) u
  == c * c * weighted_dot b b u.
Proof.
  revert u. induction b as [|y b IH]; intros [|w u]; cbn; try ring.
  rewrite IH. unfold Qdiv. ring.
Qed.

Lemma normalize_model_ck_eq self model_flux :
  length model_flux = length (flux self) ->
  length (unc self) = length (flux self) ->
  normalize_model_ck self model_flux
  = Ok (map (fun x => x *
               (py_sum (zip_with Qdiv (zip_with Qmult (flux self) model_flux)
                                 (map (fun w => w ^ 2) (unc self)))
                / py_sum (zip_with Qdiv (zip_with Qmult model_flux model_flux)
                                   (map (fun w => w ^ 2) (unc self)))))
            model_flux,
        py_sum (zip_with Qdiv (zip_with Qmult (flux self) model_flux)
                         (map (fun w => w ^ 2) (unc self)))
        / py_sum (zip_with Qdiv (zip_with Qmult model_flux model_flux)
                           (map (fun w => w ^ 2) (unc self)))).
Proof.
  intros Hm Hu. unfold normalize_model_ck. cbv [mbind result_bind].
  rewrite (np_broadcast_same_length Qmult (flux self) model_flux) by congruence.
  rewrite (np_broadcast_same_length Qdiv (zip_with Qmult (flux self) model_flux))
    by (rewrite length_zip_with, length_map; lia).
  rewrite (np_broadcast_same_length Qmult model_flux model_flux) by reflexivity.
  rewrite (np_broadcast_same_length Qdiv (zip_with Qmult model_flux model_flux))
    by (rewrite length_zip_with, length_map; lia).
  reflexivity.
Qed.

(** C10: [normalize_model] computes
    [ck = sum(flux*model_flux/unc^2) / sum(model_flux^2/unc^2)] and
    returns [model_flux*ck]; when neither denominator sum vanishes, the
    factor computed again on the scaled array is 1. *)
Theorem C10_normalize_model_scale_factor self model_flux :
  length model_flux = length (flux self) ->
  length (unc self) = length (flux self) ->
  Forall (fun w => ~ w == 0) (unc self) ->
  ~ weighted_dot model_flux model_flux (unc self) == 0 ->
  exists scaled ck,
    normalize_model_ck self model_flux = Ok (scaled, ck) /\
    normalize_model self model_flux = Ok scaled /\
    ck == weighted_dot (flux self) model_flux (unc self)
          / weighted_dot model_flux model_flux (unc self) /\
    scaled = map (fun x => x * ck) model_flux /\
    (~ weighted_dot scaled scaled (unc self) == 0 ->
     exists scaled' ck',
       normalize_model_ck self scaled = Ok (scaled', ck') /\ ck' == 1).
Proof.
  intros Hm Hu _ Hden.
  eexists _, _. split; [apply normalize_model_ck_eq; assumption|].
  split.
  { unfold normalize_model. rewrite normalize_model_ck_eq by assumption.
    reflexivity. }
  split; [rewrite !py_sum_weighted_dot; reflexivity|].
  split; [reflexivity|].
  set (c := py_sum _ / py_sum _).
  assert (Hc : c == weighted_dot (flux self) model_flux (unc self)
                    / weighted_dot model_flux model_flux (unc self))
    by (unfold c; rewrite !py_sum_weighted_dot; reflexivity).
  intros Hden'.
  eexists _, _. split.
  { apply normalize_model_ck_eq; [rewrite length_map|]; assumption. }
  rewrite weighted_dot_scale_both in Hden'.
  rewrite !py_sum_weighted_dot, weighted_dot_scale_r, weighted_dot_scale_both.
  assert (Hc0 : ~ c == 0).
  { intros Hc0. apply Hden'. rewrite Hc0. ring. }
  assert (Hnum : weighted_dot (flux self) model_flux (unc self)
                 == c * weighted_dot model_flux model_flux (unc self)).
  { rewrite Hc. field. assumption. }
  rewrite Hnum. field. split; assumption.
Qed.

(** The theorem at [complete_grid] and the model flux [1, 2, 3]. *)
Lemma C10_normalize_model_scale_factor_witness :
  exists scaled ck,
    normalize_model_ck complete_grid [1; 2; 3] = Ok (scaled, ck) /\
    normalize_model complete_grid [1; 2; 3] = Ok scaled /\
    ck == weighted_dot (flux complete_grid) [1; 2; 3] (unc complete_grid)
          / weighted_dot [1; 2; 3] [1; 2; 3] (unc complete_grid) /\
    scaled = map (fun x => x * ck) [1; 2; 3] /\
    (~ weighted_dot scaled scaled (unc complete_grid) == 0 ->
     exists scaled' ck',
       normalize_model_ck complete_grid scaled = Ok (scaled', ck') /\ ck' == 1).
Proof.
  apply (C10_normalize_model_scale_factor complete_grid [1; 2; 3]).
  - reflexivity.
  - reflexivity.
  - repeat constructor; discriminate.
  - discriminate.
Defined.

(** ** Bounds *)

Lemma Qlt_b_true x y : Qlt_b x y = true <-> x < y.
Proof.
  unfold Qlt_b. rewrite negb_true_iff, <- not_true_iff_false, Qle_bool_iff.
  split; [apply Qnot_le_lt | apply Qlt_not_le].
Qed.

Lemma py_get_Some {A} (l : list A) i v : l !! i = Some v -> py_get l i = Ok v.
Proof. unfold py_get. intros ->. reflexivity. Qed.

Lemma py_get_lt {A} (l : list A) i :
  (i < length l)%nat -> exists v, l !! i = Some v /\ py_get l i = Ok v.
Proof.
  intros H. destruct (lookup_lt_is_Some_2 l i H) as [v Hv].
  exists v. split; [assumption | apply py_get_Some; assumption].
Qed.

Lemma dict_get_Some {V} (m : gmap string V) k v :
  m !! k = Some v -> dict_get m k = Ok v.
Proof. unfold dict_get. intros ->. reflexivity. Qed.

Lemma outside_limits_existsb self model_p indices :
  length model_p = ndim self ->
  Forall (fun name => is_Some (plims self !! name)) (params self) ->
  Forall (fun i => (i < ndim self)%nat) indices ->
  outside_limits self model_p indices
  = Ok (existsb (limit_violated self model_p) indices).
Proof.
  intros Hlen Hpl. induction 1 as [|i indices Hi _ IH]; [reflexivity|].
  cbn [outside_limits existsb].
  destruct (py_get_lt model_p i) as (x & Hx & ->); [lia|].
  destruct (py_get_lt (params self) i) as (name & Hname & ->); [exact Hi|].
  rewrite Forall_forall in Hpl.
  destruct (Hpl name) as [pl Hplname].
  { apply list_elem_of_lookup. eauto. }
  cbv [mbind result_bind]. rewrite (dict_get_Some _ _ _ Hplname).
  unfold limit_violated at 1. rewrite Hx, Hname, Hplname.
  destruct (Qlt_b (plim_max pl) x || Qlt_b x (plim_min pl)); [reflexivity|].
  exact IH.
Qed.

Lemma seq_lt n : Forall (fun i => (i < n)%nat) (seq 0 n).
Proof. apply Forall_forall. intros i Hi. apply elem_of_seq in Hi. lia. Qed.

(** The normalization is computed without error when there is one value
    per bin. *)
Lemma calc_normalization_loop_Ok wv bins n_values i normalization :
  (i + length n_values < length bins)%nat ->
  exists r, calc_normalization_loop wv bins n_values i normalization = Ok r.
Proof.
  revert i normalization.
  induction n_values as [|n_i rest IH]; intros i normalization Hlen;
    cbn [calc_normalization_loop]; [eauto|].
  cbn [length] in Hlen.
  destruct (py_get_lt bins i) as (lo & _ & ->); [lia|].
  destruct (py_get_lt bins (S i)) as (hi & _ & ->); [lia|].
  cbv [mbind result_bind]. apply IH. lia.
Qed.

Lemma calc_normalization_Ok self n_values :
  normalization_shape self n_values ->
  exists r, calc_normalization self n_values (wavelength_bins self) = Ok r.
Proof.
  unfold calc_normalization.
  intros [[-> Hone]|[Hne Hlen]].
  - destruct n_values as [|v [|v' rest]]; try discriminate.
    cbn. eauto.
  - destruct (wavelength_bins self) as [|b0 bins]; [cbn in Hlen; lia|].
    cbn [length Nat.eqb].
    destruct (calc_normalization_loop_Ok (wave self) (b0 :: bins) n_values 0
                (np_zeros (length (wave self)))) as [r ->]; [lia|].
    rewrite bind_ret_l.
    destruct (last n_values) as [n_i|] eqn:Hlast.
    2:{ apply last_None in Hlast. contradiction. }
    unfold py_index.
    change (0 <=? 0)%Z with true. change (0 <=? -1)%Z with false. cbv iota.
    change (py_get (b0 :: bins) (Z.to_nat 0)) with (Ok b0).
    rewrite bind_ret_l.
    replace (0 <=? Z.of_nat (length (b0 :: bins)) + -1)%Z with true
      by (symmetry; apply Z.leb_le; cbn [length]; lia).
    destruct (py_get_lt (b0 :: bins)
                (Z.to_nat (Z.of_nat (length (b0 :: bins)) + -1)))
      as (e & _ & ->); [cbn [length]; lia|].
    eauto.
Qed.

(** The evaluation on a vector of the documented shape: the fit
    parameters, the normalization values, then the noise term. *)
Lemma call_unfold falt2 resolution np_interp np_exp np_log np_pi
    self model_p norm_values lns :
  length model_p = ndim self ->
  __call__ falt2 resolution np_interp np_exp np_log np_pi self
           (model_p ++ norm_values ++ [lns])
  = (normalization ← calc_normalization self norm_values (wavelength_bins self);
     if Qlt_b 1 lns then Ok NegInf
     else
       rejected ← outside_limits self model_p (seq 0 (ndim self));
       if (rejected : bool) then Ok NegInf
       else
         mod_flux ← (if snap self
                     then retrieve_model falt2 resolution np_interp self model_p
                     else interp_models falt2 resolution np_interp self model_p);
         if Qlt_b (py_sum mod_flux) 0 then Ok NegInf
         else
           let s := np_exp lns in
           unc_sq ← np_broadcast Qmult
                      (map (fun u => u ^ 2 + s ^ 2) (unc self))
                      (map (fun n => n ^ 2) normalization);
           scaled ← np_broadcast Qmult mod_flux normalization;
           diff ← np_broadcast Qminus (flux self) scaled;
           flux_pts ← np_broadcast Qdiv (map (fun d => d ^ 2) diff) unc_sq;
           let width_term := map (fun v => np_log (2 * np_pi * v)) unc_sq in
           total ← np_broadcast Qplus flux_pts width_term;
           Ok (Finite (- 0.5 * np_sum total))).
Proof.
  intros Hlen. unfold __call__.
  set (p := model_p ++ norm_values ++ [lns]).
  assert (Hp : length p = (ndim self + length norm_values + 1)%nat).
  { unfold p. rewrite !length_app. cbn. lia. }
  assert (Hlast : py_index p (-1) = Ok lns).
  { unfold py_index. cbn [Z.leb Z.compare].
    replace (0 <=? Z.of_nat (length p) + -1)%Z with true
      by (symmetry; apply Z.leb_le; lia).
    apply py_get_Some.
    replace (Z.to_nat (Z.of_nat (length p) + -1))
      with (length (model_p ++ norm_values))
      by (rewrite Hp, length_app; lia).
    unfold p. rewrite app_assoc, lookup_app_r by lia.
    rewrite Nat.sub_diag. reflexivity. }
  rewrite Hlast. cbv [mbind result_bind].
  replace (take (ndim self) p) with model_p
    by (unfold p; rewrite <- Hlen, take_app_length; reflexivity).
  replace (drop (ndim self) (take (length p - 1) p)) with norm_values.
  2:{ unfold p at 2. rewrite app_assoc.
      replace (length p - 1)%nat with (length (model_p ++ norm_values))
        by (rewrite length_app; lia).
      rewrite take_app_length, <- Hlen, drop_app_length. reflexivity. }
  reflexivity.
Qed.

(** C8: on a vector of the documented shape, a fit parameter strictly
    below its minimum or strictly above its maximum makes the evaluation
    return negative infinity; parameters within the closed interval, its
    two ends included, pass the bounds check. *)
Theorem C8_out_of_bounds_rejected falt2 resolution np_interp np_exp np_log
    np_pi self model_p norm_values lns :
  length model_p = ndim self ->
  normalization_shape self norm_values ->
  Forall (fun name => is_Some (plims self !! name)) (params self) ->
  ((exists i x name pl,
       model_p !! i = Some x /\ params self !! i = Some name /\
       plims self !! name = Some pl /\
       (x < plim_min pl \/ plim_max pl < x)) ->
   __call__ falt2 resolution np_interp np_exp np_log np_pi self
            (model_p ++ norm_values ++ [lns]) = Ok NegInf) /\
  ((forall i x name pl,
       model_p !! i = Some x -> params self !! i = Some name ->
       plims self !! name = Some pl ->
       plim_min pl <= x <= plim_max pl) ->
   outside_limits self model_p (seq 0 (ndim self)) = Ok false).
Proof.
  intros Hlen Hshape Hpl.
  pose proof (outside_limits_existsb self model_p (seq 0 (ndim self))
                Hlen Hpl (seq_lt _)) as Hout.
  split.
  - intros (i & x & name & pl & Hx & Hname & Hplname & Hviol).
    rewrite call_unfold by assumption.
    destruct (calc_normalization_Ok self norm_values Hshape) as [r ->].
    rewrite bind_ret_l.
    destruct (Qlt_b 1 lns); [reflexivity|].
    rewrite Hout, bind_ret_l.
    replace (existsb (limit_violated self model_p) (seq 0 (ndim self)))
      with true; [reflexivity|].
    symmetry. apply existsb_exists. exists i. split.
    + apply in_seq. apply lookup_lt_Some in Hname. unfold ndim. lia.
    + unfold limit_violated. rewrite Hx, Hname, Hplname.
      apply orb_true_iff. rewrite !Qlt_b_true. tauto.
  - intros Hin. rewrite Hout. f_equal.
    apply not_true_is_false. intros Hex.
    apply existsb_exists in Hex as (i & _ & Hv).
    unfold limit_violated in Hv.
    destruct (model_p !! i) as [x|] eqn:Hx; [|discriminate].
    destruct (params self !! i) as [name|] eqn:Hname; [|discriminate].
    destruct (plims self !! name) as [pl|] eqn:Hplname; [|discriminate].
    destruct (Hin i x name pl Hx Hname Hplname) as [Hlo Hhi].
    apply orb_true_iff in Hv. rewrite !Qlt_b_true in Hv.
    destruct Hv as [Hv|Hv]; [apply (Qlt_not_le _ _ Hv Hhi)
                            | apply (Qlt_not_le _ _ Hv Hlo)].
Qed.

(** The theorem at [complete_grid]: a temperature of 1300 lies below the
    minimum 1400 and is rejected; (1400, 5.0), on the two limits, passes
    the bounds check. *)
Lemma C8_out_of_bounds_rejected_witness :
  __call__ (fun _ f _ => f) None (fun _ _ f => Ok f) (fun x => x)
           (fun x => x) 3 complete_grid ([1300; 4.5] ++ [1; 1; 1] ++ [0])
    = Ok NegInf /\
  outside_limits complete_grid [1400; 5.0] (seq 0 (ndim complete_grid))
    = Ok false.
Proof.
  assert (Hpl : Forall (fun name => is_Some (plims complete_grid !! name))
                       (params complete_grid)).
  { repeat constructor; eexists; vm_compute; reflexivity. }
  split.
  - apply (C8_out_of_bounds_rejected (fun _ f _ => f) None
             (fun _ _ f => Ok f) (fun x => x) (fun x => x) 3
             complete_grid [1300; 4.5] [1; 1; 1] 0);
      [reflexivity | right; split; [discriminate | reflexivity] | exact Hpl |].
    exists 0%nat, 1300, "teff"%string,
      {| plim_vals := [1400; 1400; 1600; 1600];
         plim_min := 1400; plim_max := 1600 |}.
    repeat split; try reflexivity. left. reflexivity.
  - apply (C8_out_of_bounds_rejected (fun _ f _ => f) None
             (fun _ _ f => Ok f) (fun x => x) (fun x => x) 3
             complete_grid [1400; 5.0] [1; 1; 1] 0);
      [reflexivity | right; split; [discriminate | reflexivity] | exact Hpl |].
    intros [|[|i]] x name pl Hx Hname Hp; cbn in Hx, Hname;
      try discriminate;
      injection Hx as <-; injection Hname as <-;
      vm_compute in Hp; injection Hp as <-;
      split; vm_compute; discriminate.
Defined.

(** ** Retrieval at a grid point *)

Lemma Qeq_bool_same x : Qeq_bool x x = true.
Proof. apply Qeq_bool_iff. reflexivity. Qed.

Lemma tuple_eqb_refl a : tuple_eqb a a = true.
Proof.
  unfold tuple_eqb. rewrite Nat.eqb_refl. cbn [andb].
  induction a as [|x a IH]; [reflexivity|].
  cbn. rewrite Qeq_bool_same. exact IH.
Qed.

Lemma nat_in_seq i a n :
  nat_in i (seq a n) = true <-> (a <= i < a + n)%nat.
Proof.
  unfold nat_in. rewrite existsb_exists. split.
  - intros (j & Hj & Heq). apply Nat.eqb_eq in Heq. subst j.
    apply in_seq in Hj. exact Hj.
  - intros H. exists i. split; [apply in_seq; exact H | apply Nat.eqb_refl].
Qed.

Lemma to_interp_of_all nd : to_interp_of nd (seq 0 nd) = [].
Proof.
  unfold to_interp_of.
  assert (H : forall l, Forall (fun i => nat_in i (seq 0 nd) = true) l ->
              List.filter (fun i => negb (nat_in i (seq 0 nd))) l = []).
  { induction 1 as [|i l Hi _ IH]; [reflexivity|].
    cbn. rewrite Hi. exact IH. }
  apply H. apply Forall_forall. intros i Hi. apply elem_of_seq in Hi.
  apply nat_in_seq. lia.
Qed.

Section AtGridPoint.

Variable self : ModelGrid.
Variable p : list Q.

Hypothesis params_distinct : NoDup (params self).
Hypothesis p_length : length p = ndim self.
Hypothesis on_grid :
  forall i x name, p !! i = Some x -> params self !! i = Some name ->
    exists pl, plims self !! name = Some pl /\ np_in x (plim_vals pl) = true.

Lemma grid_edges_step_pinned E0 s0 a x name :
  p !! a = Some x -> params self !! a = Some name ->
  grid_edges_step self p (E0, s0) a = Ok (<[name := [x]]> E0, s0 ++ [a]).
Proof.
  intros Hx Hname. destruct (on_grid a x name Hx Hname) as (pl & Hpl & Hin).
  unfold grid_edges_step.
  rewrite (py_get_Some _ _ _ Hx), bind_ret_l.
  rewrite (py_get_Some _ _ _ Hname), bind_ret_l.
  rewrite (dict_get_Some _ _ _ Hpl), bind_ret_l, Hin. reflexivity.
Qed.

(** Every dimension is pinned: the edges of each parameter are the
    requested value alone. *)
Lemma edges_all_pinned n : forall a E0 s0,
  (a + n = ndim self)%nat ->
  exists E,
    for_each (grid_edges_step self p) (seq a n) (E0, s0)
      = Ok (E, s0 ++ seq a n) /\
    forall i name, params self !! i = Some name ->
      ((i < a)%nat -> E !! name = E0 !! name) /\
      ((a <= i)%nat -> exists x, p !! i = Some x /\ E !! name = Some [x]).
Proof.
  induction n as [|n IH]; intros a E0 s0 Ha.
  - exists E0. split; [cbn; rewrite app_nil_r; reflexivity|].
    intros i name Hname. split; [reflexivity|].
    intros Hi. apply lookup_lt_Some in Hname. unfold ndim in Ha. lia.
  - destruct (lookup_lt_is_Some_2 p a) as [x Hx]; [lia|].
    destruct (lookup_lt_is_Some_2 (params self) a) as [name_a Hname_a];
      [unfold ndim in Ha; lia|].
    cbn [seq]. rewrite for_each_cons.
    rewrite (grid_edges_step_pinned E0 s0 a x name_a Hx Hname_a), bind_ret_l.
    destruct (IH (S a) (<[name_a := [x]]> E0) (s0 ++ [a])) as (E & HE & Hinv);
      [lia|].
    exists E. split; [rewrite HE, <- app_assoc; reflexivity|].
    intros i name Hname. destruct (Hinv i name Hname) as [Hlt Hge]. split.
    + intros Hi. rewrite Hlt by lia. apply lookup_insert_ne.
      intros ->. pose proof (NoDup_lookup _ _ _ _ params_distinct Hname_a Hname).
      lia.
    + intros Hi. destruct (decide (i = a)) as [->|Hne].
      * exists x. split; [exact Hx|]. rewrite Hlt by lia.
        replace name with name_a by congruence. apply lookup_insert_eq.
      * apply Hge. lia.
Qed.

(** The single corner gathered is the requested vector itself. *)
Lemma corners_single_step_pinned (E : gmap string (list Q)) row a x name :
  params self !! a = Some name -> E !! name = Some [x] ->
  corners_single_step self E 1 [row] a = Ok [<[a := x]> row].
Proof.
  intros Hname HE. unfold corners_single_step.
  rewrite (py_get_Some _ _ _ Hname), bind_ret_l.
  rewrite (dict_get_Some _ _ _ HE), bind_ret_l. reflexivity.
Qed.

Lemma corners_all_pinned (E : gmap string (list Q)) :
  (forall i name, params self !! i = Some name ->
     exists x, p !! i = Some x /\ E !! name = Some [x]) ->
  forall n a, (a + n = ndim self)%nat ->
    for_each (corners_single_step self E 1) (seq a n)
             [take a p ++ replicate n 0] = Ok [p].
Proof.
  intros HE. induction n as [|n IH]; intros a Ha.
  - cbn. rewrite app_nil_r, take_ge by lia. reflexivity.
  - destruct (lookup_lt_is_Some_2 (params self) a) as [name Hname];
      [unfold ndim in Ha; lia|].
    destruct (HE a name Hname) as (x & Hx & HEx).
    cbn [seq]. rewrite for_each_cons.
    rewrite (corners_single_step_pinned E _ a x name Hname HEx), bind_ret_l.
    rewrite insert_app_r_alt by (rewrite length_take; lia).
    replace (a - length (take a p))%nat with 0%nat
      by (rewrite length_take; lia).
    cbn [replicate insert list_insert].
    replace (take a p ++ x :: replicate n 0)
      with (take (S a) p ++ replicate n 0)
      by (rewrite (take_S_r p a x Hx), <- app_assoc; reflexivity).
    apply IH. lia.
Qed.

Lemma grid_corners_of_pinned (E : gmap string (list Q)) :
  (forall i name, params self !! i = Some name ->
     exists x, p !! i = Some x /\ E !! name = Some [x]) ->
  grid_corners_of self E (seq 0 (ndim self)) = Ok [p].
Proof.
  intros HE. unfold grid_corners_of.
  rewrite length_seq, Nat.sub_diag, to_interp_of_all.
  change (2 ^ 0)%nat with 1%nat.
  change (np_zeros2 1 (ndim self))
    with [take 0 p ++ replicate (ndim self) 0].
  rewrite (corners_all_pinned E HE (ndim self) 0) by reflexivity.
  reflexivity.
Qed.

(** The reduction copies the spectrum of the single corner through every
    dimension. *)
Lemma reduce_step_pinned row a x :
  p !! a = Some x ->
  reduce_step self p (seq 0 (ndim self)) []
              ([drop a p], [(drop a p, row)]) a
  = Ok ([drop (S a) p], [(drop (S a) p, row)]).
Proof.
  intros Hx. unfold reduce_step.
  assert (Hin : nat_in a (seq 0 (ndim self)) = true).
  { apply nat_in_seq. apply lookup_lt_Some in Hx. lia. }
  rewrite Hin. cbn [nat_in existsb].
  rewrite (drop_S p x a Hx).
  change (py_get [x :: drop (S a) p] 0) with (Ok (A:=list Q) (x :: drop (S a) p)).
  rewrite bind_ret_l.
  change (py_get (x :: drop (S a) p) 0) with (Ok x).
  rewrite bind_ret_l.
  change (map (drop 1) [x :: drop (S a) p]) with [drop (S a) p].
  rewrite for_each_cons.
  cbn [tuple_get]. rewrite tuple_eqb_refl, !bind_ret_l. reflexivity.
Qed.

Lemma reduce_all_pinned row : forall n a,
  (a + n = ndim self)%nat ->
  for_each (reduce_step self p (seq 0 (ndim self)) []) (seq a n)
           ([drop a p], [(drop a p, row)])
  = Ok ([[]], [([], row)]).
Proof.
  induction n as [|n IH]; intros a Ha.
  - cbn. rewrite drop_ge by lia. reflexivity.
  - destruct (lookup_lt_is_Some_2 p a) as [x Hx]; [lia|].
    cbn [seq]. rewrite for_each_cons.
    rewrite (reduce_step_pinned row a x Hx), bind_ret_l.
    apply IH. lia.
Qed.

(** When the lookup of the vector finds the single model [k], the
    stored flux of that model goes to [normalize_model] with no
    blending. *)
Lemma interp_models_at_grid_point falt2 resolution np_interp k table row :
  smooth self = false ->
  interp self = false ->
  find_i_of self p = Ok [k] ->
  model_flux (model self) = Some table ->
  table !! k = Some row ->
  interp_models falt2 resolution np_interp self p = normalize_model self row.
Proof.
  intros Hsmooth Hinterp Hfind Htable Hrow.
  destruct (edges_all_pinned (ndim self) 0 ∅ []) as (E & HE & Hinv);
    [reflexivity|].
  assert (HE' : forall i name, params self !! i = Some name ->
                  exists x, p !! i = Some x /\ E !! name = Some [x]).
  { intros i name Hname. apply (Hinv i name Hname). lia. }
  unfold interp_models, grid_edges_of.
  rewrite HE, bind_ret_l. cbn [app].
  rewrite to_interp_of_all, (grid_corners_of_pinned E HE'), bind_ret_l.
  cbn [gather_corner_spectra]. rewrite Hfind, bind_ret_l.
  change (negb (length [k] =? 1)%nat) with false. cbv iota.
  rewrite Htable. cbn [key_get]. rewrite bind_ret_l.
  change (py_get [k] 0) with (Ok k). rewrite bind_ret_l.
  rewrite (py_get_Some _ _ _ Hrow), bind_ret_l.
  pose proof (reduce_all_pinned row (ndim self) 0 eq_refl) as Hred.
  change (drop 0 p) with p in Hred.
  unfold tuple_set. rewrite bind_ret_l. cbv iota. rewrite Hred, bind_ret_l.
  change (tuple_get ([[]], [([], row)]).2 []) with (Ok row).
  rewrite bind_ret_l.
  unfold smooth_resample_normalize. rewrite Hsmooth, Hinterp.
  reflexivity.
Qed.

End AtGridPoint.

(** ** A corner without a single model *)

Lemma for_each_invariant {A S} (P : S -> Prop) (body : S -> A -> result S) xs :
  (forall s x s', x ∈ xs -> body s x = Ok s' -> P s -> P s') ->
  forall s s', for_each body xs s = Ok s' -> P s -> P s'.
Proof.
  induction xs as [|x xs IH]; intros Hbody s s' Hrun Hs.
  - injection Hrun as <-. exact Hs.
  - rewrite for_each_cons in Hrun.
    apply bind_Ok in Hrun as (s1 & Hstep & Hrun).
    apply (IH (fun s x s' Hx => Hbody s x s' (list_elem_of_further _ _ _ Hx))
              s1 s' Hrun).
    apply (Hbody s x s1); [apply list_elem_of_here | exact Hstep | exact Hs].
Qed.

Lemma np_put_col_shape n locs i v m :
  Forall (fun r => length r = n) m ->
  Forall (fun r => length r = n) (np_put_col locs i v m).
Proof.
  unfold np_put_col. revert m.
  induction locs as [|r locs IH]; intros m Hm; [exact Hm|].
  cbn [fold_left]. apply IH. apply Forall_alter; [exact Hm|].
  intros row _ Hrow. rewrite length_insert. exact Hrow.
Qed.

(** Every corner has one coordinate per fit parameter. *)
Lemma grid_corners_of_shape self E single_flags corners :
  grid_corners_of self E single_flags = Ok corners ->
  Forall (fun r => length r = ndim self) corners.
Proof.
  unfold grid_corners_of. intros H.
  apply bind_Ok in H as (gc & Hsingle & Hinterp).
  eapply (for_each_invariant _ _ _ _ _ _ Hinterp).
  eapply (for_each_invariant _ _ _ _ _ _ Hsingle).
  unfold np_zeros2, np_zeros. apply Forall_replicate, length_replicate.
  Unshelve.
  - intros s i s' _ Hstep Hs. unfold corners_interp_step in Hstep.
    repeat (apply bind_Ok in Hstep as (? & _ & Hstep)).
    injection Hstep as <-. do 2 apply np_put_col_shape. exact Hs.
  - intros s i s' _ Hstep Hs. unfold corners_single_step in Hstep.
    repeat (apply bind_Ok in Hstep as (? & _ & Hstep)).
    injection Hstep as <-. apply np_put_col_shape. exact Hs.
Qed.

Lemma np_where_from_bound mask : forall k,
  Forall (fun j => (k <= j < k + length mask)%nat) (np_where_from k mask).
Proof.
  induction mask as [|b mask IH]; intros k; [constructor|].
  cbn [np_where_from length].
  assert (Htail : Forall (fun j => (k <= j < k + S (length mask))%nat)
                         (np_where_from (S k) mask)).
  { eapply Forall_impl; [apply IH|]. cbn. intros j Hj. lia. }
  destruct b; [constructor; [lia | exact Htail] | exact Htail].
Qed.

Lemma py_sum_replicate n x :
  py_sum (replicate n x) == inject_Z (Z.of_nat n) * x.
Proof.
  induction n as [|n IH].
  - cbn. unfold py_sum. cbn. ring.
  - cbn [replicate]. rewrite py_sum_cons, IH, Nat2Z.inj_succ.
    unfold Z.succ. rewrite inject_Z_plus. ring.
Qed.

Lemma sentinel_sum_negative self : wave self <> [] -> py_sum (sentinel self) < 0.
Proof.
  intros Hw. unfold sentinel. rewrite py_sum_replicate.
  destruct (wave self) as [|w ws]; [contradiction|].
  set (n := length (w :: ws)).
  assert (Hn : 0 < inject_Z (Z.of_nat n)).
  { change 0 with (inject_Z 0). rewrite <- Zlt_Qlt. unfold n. cbn [length]. lia. }
  lra.
Qed.

Section MissingCorner.

Variable self : ModelGrid.
Variable table : list (list Q).
Hypothesis indexed : grid_indexed self table.

Lemma indexed_lookup i name :
  params self !! i = Some name ->
  exists pl, plims self !! name = Some pl /\
             length (plim_vals pl) = length table /\
             py_min (plim_vals pl) = Ok (plim_min pl) /\
             py_max (plim_vals pl) = Ok (plim_max pl).
Proof.
  intros Hname. destruct indexed as [_ Hall].
  rewrite Forall_forall in Hall. apply Hall.
  apply list_elem_of_lookup. eauto.
Qed.

(** The lookup of a corner never fails on an indexed grid, and finds
    positions of the flux table. *)
Lemma find_i_steps c indices : forall find_i,
  (ndim self <= length c)%nat ->
  length find_i = length table ->
  Forall (fun i => (i < ndim self)%nat) indices ->
  exists r, for_each (find_i_step self c) indices find_i = Ok r /\
            length r = length table.
Proof.
  induction indices as [|i indices IH]; intros find_i Hc Hlen Hind.
  - exists find_i. split; [reflexivity | exact Hlen].
  - apply Forall_cons in Hind as [Hi Hind].
    destruct (lookup_lt_is_Some_2 c i) as [c_i Hci]; [lia|].
    destruct (lookup_lt_is_Some_2 (params self) i) as [name Hname];
      [exact Hi|].
    destruct (indexed_lookup i name Hname) as (pl & Hpl & Hvals & _).
    rewrite for_each_cons.
    set (continue := for_each (find_i_step self c) indices).
    unfold find_i_step.
    rewrite (py_get_Some _ _ _ Hci), bind_ret_l.
    rewrite (py_get_Some _ _ _ Hname), bind_ret_l.
    rewrite (dict_get_Some _ _ _ Hpl), bind_ret_l.
    rewrite np_broadcast_same_length by (rewrite length_map; congruence).
    rewrite bind_ret_l. apply IH; [exact Hc | | exact Hind].
    rewrite length_zip_with, length_map. lia.
Qed.

Lemma find_i_of_total c :
  (1 <= ndim self)%nat -> (ndim self <= length c)%nat ->
  exists l, find_i_of self c = Ok l /\
            Forall (fun k => (k < length table)%nat) l.
Proof.
  intros Hnd Hc. unfold find_i_of.
  destruct (lookup_lt_is_Some_2 (params self) 0) as [name0 Hname0];
    [exact Hnd|].
  destruct (indexed_lookup 0 name0 Hname0) as (pl0 & Hpl0 & Hvals0 & _).
  rewrite (py_get_Some _ _ _ Hname0), bind_ret_l.
  rewrite (dict_get_Some _ _ _ Hpl0), bind_ret_l.
  destruct (find_i_steps c (seq 0 (ndim self))
              (replicate (length (plim_vals pl0)) true))
    as (r & -> & Hr); [exact Hc | rewrite length_replicate; exact Hvals0
                       | apply seq_lt |].
  rewrite bind_ret_l. eexists. split; [reflexivity|].
  unfold np_where. eapply Forall_impl; [apply np_where_from_bound|].
  cbn. intros k Hk. lia.
Qed.

Lemma find_i_of_Ok_ndim c l : find_i_of self c = Ok l -> (1 <= ndim self)%nat.
Proof.
  unfold find_i_of, ndim. destruct (params self) as [|name names];
    [discriminate | cbn; lia].
Qed.

(** The loop over the corners stops with the sentinel at the first
    corner for which the lookup does not find exactly one model. *)
Lemma gather_corner_spectra_None rows :
  Forall (fun r => length r = ndim self) rows ->
  Exists (fun c => exists l, find_i_of self c = Ok l /\ length l <> 1%nat)
         rows ->
  forall d, gather_corner_spectra self rows d = Ok None.
Proof.
  induction rows as [|c rows IH]; intros Hshape Hbad d.
  - inversion Hbad.
  - apply Forall_cons in Hshape as [Hc Hshape].
    assert (Hnd : (1 <= ndim self)%nat).
    { apply Exists_exists in Hbad as (c' & _ & l' & Hl' & _).
      exact (find_i_of_Ok_ndim c' l' Hl'). }
    destruct (find_i_of_total c Hnd) as (l & Hl & Hbound); [lia|].
    cbn [gather_corner_spectra]. rewrite Hl, bind_ret_l.
    destruct l as [|k [|k' l]].
    + reflexivity.
    + change (negb (length [k] =? 1)%nat) with false. cbv iota.
      destruct indexed as [-> _]. cbn [key_get]. rewrite bind_ret_l.
      change (py_get [k] 0) with (Ok k). rewrite bind_ret_l.
      apply Forall_cons in Hbound as [Hk _].
      destruct (py_get_lt table k Hk) as (row & _ & ->). rewrite bind_ret_l.
      apply IH; [exact Hshape|].
      apply Exists_cons in Hbad as [(l' & Hl' & Hlen)|Hbad]; [|exact Hbad].
      rewrite Hl in Hl'. injection Hl' as <-. contradiction.
    + reflexivity.
Qed.

(** *** The corners of an in-bounds vector are always computed *)

Lemma py_min_elem vals m : py_min vals = Ok m -> m ∈ vals.
Proof.
  destruct vals as [|x t]; [discriminate|]. cbn. intros [= <-].
  revert x. induction t as [|y t IH]; intros x; cbn; [apply list_elem_of_here|].
  destruct (Qle_bool x y).
  - specialize (IH x). apply elem_of_cons in IH as [->|IH];
      [apply list_elem_of_here | do 2 apply list_elem_of_further; exact IH].
  - apply list_elem_of_further, IH.
Qed.

Lemma py_max_elem vals m : py_max vals = Ok m -> m ∈ vals.
Proof.
  destruct vals as [|x t]; [discriminate|]. cbn. intros [= <-].
  revert x. induction t as [|y t IH]; intros x; cbn; [apply list_elem_of_here|].
  destruct (Qle_bool y x).
  - specialize (IH x). apply elem_of_cons in IH as [->|IH];
      [apply list_elem_of_here | do 2 apply list_elem_of_further; exact IH].
  - apply list_elem_of_further, IH.
Qed.

Lemma py_max_nonempty l v : v ∈ l -> exists m, py_max l = Ok m.
Proof. destruct l; [intros H; inversion H | cbn; eauto]. Qed.

Lemma py_min_nonempty l v : v ∈ l -> exists m, py_min l = Ok m.
Proof. destruct l; [intros H; inversion H | cbn; eauto]. Qed.

Lemma np_in_false_neq x vals v :
  np_in x vals = false -> v ∈ vals -> ~ x == v.
Proof.
  intros Hin Hv Heq. apply not_true_iff_false in Hin. apply Hin.
  apply existsb_exists. exists v. split; [apply list_elem_of_In; exact Hv|].
  apply Qeq_bool_iff. exact Heq.
Qed.

Lemma edge_below pl x :
  py_min (plim_vals pl) = Ok (plim_min pl) ->
  plim_min pl <= x -> np_in x (plim_vals pl) = false ->
  exists dn, py_max (List.filter (fun v => Qlt_b v x) (plim_vals pl)) = Ok dn.
Proof.
  intros Hmin Hle Hin. apply py_min_elem in Hmin.
  apply (py_max_nonempty _ (plim_min pl)).
  apply list_elem_of_In, filter_In. split; [apply list_elem_of_In; exact Hmin|].
  apply Qlt_b_true. apply Qle_lt_or_eq in Hle as [Hlt|Heq]; [exact Hlt|].
  exfalso. apply (np_in_false_neq _ _ _ Hin Hmin). symmetry. exact Heq.
Qed.

Lemma edge_above pl x :
  py_max (plim_vals pl) = Ok (plim_max pl) ->
  x <= plim_max pl -> np_in x (plim_vals pl) = false ->
  exists up, py_min (List.filter (fun v => Qlt_b x v) (plim_vals pl)) = Ok up.
Proof.
  intros Hmax Hle Hin. apply py_max_elem in Hmax.
  apply (py_min_nonempty _ (plim_max pl)).
  apply list_elem_of_In, filter_In. split; [apply list_elem_of_In; exact Hmax|].
  apply Qlt_b_true. apply Qle_lt_or_eq in Hle as [Hlt|Heq]; [exact Hlt|].
  exfalso. apply (np_in_false_neq _ _ _ Hin Hmax). exact Heq.
Qed.

Lemma for_each_total {A S} (body : S -> A -> result S) xs :
  (forall s x, x ∈ xs -> exists s', body s x = Ok s') ->
  forall s, exists s', for_each body xs s = Ok s'.
Proof.
  induction xs as [|x xs IH]; intros Hbody s; [eexists; reflexivity|].
  destruct (Hbody s x) as [s1 Hs1]; [apply list_elem_of_here|].
  rewrite for_each_cons, Hs1, bind_ret_l. apply IH.
  intros s2 y Hy. apply Hbody, list_elem_of_further, Hy.
Qed.

Lemma nat_in_app i l1 l2 : nat_in i (l1 ++ l2) = nat_in i l1 || nat_in i l2.
Proof. apply existsb_app. Qed.

Lemma nat_in_true i l : nat_in i l = true <-> i ∈ l.
Proof.
  unfold nat_in. rewrite existsb_exists, list_elem_of_In. split.
  - intros (j & Hj & Heq). apply Nat.eqb_eq in Heq. subst j. exact Hj.
  - intros H. exists i. split; [exact H | apply Nat.eqb_refl].
Qed.

Lemma nat_in_below i l :
  Forall (fun j => (j < i)%nat) l -> nat_in i l = false.
Proof.
  intros Hl. apply not_true_iff_false. intros Hin. apply nat_in_true in Hin.
  rewrite Forall_forall in Hl. specialize (Hl i Hin). lia.
Qed.

Variable model_p : list Q.
Hypothesis params_distinct : NoDup (params self).
Hypothesis model_p_length : length model_p = ndim self.
Hypothesis in_bounds : within_limits self model_p.

(** After the loop over the dimensions, a pinned parameter has one edge
    and any other parameter has two. *)
Lemma grid_edges_loop_total n : forall a (E0 : gmap string (list Q)) s0,
  (a + n = ndim self)%nat ->
  Forall (fun j => (j < a)%nat) s0 ->
  (forall i name, (i < a)%nat -> params self !! i = Some name ->
     (nat_in i s0 = true -> exists x, E0 !! name = Some [x]) /\
     (nat_in i s0 = false -> exists dn up, E0 !! name = Some [dn; up])) ->
  exists (E : gmap string (list Q)) s,
    for_each (grid_edges_step self model_p) (seq a n) (E0, s0) = Ok (E, s) /\
    Forall (fun j => (j < ndim self)%nat) s /\
    forall i name, params self !! i = Some name ->
      (nat_in i s = true -> exists x, E !! name = Some [x]) /\
      (nat_in i s = false -> exists dn up, E !! name = Some [dn; up]).
Proof.
  induction n as [|n IH]; intros a E0 s0 Ha Hs0 Hinv.
  - exists E0, s0. split; [reflexivity|]. split.
    + eapply Forall_impl; [exact Hs0|]. cbn. intros j Hj. lia.
    + intros i name Hname. apply Hinv; [|exact Hname].
      apply lookup_lt_Some in Hname. unfold ndim in Ha. lia.
  - destruct (lookup_lt_is_Some_2 model_p a) as [x Hx]; [lia|].
    destruct (lookup_lt_is_Some_2 (params self) a) as [name_a Hname_a];
      [unfold ndim in Ha; lia|].
    destruct (indexed_lookup a name_a Hname_a)
      as (pl & Hpl & _ & Hmin & Hmax).
    destruct (in_bounds a x name_a pl Hx Hname_a Hpl) as [Hlo Hhi].
    assert (Hother : forall i name (v : list Q),
              (i < a)%nat -> params self !! i = Some name ->
              <[name_a := v]> E0 !! name = E0 !! name).
    { intros i name v Hi Hname. apply lookup_insert_ne. intros ->.
      pose proof (NoDup_lookup _ _ _ _ params_distinct Hname_a Hname). lia. }
    cbn [seq]. rewrite for_each_cons.
    set (continue := for_each (grid_edges_step self model_p) (seq (S a) n)).
    unfold grid_edges_step.
    rewrite (py_get_Some _ _ _ Hx), bind_ret_l.
    rewrite (py_get_Some _ _ _ Hname_a), bind_ret_l.
    rewrite (dict_get_Some _ _ _ Hpl), bind_ret_l.
    destruct (np_in x (plim_vals pl)) eqn:Hin.
    + rewrite bind_ret_l. apply IH; [lia | |].
      * apply Forall_app. split.
        -- eapply Forall_impl; [exact Hs0|]. cbn. intros j Hj. lia.
        -- repeat constructor.
      * intros i name Hi Hname. rewrite nat_in_app.
        destruct (decide (i = a)) as [->|Hne].
        -- replace name with name_a by congruence.
           rewrite lookup_insert_eq. cbn. rewrite Nat.eqb_refl, orb_true_r.
           split; [eauto | discriminate].
        -- rewrite (Hother i name) by (assumption || lia).
           replace (nat_in i [a]) with false
             by (cbn; symmetry; rewrite orb_false_r; apply Nat.eqb_neq; lia).
           rewrite orb_false_r. apply Hinv; [lia | exact Hname].
    + destruct (edge_below pl x Hmin Hlo Hin) as [dn ->].
      destruct (edge_above pl x Hmax Hhi Hin) as [up ->].
      rewrite !bind_ret_l. apply IH; [lia | |].
      * eapply Forall_impl; [exact Hs0|]. cbn. intros j Hj. lia.
      * intros i name Hi Hname.
        destruct (decide (i = a)) as [->|Hne].
        -- replace name with name_a by congruence.
           rewrite lookup_insert_eq, (nat_in_below a s0 Hs0).
           split; [discriminate | eauto].
        -- rewrite (Hother i name) by (assumption || lia).
           apply Hinv; [lia | exact Hname].
Qed.

Lemma grid_corners_of_total (E : gmap string (list Q)) s :
  Forall (fun j => (j < ndim self)%nat) s ->
  (forall i name, params self !! i = Some name ->
     (nat_in i s = true -> exists x, E !! name = Some [x]) /\
     (nat_in i s = false -> exists dn up, E !! name = Some [dn; up])) ->
  exists corners, grid_corners_of self E s = Ok corners.
Proof.
  intros Hs Hinv. unfold grid_corners_of.
  edestruct (for_each_total
               (corners_single_step self E (2 ^ (ndim self - length s))) s)
    as [gc ->].
  { intros gc i Hi. rewrite Forall_forall in Hs.
    destruct (lookup_lt_is_Some_2 (params self) i) as [name Hname];
      [apply Hs, Hi|].
    destruct (Hinv i name Hname) as [Hpin _].
    destruct Hpin as [x HE]; [apply nat_in_true, Hi|].
    unfold corners_single_step.
    rewrite (py_get_Some _ _ _ Hname), bind_ret_l.
    rewrite (dict_get_Some _ _ _ HE), bind_ret_l.
    eexists. reflexivity. }
  rewrite bind_ret_l. apply for_each_total.
  intros gc' i Hi. unfold to_interp_of in Hi.
  apply list_elem_of_In, filter_In in Hi as [Hi Hout].
  apply in_seq in Hi. apply negb_true_iff in Hout.
  destruct (lookup_lt_is_Some_2 (params self) i) as [name Hname];
    [unfold ndim in Hi; lia|].
  destruct (Hinv i name Hname) as [_ Hint].
  destruct (Hint Hout) as (dn & up & HE).
  unfold corners_interp_step.
  rewrite (py_get_Some _ _ _ Hname), bind_ret_l.
  rewrite (dict_get_Some _ _ _ HE), bind_ret_l.
  change (py_get [dn; up] 0) with (Ok dn). rewrite !bind_ret_l.
  rewrite (dict_get_Some _ _ _ HE), bind_ret_l.
  change (py_get [dn; up] 1) with (Ok up). rewrite bind_ret_l.
  eexists. reflexivity.
Qed.

Lemma grid_corners_total :
  exists corners, grid_corners self model_p = Ok corners.
Proof.
  destruct (grid_edges_loop_total (ndim self) 0 ∅ [])
    as (E & s & HE & Hs & Hinv); [reflexivity | constructor | intros; lia |].
  unfold grid_corners, grid_edges_of. rewrite HE, bind_ret_l.
  apply grid_corners_of_total; assumption.
Qed.

(** For an in-bounds vector on an indexed grid the corners are computed,
    and when the lookup of one of the corners gathered finds no model or
    more than one, [interp_models] returns the array of -99, whose sum is
    negative, and the evaluation returns negative infinity. *)
Lemma gathered_corner_without_single_model falt2 resolution np_interp
    np_exp np_log np_pi norm_values lns :
  snap self = false ->
  wave self <> [] ->
  normalization_shape self norm_values ->
  exists corners,
    grid_corners self model_p = Ok corners /\
    ((exists c l, c ∈ corners /\ find_i_of self c = Ok l /\
                  length l <> 1%nat) ->
     interp_models falt2 resolution np_interp self model_p
       = Ok (sentinel self) /\
     py_sum (sentinel self) < 0 /\
     __call__ falt2 resolution np_interp np_exp np_log np_pi self
              (model_p ++ norm_values ++ [lns]) = Ok NegInf).
Proof.
  intros Hsnap Hwave Hshape.
  destruct grid_corners_total as [corners Hcorners].
  exists corners. split; [exact Hcorners|].
  intros (c & l & Hc & Hl & Hlen).
  assert (Hinterp : interp_models falt2 resolution np_interp self model_p
                    = Ok (sentinel self)).
  { unfold grid_corners in Hcorners.
    apply bind_Ok in Hcorners as ([E s] & Hst & Hgc). cbn [fst snd] in Hgc.
    unfold interp_models. rewrite Hst, bind_ret_l. cbv iota beta.
    rewrite Hgc, bind_ret_l.
    rewrite gather_corner_spectra_None; [reflexivity | |].
    - apply (grid_corners_of_shape _ _ _ _ Hgc).
    - apply Exists_exists. exists c. split; [exact Hc | eauto]. }
  split; [exact Hinterp|].
  split; [apply sentinel_sum_negative; exact Hwave|].
  rewrite call_unfold by exact model_p_length.
  destruct (calc_normalization_Ok self norm_values Hshape) as [r ->].
  rewrite bind_ret_l. destruct (Qlt_b 1 lns); [reflexivity|].
  rewrite outside_limits_existsb; [|exact model_p_length| |apply seq_lt].
  2:{ destruct indexed as [_ Hall]. eapply Forall_impl; [exact Hall|].
      cbn. intros name (pl & Hpl & _). eauto. }
  rewrite bind_ret_l.
  destruct (existsb _ _); [reflexivity|].
  rewrite Hsnap, Hinterp, bind_ret_l.
  replace (Qlt_b (py_sum (sentinel self)) 0) with true; [reflexivity|].
  symmetry. apply Qlt_b_true, sentinel_sum_negative, Hwave.
Qed.

End MissingCorner.

(** * Further properties of the class *)

(** ** The noise term *)

(** On a vector of the documented shape whose last component, the log of
    the noise scale, exceeds 1, the evaluation returns negative infinity
    before any limit or model is looked at. *)
Theorem noise_term_above_one_rejected falt2 resolution np_interp np_exp
    np_log np_pi self model_p norm_values lns :
  length model_p = ndim self ->
  normalization_shape self norm_values ->
  1 < lns ->
  __call__ falt2 resolution np_interp np_exp np_log np_pi self
           (model_p ++ norm_values ++ [lns]) = Ok NegInf.
Proof.
  intros Hlen Hshape Hlns. rewrite call_unfold by exact Hlen.
  destruct (calc_normalization_Ok self norm_values Hshape) as [r ->].
  rewrite bind_ret_l.
  replace (Qlt_b 1 lns) with true by (symmetry; apply Qlt_b_true; exact Hlns).
  reflexivity.
Qed.

(** The theorem at a vector outside every limit of [complete_grid]: the
    noise term 2 alone decides. *)
Lemma noise_term_above_one_rejected_witness :
  1 < 2 /\
  __call__ (fun _ f _ => f) None (fun _ _ f => Ok f) (fun x => x)
           (fun x => x) 3 complete_grid ([0; 0] ++ [1; 1; 1] ++ [2])
    = Ok NegInf.
Proof.
  split; [reflexivity|].
  apply (noise_term_above_one_rejected (fun _ f _ => f) None
           (fun _ _ f => Ok f) (fun x => x) (fun x => x) 3
           complete_grid [0; 0] [1; 1; 1] 2).
  - reflexivity.
  - right. split; [discriminate | reflexivity].
  - reflexivity.
Defined.

(** ** The normalization array *)

Lemma np_put_length locs v a : length (np_put locs v a) = length a.
Proof.
  unfold np_put. revert a. induction locs as [|k locs IH]; intros a;
    [reflexivity|].
  cbn [fold_left]. rewrite IH. apply length_insert.
Qed.

Lemma calc_normalization_loop_length wv bins n_values : forall i a r,
  calc_normalization_loop wv bins n_values i a = Ok r ->
  length r = length a.
Proof.
  induction n_values as [|n_i rest IH]; intros i a r H.
  - injection H as <-. reflexivity.
  - cbn [calc_normalization_loop] in H.
    apply bind_Ok in H as (lo & _ & H). apply bind_Ok in H as (hi & _ & H).
    apply IH in H. rewrite H. apply np_put_length.
Qed.

(** A successful call returns one normalization value per sample of the
    spectrum; it succeeds on every sub-vector of the documented shape. *)
Theorem calc_normalization_one_value_per_sample self n_values :
  normalization_shape self n_values ->
  exists r,
    calc_normalization self n_values (wavelength_bins self) = Ok r /\
    length r = length (wave self).
Proof.
  intros Hshape.
  destruct (calc_normalization_Ok self n_values Hshape) as [r Hr].
  exists r. split; [exact Hr|].
  unfold calc_normalization in Hr.
  destruct (length (wavelength_bins self) =? 0)%nat eqn:Hbins.
  - unfold np_fill in Hr.
    destruct n_values as [|v [|v' rest]].
    + destruct (length [] =? length (wave self))%nat eqn:E; [|discriminate].
      injection Hr as <-. apply Nat.eqb_eq in E. exact E.
    + injection Hr as <-. apply length_replicate.
    + destruct (length (v :: v' :: rest) =? length (wave self))%nat eqn:E;
        [|discriminate].
      injection Hr as <-. apply Nat.eqb_eq in E. exact E.
  - apply bind_Ok in Hr as (r0 & Hloop & Hr).
    apply calc_normalization_loop_length in Hloop.
    destruct (last n_values); [|discriminate].
    apply bind_Ok in Hr as (e0 & _ & Hr). apply bind_Ok in Hr as (e1 & _ & Hr).
    injection Hr as <-. rewrite !np_put_length, Hloop.
    unfold np_zeros. apply length_replicate.
Qed.

Lemma calc_normalization_one_value_per_sample_witness :
  exists r,
    calc_normalization complete_grid [1; 2; 3] (wavelength_bins complete_grid)
      = Ok r /\
    length r = length (wave complete_grid).
Proof.
  apply (calc_normalization_one_value_per_sample complete_grid [1; 2; 3]).
  right. split; [discriminate | reflexivity].
Defined.

Lemma py_get_None {A} (l : list A) i :
  l !! i = None -> py_get l i = Raise IndexError.
Proof. unfold py_get. intros ->. reflexivity. Qed.

Lemma calc_normalization_loop_IndexError wv bins n_values : forall i a,
  n_values <> [] ->
  (length bins <= i + length n_values)%nat ->
  calc_normalization_loop wv bins n_values i a = Raise IndexError.
Proof.
  induction n_values as [|n_i rest IH]; intros i a Hne Hlen; [contradiction|].
  cbn [calc_normalization_loop]. cbn [length] in Hlen.
  destruct (bins !! i) as [lo|] eqn:Hlo;
    [rewrite (py_get_Some _ _ _ Hlo), bind_ret_l
    |rewrite (py_get_None _ _ Hlo); reflexivity].
  destruct (bins !! S i) as [hi|] eqn:Hhi;
    [rewrite (py_get_Some _ _ _ Hhi), bind_ret_l
    |rewrite (py_get_None _ _ Hhi); reflexivity].
  destruct rest as [|n' rest'].
  - apply lookup_lt_Some in Hhi. cbn [length] in Hlen. lia.
  - apply IH; [discriminate | cbn [length] in *; lia].
Qed.

(** With bin edges configured, an empty vector of normalization values
    raises [UnboundLocalError] (the loop variable read after the loop was
    never bound), and as many values as edges or more raise
    [IndexError]. *)
Theorem calc_normalization_wrong_count_raises self n_values bins :
  bins <> [] ->
  (n_values = [] ->
   calc_normalization self n_values bins = Raise UnboundLocalError) /\
  (n_values <> [] -> (length bins <= length n_values)%nat ->
   calc_normalization self n_values bins = Raise IndexError).
Proof.
  intros Hbins. unfold calc_normalization.
  destruct bins as [|b0 bins]; [contradiction|]. cbn [length Nat.eqb].
  split.
  - intros ->. reflexivity.
  - intros Hne Hlen.
    rewrite calc_normalization_loop_IndexError; [reflexivity | exact Hne |].
    cbn [length] in *. lia.
Qed.

Lemma calc_normalization_wrong_count_raises_witness :
  calc_normalization complete_grid [] default_bins = Raise UnboundLocalError /\
  calc_normalization complete_grid [1; 2; 3; 4] default_bins = Raise IndexError.
Proof.
  destruct (calc_normalization_wrong_count_raises complete_grid [] default_bins)
    as [Hempty _]; [discriminate|].
  destruct (calc_normalization_wrong_count_raises complete_grid [1; 2; 3; 4]
              default_bins) as [_ Hmany]; [discriminate|].
  split; [apply Hempty; reflexivity | apply Hmany; [discriminate | cbn; lia]].
Defined.

Lemma np_where_from_elem mask : forall s j,
  j ∈ np_where_from s mask <->
  (s <= j)%nat /\ mask !! (j - s)%nat = Some true.
Proof.
  induction mask as [|b mask IH]; intros s j; cbn [np_where_from].
  - split; [intros H; inversion H | intros [_ H]; discriminate].
  - assert (Htail : j ∈ np_where_from (S s) mask <->
                    (S s <= j)%nat /\ (b :: mask) !! (j - s)%nat = Some true).
    { rewrite IH. split; intros [Hle Hm]; (split; [lia|]).
      - replace (j - s)%nat with (S (j - S s)) by lia. exact Hm.
      - replace (j - s)%nat with (S (j - S s)) in Hm by lia. exact Hm. }
    destruct b.
    + rewrite elem_of_cons, Htail. split.
      * intros [->|[Hle Hm]]; [split; [lia|] | split; [lia | exact Hm]].
        rewrite Nat.sub_diag. reflexivity.
      * intros [Hle Hm]. destruct (decide (j = s)) as [->|Hne];
          [left; reflexivity | right; split; [lia | exact Hm]].
    + rewrite Htail. split; intros [Hle Hm]; (split; [lia | exact Hm]) || idtac.
      destruct (decide (j = s)) as [->|Hne].
      * rewrite Nat.sub_diag in Hm. discriminate.
      * split; [lia | exact Hm].
Qed.

Lemma np_where_elem mask j : j ∈ np_where mask <-> mask !! j = Some true.
Proof.
  unfold np_where. rewrite np_where_from_elem, Nat.sub_0_r.
  split; [intros [_ H]; exact H | intros H; split; [lia | exact H]].
Qed.

Lemma np_put_notin locs v a k : k ∉ locs -> np_put locs v a !! k = a !! k.
Proof.
  unfold np_put. revert a. induction locs as [|l locs IH]; intros a Hk;
    [reflexivity|].
  cbn [fold_left]. apply not_elem_of_cons in Hk as [Hne Hk].
  rewrite IH by exact Hk. apply list_lookup_insert_ne. congruence.
Qed.

Lemma np_put_in locs v a k :
  k ∈ locs -> (k < length a)%nat -> np_put locs v a !! k = Some v.
Proof.
  unfold np_put. revert a. induction locs as [|l locs IH]; intros a Hk Hlen;
    [inversion Hk|].
  cbn [fold_left]. destruct (decide (k ∈ locs)) as [Hin|Hnotin].
  - apply IH; [exact Hin | rewrite length_insert; exact Hlen].
  - apply elem_of_cons in Hk as [->|Hin]; [|contradiction].
    fold (np_put locs v (<[l:=v]> a)). rewrite np_put_notin by exact Hnotin.
    apply list_lookup_insert_eq. exact Hlen.
Qed.

(** The value a masked assignment leaves at the position of a sample. *)
Lemma np_put_where (f : Q -> bool) wv v a k w :
  wv !! k = Some w -> length a = length wv ->
  np_put (np_where (map f wv)) v a !! k
  = if f w then Some v else a !! k.
Proof.
  intros Hw Hlen.
  assert (Hmask : map f wv !! k = Some (f w))
    by (rewrite list_lookup_fmap, Hw; reflexivity).
  destruct (f w) eqn:Hf.
  - apply np_put_in; [apply np_where_elem; exact Hmask|].
    rewrite Hlen. apply lookup_lt_Some in Hw. exact Hw.
  - apply np_put_notin. rewrite np_where_elem, Hmask. discriminate.
Qed.

Lemma in_bin_true w lo hi :
  lo < w -> w <= hi -> negb (Qle_bool w lo) && Qle_bool w hi = true.
Proof.
  intros Hlo Hhi. apply andb_true_iff. split.
  - apply negb_true_iff, not_true_iff_false. rewrite Qle_bool_iff.
    apply Qlt_not_le. exact Hlo.
  - apply Qle_bool_iff. exact Hhi.
Qed.

Lemma in_bin_false w lo hi :
  ~ (lo < w /\ w <= hi) -> negb (Qle_bool w lo) && Qle_bool w hi = false.
Proof.
  intros Hout. apply not_true_iff_false. intros H.
  apply andb_true_iff in H as [Hlo Hhi]. apply Hout. split.
  - apply negb_true_iff, not_true_iff_false in Hlo. rewrite Qle_bool_iff in Hlo.
    apply Qnot_le_lt. exact Hlo.
  - apply Qle_bool_iff. exact Hhi.
Qed.

(** The loop over the bins, for ordered edges: a sample in bin [j] ends
    with the value of that bin, and a sample in no bin is left alone. *)
Lemma calc_normalization_loop_value wv bins :
  edges_ordered bins ->
  forall n_values i a r,
    calc_normalization_loop wv bins n_values i a = Ok r ->
    length a = length wv ->
    forall k w, wv !! k = Some w ->
      (forall j n lo hi,
         n_values !! j = Some n ->
         bins !! (i + j)%nat = Some lo -> bins !! S (i + j) = Some hi ->
         lo < w -> w <= hi -> r !! k = Some n) /\
      ((forall j lo hi,
          (j < length n_values)%nat ->
          bins !! (i + j)%nat = Some lo -> bins !! S (i + j) = Some hi ->
          ~ (lo < w /\ w <= hi)) ->
       r !! k = a !! k).
Proof.
  intros Hord. induction n_values as [|n_i rest IH]; intros i a r Hrun Hlen k w Hw.
  - injection Hrun as <-. split; [intros j n lo hi Hj; discriminate | reflexivity].
  - cbn [calc_normalization_loop] in Hrun.
    apply bind_Ok in Hrun as (lo0 & Hlo0 & Hrun).
    apply bind_Ok in Hrun as (hi0 & Hhi0 & Hrun).
    unfold py_get in Hlo0, Hhi0.
    destruct (bins !! i) as [lo0'|] eqn:Elo; [|discriminate].
    destruct (bins !! S i) as [hi0'|] eqn:Ehi; [|discriminate].
    injection Hlo0 as ->. injection Hhi0 as ->.
    set (a' := np_put _ n_i a) in Hrun.
    assert (Hlen' : length a' = length wv)
      by (unfold a'; rewrite np_put_length; exact Hlen).
    assert (Ha' : a' !! k = if negb (Qle_bool w lo0) && Qle_bool w hi0
                            then Some n_i else a !! k)
      by (exact (np_put_where
                   (fun w => negb (Qle_bool w lo0) && Qle_bool w hi0)
                   wv n_i a k w Hw Hlen)).
    destruct (IH (S i) a' r Hrun Hlen' k w Hw) as [IHin IHout].
    split.
    + intros [|j] n lo hi Hj Hlo Hhi Hlow Hwhi.
      * rewrite Nat.add_0_r in Hlo, Hhi. cbn in Hj.
        injection Hj as ->. rewrite Elo in Hlo. rewrite Ehi in Hhi.
        injection Hlo as ->. injection Hhi as ->.
        rewrite IHout.
        -- rewrite Ha', in_bin_true by assumption. reflexivity.
        -- intros j lo' hi' _ Hlo' _ [Hlt _].
           assert (Hle : hi <= lo')
             by (apply (Hord (S i) (S i + j)%nat);
                 [lia | exact Ehi | exact Hlo']).
           apply (Qlt_not_le _ _ Hlt). apply (Qle_trans _ hi); assumption.
      * apply (IHin j n lo hi); try assumption.
        -- replace (S i + j)%nat with (i + S j)%nat by lia. exact Hlo.
        -- replace (S (S i + j))%nat with (S (i + S j))%nat by lia. exact Hhi.
    + intros Hout. rewrite IHout.
      * rewrite Ha', in_bin_false; [reflexivity|].
        apply (Hout 0%nat lo0 hi0); [cbn; lia | rewrite Nat.add_0_r; exact Elo
                                    | rewrite Nat.add_0_r; exact Ehi].
      * intros j lo hi Hj Hlo Hhi. apply (Hout (S j) lo hi); [cbn; lia | |].
        -- replace (i + S j)%nat with (S i + j)%nat by lia. exact Hlo.
        -- replace (S (i + S j))%nat with (S (S i + j))%nat by lia. exact Hhi.
Qed.

Lemma py_index_first {A} (l : list A) x : py_index l 0 = Ok x -> l !! 0%nat = Some x.
Proof.
  unfold py_index, py_get. cbn. destruct l; [discriminate | intros [= ->]; reflexivity].
Qed.

Lemma py_index_last {A} (l : list A) x : py_index l (-1) = Ok x -> last l = Some x.
Proof.
  unfold py_index. change (0 <=? -1)%Z with false. cbv iota.
  destruct (0 <=? Z.of_nat (length l) + -1)%Z eqn:E; [|discriminate].
  apply Z.leb_le in E. unfold py_get.
  replace (Z.to_nat (Z.of_nat (length l) + -1)) with (pred (length l)) by lia.
  rewrite last_lookup. destruct (l !! pred (length l)); [|discriminate].
  intros [= ->]. reflexivity.
Qed.

(** With ordered edges and one value per bin, a sample strictly above
    the lower edge of a bin and at most its upper edge receives the value
    of that bin; a sample at or below the first edge and a sample above
    the last edge both receive the value of the last bin. *)
Theorem calc_normalization_by_bin self n_values bins r :
  edges_ordered bins ->
  (length n_values + 1 = length bins)%nat ->
  calc_normalization self n_values bins = Ok r ->
  forall k w, wave self !! k = Some w ->
    (forall j n lo hi,
       n_values !! j = Some n -> bins !! j = Some lo -> bins !! S j = Some hi ->
       lo < w -> w <= hi -> r !! k = Some n) /\
    (forall first_edge n,
       bins !! 0%nat = Some first_edge -> last n_values = Some n ->
       w <= first_edge -> r !! k = Some n) /\
    (forall last_edge n,
       last bins = Some last_edge -> last n_values = Some n ->
       last_edge < w -> r !! k = Some n).
Proof.
  intros Hord Hshape Hrun k w Hw. unfold calc_normalization in Hrun.
  destruct bins as [|b0 bins']; [cbn in Hshape; lia|].
  set (bins := b0 :: bins') in *.
  change (length bins =? 0)%nat with false in Hrun. cbv iota in Hrun.
  apply bind_Ok in Hrun as (r0 & Hloop & Hrun).
  destruct (last n_values) as [n_last|] eqn:Hlast; [|discriminate].
  apply bind_Ok in Hrun as (e0 & He0 & Hrun).
  apply bind_Ok in Hrun as (e1 & He1 & Hrun).
  apply py_index_first in He0. apply py_index_last in He1.
  injection Hrun as <-.
  assert (Hlen0 : length r0 = length (wave self)).
  { rewrite (calc_normalization_loop_length _ _ _ _ _ _ Hloop).
    apply length_replicate. }
  set (r1 := np_put _ n_last r0).
  assert (Hlen1 : length r1 = length (wave self))
    by (unfold r1; rewrite np_put_length; exact Hlen0).
  assert (Hr1 : r1 !! k = if Qle_bool w e0 then Some n_last else r0 !! k)
    by (exact (np_put_where (fun w => Qle_bool w e0) _ _ _ _ _ Hw Hlen0)).
  rewrite (np_put_where (fun w => negb (Qle_bool w e1)) _ _ _ _ _ Hw Hlen1), Hr1.
  assert (Hfirst_last : e0 <= e1).
  { rewrite last_lookup in He1.
    apply (Hord 0%nat (pred (length bins))); [lia | exact He0 | exact He1]. }
  split; [|split].
  - intros j n lo hi Hj Hlo Hhi Hlow Hwhi.
    destruct (calc_normalization_loop_value _ _ Hord _ _ _ _ Hloop
                (length_replicate _ _) k w Hw) as [Hin _].
    assert (Hhi_last : hi <= e1).
    { rewrite last_lookup in He1. apply lookup_lt_Some in Hhi as Hlt.
      apply (Hord (S j) (pred (length bins))); [lia | exact Hhi | exact He1]. }
    assert (Hfirst_lo : e0 <= lo)
      by (apply (Hord 0%nat j); [lia | exact He0 | exact Hlo]).
    replace (Qle_bool w e1) with true
      by (symmetry; apply Qle_bool_iff, (Qle_trans _ hi); assumption).
    replace (Qle_bool w e0) with false.
    2:{ symmetry. apply not_true_iff_false. rewrite Qle_bool_iff. intros Hle.
        apply (Qlt_not_le _ _ Hlow). apply (Qle_trans _ e0); assumption. }
    cbn [negb]. apply (Hin j n lo hi); assumption.
  - intros first_edge n Hfirst Hn Hle.
    rewrite Hfirst in He0. injection He0 as <-. injection Hn as <-.
    replace (Qle_bool w first_edge) with true
      by (symmetry; apply Qle_bool_iff; exact Hle).
    replace (Qle_bool w e1) with true
      by (symmetry; apply Qle_bool_iff, (Qle_trans _ first_edge); assumption).
    reflexivity.
  - intros last_edge n Hl Hn Hlt.
    rewrite Hl in He1. injection He1 as <-. injection Hn as <-.
    replace (Qle_bool w last_edge) with false.
    2:{ symmetry. apply not_true_iff_false. rewrite Qle_bool_iff.
        apply Qlt_not_le. exact Hlt. }
    reflexivity.
Qed.

Lemma default_bins_ordered : edges_ordered default_bins.
Proof.
  intros a b x y Hab Ha Hb.
  destruct a as [|[|[|[|a]]]]; destruct b as [|[|[|[|b]]]];
    cbn in Ha, Hb; try lia; try discriminate;
    injection Ha as <-; injection Hb as <-; vm_compute; discriminate.
Qed.

(** The theorem at the spectrum of [complete_grid], the default edges
    and the values 1, 2, 3: the sample at 1.65 lies in the second bin. *)
Lemma calc_normalization_by_bin_witness :
  calc_normalization complete_grid [1; 2; 3] default_bins = Ok [3; 2; 3] /\
  [3; 2; 3] !! 1%nat = Some 2.
Proof.
  assert (Hrun : calc_normalization complete_grid [1; 2; 3] default_bins
                 = Ok [3; 2; 3]) by reflexivity.
  split; [exact Hrun|].
  destruct (calc_normalization_by_bin complete_grid [1; 2; 3] default_bins
              [3; 2; 3] default_bins_ordered eq_refl Hrun 1%nat 1.65 eq_refl)
    as [Hbin _].
  apply (Hbin 1%nat 2 1.4 1.9); try reflexivity. vm_compute. discriminate.
Defined.

(** ** The constructor *)

Lemma py_min_le vals m : py_min vals = Ok m -> forall v, v ∈ vals -> m <= v.
Proof.
  destruct vals as [|x t]; [discriminate|]. cbn. intros [= <-].
  assert (H : forall t x,
            fold_left (fun m y => if Qle_bool m y then m else y) t x <= x /\
            forall v, v ∈ t ->
              fold_left (fun m y => if Qle_bool m y then m else y) t x <= v).
  { clear. induction t as [|y t IH]; intros x; cbn.
    - split; [apply Qle_refl | intros v Hv; inversion Hv].
    - destruct (Qle_bool x y) eqn:E.
      + apply Qle_bool_iff in E. destruct (IH x) as [Hx Ht].
        split; [exact Hx|]. intros v Hv.
        apply elem_of_cons in Hv as [->|Hv];
          [apply (Qle_trans _ x); assumption | apply Ht, Hv].
      + assert (Hyx : y <= x).
        { apply Qlt_le_weak, Qnot_le_lt. rewrite <- Qle_bool_iff, E.
          discriminate. }
        destruct (IH y) as [Hy Ht].
        split; [apply (Qle_trans _ y); assumption|]. intros v Hv.
        apply elem_of_cons in Hv as [->|Hv]; [exact Hy | apply Ht, Hv]. }
  intros v Hv. destruct (H t x) as [Hx Ht].
  apply elem_of_cons in Hv as [->|Hv]; [exact Hx | apply Ht, Hv].
Qed.

Lemma py_max_ge vals m : py_max vals = Ok m -> forall v, v ∈ vals -> v <= m.
Proof.
  destruct vals as [|x t]; [discriminate|]. cbn. intros [= <-].
  assert (H : forall t x,
            x <= fold_left (fun m y => if Qle_bool y m then m else y) t x /\
            forall v, v ∈ t ->
              v <= fold_left (fun m y => if Qle_bool y m then m else y) t x).
  { clear. induction t as [|y t IH]; intros x; cbn.
    - split; [apply Qle_refl | intros v Hv; inversion Hv].
    - destruct (Qle_bool y x) eqn:E.
      + apply Qle_bool_iff in E. destruct (IH x) as [Hx Ht].
        split; [exact Hx|]. intros v Hv.
        apply elem_of_cons in Hv as [->|Hv];
          [apply (Qle_trans _ x); assumption | apply Ht, Hv].
      + assert (Hxy : x <= y).
        { apply Qlt_le_weak, Qnot_le_lt. rewrite <- Qle_bool_iff, E.
          discriminate. }
        destruct (IH y) as [Hy Ht].
        split; [apply (Qle_trans _ y); assumption|]. intros v Hv.
        apply elem_of_cons in Hv as [->|Hv]; [exact Hy | apply Ht, Hv]. }
  intros v Hv. destruct (H t x) as [Hx Ht].
  apply elem_of_cons in Hv as [->|Hv]; [exact Hx | apply Ht, Hv].
Qed.

(** Every entry the loop adds to [plims] holds a column of the model
    collection with its least and greatest value. *)
Lemma build_plims_entries model_dict names : forall acc pls,
  build_plims model_dict names acc = Ok pls ->
  forall name pl, pls !! name = Some pl ->
    acc !! name = Some pl \/
    (model_columns model_dict !! name = Some (plim_vals pl) /\
     py_min (plim_vals pl) = Ok (plim_min pl) /\
     py_max (plim_vals pl) = Ok (plim_max pl)).
Proof.
  induction names as [|p rest IH]; intros acc pls Hrun name pl Hpl.
  - injection Hrun as <-. left. exact Hpl.
  - cbn [build_plims] in Hrun.
    destruct (model_columns model_dict !! p) as [vals|] eqn:Hcol.
    + apply bind_Ok in Hrun as (lo & Hlo & Hrun).
      apply bind_Ok in Hrun as (hi & Hhi & Hrun).
      destruct (IH _ _ Hrun name pl Hpl) as [Hacc|Hnew]; [|right; exact Hnew].
      destruct (decide (p = name)) as [->|Hne].
      * rewrite lookup_insert_eq in Hacc. injection Hacc as <-.
        right. cbn. auto.
      * rewrite lookup_insert_ne in Hacc by exact Hne. left. exact Hacc.
    + apply (IH _ _ Hrun name pl Hpl).
Qed.

Lemma unique_params_of_entries self names ups :
  unique_params_of self names = Ok ups ->
  Forall (fun name => is_Some (plims self !! name)) names.
Proof.
  revert ups. induction names as [|name rest IH]; intros ups H; [constructor|].
  cbn [unique_params_of] in H.
  apply bind_Ok in H as (pl & Hpl & H). apply bind_Ok in H as (others & Hrest & _).
  constructor; [|apply (IH others Hrest)].
  unfold dict_get in Hpl. destruct (plims self !! name); [eauto | discriminate].
Qed.

(** The coverage check reads only [params] and [plims]. *)
Lemma unique_params_of_ext self self' names :
  plims self = plims self' ->
  unique_params_of self names = unique_params_of self' names.
Proof.
  intros Hpl. induction names as [|name rest IH]; [reflexivity|].
  cbn [unique_params_of]. rewrite Hpl, IH. reflexivity.
Qed.

Lemma coverage_p_loc_ext self self' i up js : forall p_loc,
  params self = params self' -> plims self = plims self' ->
  coverage_p_loc self i up js p_loc = coverage_p_loc self' i up js p_loc.
Proof.
  induction js as [|j rest IH]; intros p_loc Hpa Hpl; [reflexivity|].
  cbn [coverage_p_loc]. rewrite Hpa, Hpl.
  destruct (py_get (params self') i) as [name|]; [|reflexivity].
  rewrite !bind_ret_l.
  destruct (dict_get (plims self') name) as [pl|]; [|reflexivity].
  rewrite !bind_ret_l.
  destruct (py_get up j) as [up_j|]; [|reflexivity].
  rewrite !bind_ret_l. apply IH; assumption.
Qed.

Lemma coverage_loop_ext self self' ncomb rows : forall i,
  params self = params self' -> plims self = plims self' ->
  coverage_loop self ncomb i rows = coverage_loop self' ncomb i rows.
Proof.
  induction rows as [|up rest IH]; intros i Hpa Hpl; [reflexivity|].
  cbn [coverage_loop]. unfold ndim.
  rewrite (coverage_p_loc_ext self self') by assumption. rewrite Hpa.
  destruct (coverage_p_loc self' i up _ _) as [p_loc|]; [|reflexivity].
  rewrite !bind_ret_l. destruct (length p_loc =? 0)%nat; [reflexivity|].
  apply IH; assumption.
Qed.

Lemma check_grid_coverage_ext self self' :
  params self = params self' -> plims self = plims self' ->
  check_grid_coverage self = check_grid_coverage self'.
Proof.
  intros Hpa Hpl. unfold check_grid_coverage, ndim.
  rewrite (unique_params_of_ext self self') by exact Hpl. rewrite Hpa.
  destruct (unique_params_of self' (params self')) as [ups|]; [|reflexivity].
  rewrite !bind_ret_l. apply coverage_loop_ext; assumption.
Qed.

(** What a successful construction has established. *)
Lemma init_inversion spectrum model_dict names sm res sn bins mg :
  __init__ spectrum model_dict names sm res sn bins = Ok mg ->
  exists pls covered,
    build_plims model_dict names ∅ = Ok pls /\
    check_grid_coverage mg = Ok covered /\
    params mg = names /\ plims mg = pls /\ model mg = model_dict /\
    wave mg = spectrum_wavelength spectrum /\
    flux mg = spectrum_flux spectrum /\ unc mg = spectrum_unc spectrum /\
    wavelength_bins mg = bins /\ smooth mg = sm /\
    is_grid_complete mg = covered /\ snap mg = sn /\
    wave mg <> [] /\ is_Some (model_wavelength model_dict) /\
    exists table, model_flux model_dict = Some table /\ table <> [].
Proof.
  unfold __init__. intros H.
  apply bind_Ok in H as (wl & Hwl & H). apply bind_Ok in H as (fl & Hfl & H).
  apply bind_Ok in H as (pls & Hpls & H). apply bind_Ok in H as (m0 & Hm0 & H).
  apply bind_Ok in H as (w0 & Hw0 & H).
  apply bind_Ok in H as (covered & Hcov & H).
  apply bind_Ok in H as (row0 & Hrow0 & H).
  assert (Hwave : spectrum_wavelength spectrum <> [])
    by (intros Hnil; rewrite Hnil in Hw0; discriminate).
  assert (Hkey : is_Some (model_wavelength model_dict))
    by (destruct (model_wavelength model_dict); [eauto | discriminate]).
  assert (Htable : exists table,
             model_flux model_dict = Some table /\ table <> []).
  { exists fl. split.
    - destruct (model_flux model_dict); [|discriminate].
      injection Hfl as ->. reflexivity.
    - intros ->. discriminate. }
  exists pls, covered.
  destruct covered; injection H as <-;
    (split; [exact Hpls|]);
    (split; [rewrite <- Hcov; apply check_grid_coverage_ext; reflexivity|]);
    repeat (split; [reflexivity|]);
    (split; [exact Hwave|]); (split; [exact Hkey | exact Htable]).
Qed.

(** A successful construction has indexed every fit parameter: its entry
    of [plims] holds the column of the model collection, and the limits
    are values of the column that bound all the others. *)
Theorem constructed_limits_bound_the_column spectrum model_dict names sm res
    sn bins mg :
  __init__ spectrum model_dict names sm res sn bins = Ok mg ->
  Forall (fun name =>
            exists pl,
              plims mg !! name = Some pl /\
              model_columns model_dict !! name = Some (plim_vals pl) /\
              plim_min pl ∈ plim_vals pl /\ plim_max pl ∈ plim_vals pl /\
              forall v, v ∈ plim_vals pl -> plim_min pl <= v <= plim_max pl)
         names.
Proof.
  intros Hinit.
  destruct (init_inversion _ _ _ _ _ _ _ _ Hinit)
    as (pls & covered & Hpls & Hcov & Hparams & Hplims & _).
  unfold check_grid_coverage in Hcov.
  apply bind_Ok in Hcov as (ups & Hups & _).
  apply unique_params_of_entries in Hups. rewrite Hparams in Hups.
  eapply Forall_impl; [exact Hups|]. cbn. intros name [pl Hpl].
  exists pl. split; [exact Hpl|]. rewrite Hplims in Hpl.
  destruct (build_plims_entries _ _ _ _ Hpls name pl Hpl)
    as [Hempty|(Hcol & Hmin & Hmax)]; [rewrite lookup_empty in Hempty; discriminate|].
  split; [exact Hcol|].
  split; [apply py_min_elem; exact Hmin|].
  split; [apply py_max_elem; exact Hmax|].
  intros v Hv. split; [apply (py_min_le _ _ Hmin v Hv) | apply (py_max_ge _ _ Hmax v Hv)].
Qed.

Lemma constructed_limits_bound_the_column_witness :
  Forall (fun name =>
            exists pl,
              plims complete_grid !! name = Some pl /\
              model_columns complete_model !! name = Some (plim_vals pl) /\
              plim_min pl ∈ plim_vals pl /\ plim_max pl ∈ plim_vals pl /\
              forall v, v ∈ plim_vals pl -> plim_min pl <= v <= plim_max pl)
         ["teff"; "logg"]%string.
Proof.
  apply (constructed_limits_bound_the_column example_spectrum complete_model
           ["teff"; "logg"]%string false None false default_bins complete_grid).
  vm_compute. reflexivity.
Defined.

(** A fit parameter that is not a key of the model collection is only
    logged by the loop that builds [plims], but the construction does not
    succeed: it ends in an exception. *)
Theorem unknown_parameter_fails_construction spectrum model_dict names sm res
    sn bins name :
  name ∈ names ->
  model_columns model_dict !! name = None ->
  exists e, __init__ spectrum model_dict names sm res sn bins = Raise e.
Proof.
  intros Hin Hcol.
  destruct (__init__ spectrum model_dict names sm res sn bins) as [mg|e] eqn:Hinit;
    [|eauto].
  exfalso.
  destruct (init_inversion _ _ _ _ _ _ _ _ Hinit)
    as (pls & covered & Hpls & Hcov & Hparams & Hplims & _).
  unfold check_grid_coverage in Hcov.
  apply bind_Ok in Hcov as (ups & Hups & _).
  apply unique_params_of_entries in Hups. rewrite Hparams in Hups.
  rewrite Forall_forall in Hups. destruct (Hups name Hin) as [pl Hpl].
  rewrite Hplims in Hpl.
  destruct (build_plims_entries _ _ _ _ Hpls name pl Hpl)
    as [Hempty|(Hcol' & _)]; [rewrite lookup_empty in Hempty; discriminate|].
  rewrite Hcol in Hcol'. discriminate.
Qed.

(** The theorem for [complete_model] and the unknown parameter
    ['fsed']: the construction raises [KeyError]. *)
Lemma unknown_parameter_fails_construction_witness :
  __init__ example_spectrum complete_model ["teff"; "fsed"]%string
           false None false default_bins = Raise KeyError /\
  exists e,
    __init__ example_spectrum complete_model ["teff"; "fsed"]%string
             false None false default_bins = Raise e.
Proof.
  split; [vm_compute; reflexivity|].
  apply (unknown_parameter_fails_construction example_spectrum complete_model
           ["teff"; "fsed"]%string false None false default_bins "fsed"%string).
  - apply list_elem_of_further, list_elem_of_here.
  - vm_compute. reflexivity.
Defined.

(** ** The coverage check *)

Lemma unique_insert_keeps x l u : u ∈ l -> u ∈ unique_insert x l.
Proof.
  induction l as [|y t IH]; intros Hu; [inversion Hu|].
  cbn [unique_insert]. destruct (x ?= y).
  - exact Hu.
  - apply list_elem_of_further. exact Hu.
  - apply elem_of_cons in Hu as [->|Hu];
      [apply list_elem_of_here | apply list_elem_of_further, IH, Hu].
Qed.

Lemma unique_insert_has x l : exists u, u ∈ unique_insert x l /\ u == x.
Proof.
  induction l as [|y t IH]; cbn [unique_insert].
  - exists x. split; [apply list_elem_of_here | reflexivity].
  - destruct (x ?= y) eqn:E.
    + exists y. split; [apply list_elem_of_here|].
      symmetry. apply Qeq_alt. exact E.
    + exists x. split; [apply list_elem_of_here | reflexivity].
    + destruct IH as (u & Hu & Heq). exists u.
      split; [apply list_elem_of_further, Hu | exact Heq].
Qed.

(** Every value of an array is, up to equality of numbers, among its
    distinct values. *)
Lemma np_unique_has vals v : v ∈ vals -> exists u, u ∈ np_unique vals /\ u == v.
Proof.
  unfold np_unique.
  assert (H : forall vals acc,
            (forall u, u ∈ acc ->
               u ∈ fold_left (fun acc x => unique_insert x acc) vals acc) /\
            (forall v, v ∈ vals ->
               exists u, u ∈ fold_left (fun acc x => unique_insert x acc) vals acc
                         /\ u == v)).
  { clear. induction vals as [|x vals IH]; intros acc; cbn [fold_left].
    - split; [auto | intros v Hv; inversion Hv].
    - destruct (IH (unique_insert x acc)) as [Hkeep Hhas]. split.
      + intros u Hu. apply Hkeep, unique_insert_keeps, Hu.
      + intros v Hv. apply elem_of_cons in Hv as [->|Hv]; [|apply Hhas, Hv].
        destruct (unique_insert_has x acc) as (u & Hu & Heq).
        exists u. split; [apply Hkeep, Hu | exact Heq]. }
  apply H.
Qed.

Lemma two_distinct_values_length vals x y :
  x ∈ vals -> y ∈ vals -> ~ x == y -> (2 <= length (np_unique vals))%nat.
Proof.
  intros Hx Hy Hne.
  destruct (np_unique_has vals x Hx) as (u & Hu & Hux).
  destruct (np_unique_has vals y Hy) as (v & Hv & Hvy).
  destruct (np_unique vals) as [|a [|b t]]; [inversion Hu | | cbn; lia].
  apply list_elem_of_singleton in Hu. apply list_elem_of_singleton in Hv.
  subst. exfalso. apply Hne. rewrite <- Hux, <- Hvy. reflexivity.
Qed.

Lemma np_put_col_length locs i v m : length (np_put_col locs i v m) = length m.
Proof.
  unfold np_put_col. revert m. induction locs as [|r locs IH]; intros m;
    [reflexivity|].
  cbn [fold_left]. rewrite IH. apply length_alter.
Qed.

Lemma fill_combinations_shape ncomb nd ups :
  length (fill_combinations ncomb nd ups) = ncomb /\
  Forall (fun r => length r = nd) (fill_combinations ncomb nd ups).
Proof.
  unfold fill_combinations.
  assert (H : forall (cols : list (nat * list Q)) m,
            length m = ncomb /\ Forall (fun r => length r = nd) m ->
            length (fold_left
                      (fun acc iu =>
                         fill_combination_column ncomb nd acc iu.1 iu.2)
                      cols m) = ncomb /\
            Forall (fun r => length r = nd)
                   (fold_left
                      (fun acc iu =>
                         fill_combination_column ncomb nd acc iu.1 iu.2)
                      cols m)).
  { induction cols as [|[i u] cols IH]; intros m Hm; [exact Hm|].
    cbn [fold_left]. apply IH. unfold fill_combination_column. cbn [fst snd].
    generalize (imap pair u). intros vs. revert m Hm.
    induction vs as [|[j x] vs IHv]; intros m Hm; [exact Hm|].
    cbn [fold_left]. apply IHv. destruct Hm as [Hlen Hshape]. split.
    - rewrite np_put_col_length. exact Hlen.
    - apply np_put_col_shape. exact Hshape. }
  apply H. unfold np_zeros2, np_zeros. split.
  - apply length_replicate.
  - apply Forall_replicate, length_replicate.
Qed.

Lemma coverage_p_loc_Ok self i up js : forall p_loc,
  (i < ndim self)%nat ->
  Forall (fun name => is_Some (plims self !! name)) (params self) ->
  Forall (fun j => (j < length up)%nat) js ->
  exists r, coverage_p_loc self i up js p_loc = Ok r.
Proof.
  induction js as [|j rest IH]; intros p_loc Hi Hpl Hjs; [eexists; reflexivity|].
  apply Forall_cons in Hjs as [Hj Hjs]. cbn [coverage_p_loc].
  destruct (py_get_lt (params self) i Hi) as (name & Hname & ->).
  rewrite bind_ret_l.
  rewrite Forall_forall in Hpl.
  destruct (Hpl name) as [pl Hplname]; [apply list_elem_of_lookup; eauto|].
  rewrite (dict_get_Some _ _ _ Hplname), bind_ret_l.
  destruct (py_get_lt up j Hj) as (up_j & _ & ->). rewrite bind_ret_l.
  apply IH; [exact Hi | apply Forall_forall; exact Hpl | exact Hjs].
Qed.

(** The check answers true only when every combination it has enumerated
    sits at a position smaller than the number of parameters. *)
Lemma coverage_loop_cases self ncomb rows : forall i,
  (1 <= ndim self)%nat ->
  Forall (fun name => is_Some (plims self !! name)) (params self) ->
  Forall (fun r => length r = ndim self) rows ->
  coverage_loop self ncomb i rows = Ok false \/
  coverage_loop self ncomb i rows = Raise IndexError \/
  (coverage_loop self ncomb i rows = Ok true /\
   (i + length rows <= ndim self \/ rows = [])%nat).
Proof.
  induction rows as [|up rest IH]; intros i Hnd Hpl Hshape.
  - right. right. split; [reflexivity | right; reflexivity].
  - apply Forall_cons in Hshape as [Hup Hshape]. cbn [coverage_loop].
    destruct (decide (i < ndim self)%nat) as [Hi|Hi].
    + destruct (coverage_p_loc_Ok self i up (seq 0 (ndim self))
                  (np_arange ncomb) Hi Hpl) as [p_loc ->];
        [rewrite Hup; apply seq_lt|].
      rewrite bind_ret_l.
      destruct (length p_loc =? 0)%nat; [left; reflexivity|].
      destruct (IH (S i) Hnd Hpl Hshape) as [H|[H|[H Hb]]];
        [left; exact H | right; left; exact H |].
      right. right. split; [exact H|]. left.
      destruct Hb as [Hb | ->]; cbn [length]; lia.
    + right. left.
      destruct (ndim self) as [|nd] eqn:End; [lia|].
      cbn [seq coverage_p_loc].
      rewrite (py_get_None (params self) i); [reflexivity|].
      apply lookup_ge_None. unfold ndim in End. lia.
Qed.

Lemma product_of_lengths_bound (ups : list (list Q)) : forall n,
  Forall (fun u => (2 <= length u)%nat) ups ->
  (n * 2 ^ length ups <= fold_left (fun n u => n * length u) ups n)%nat.
Proof.
  induction ups as [|u ups IH]; intros n Hups; cbn [fold_left length].
  - cbn. lia.
  - apply Forall_cons in Hups as [Hu Hups].
    specialize (IH (n * length u)%nat Hups).
    assert (n * 2 ^ S (length ups) <= n * length u * 2 ^ length ups)%nat; [|lia].
    cbn [Nat.pow]. nia.
Qed.

Lemma unique_params_of_lengths self names :
  Forall (fun name =>
            exists pl, plims self !! name = Some pl /\
              exists x y, x ∈ plim_vals pl /\ y ∈ plim_vals pl /\ ~ x == y)
         names ->
  exists ups, unique_params_of self names = Ok ups /\
              length ups = length names /\
              Forall (fun u => (2 <= length u)%nat) ups.
Proof.
  induction 1 as [|name rest (pl & Hpl & x & y & Hx & Hy & Hne) _ IH].
  - exists []. repeat split. constructor.
  - destruct IH as (ups & Hups & Hlen & Hall).
    exists (np_unique (plim_vals pl) :: ups). cbn [unique_params_of].
    rewrite (dict_get_Some _ _ _ Hpl), bind_ret_l, Hups, bind_ret_l.
    split; [reflexivity|]. split; [cbn; congruence|].
    constructor; [apply (two_distinct_values_length _ x y); assumption | exact Hall].
Qed.

Lemma check_grid_coverage_cases self :
  (1 <= ndim self)%nat ->
  Forall (fun name =>
            exists pl, plims self !! name = Some pl /\
              exists x y, x ∈ plim_vals pl /\ y ∈ plim_vals pl /\ ~ x == y)
         (params self) ->
  check_grid_coverage self = Ok false \/
  check_grid_coverage self = Raise IndexError.
Proof.
  intros Hnd Hvals.
  destruct (unique_params_of_lengths self (params self) Hvals)
    as (ups & Hups & Hlen & Hall).
  unfold check_grid_coverage. rewrite Hups, bind_ret_l.
  set (ncomb := fold_left (fun n u => (n * length u)%nat) ups 1%nat).
  destruct (fill_combinations_shape ncomb (ndim self) ups) as [Hrows Hshape].
  assert (Hpl : Forall (fun name => is_Some (plims self !! name)) (params self)).
  { eapply Forall_impl; [exact Hvals|]. cbn. intros name (pl & Hpl & _). eauto. }
  destruct (coverage_loop_cases self (length (fill_combinations ncomb (ndim self) ups))
              (fill_combinations ncomb (ndim self) ups) 0 Hnd Hpl Hshape)
    as [H|[H|[_ Hb]]]; [left; exact H | right; exact H |].
  exfalso.
  pose proof (product_of_lengths_bound ups 1 Hall) as Hprod.
  fold ncomb in Hprod. rewrite Hlen in Hprod. fold (ndim self) in Hprod.
  pose proof (Nat.pow_gt_lin_r 2 (ndim self)) as Hpow.
  destruct Hb as [Hb|Hb].
  - rewrite Hrows in Hb. lia.
  - apply (f_equal length) in Hb. rewrite Hrows in Hb. cbn in Hb. lia.
Qed.

(** On a grid with at least one fit parameter, each of which takes two
    different values, the coverage check never answers true: it answers
    false, or it raises [IndexError] when the position of a combination
    reaches the number of parameters. *)
Theorem coverage_check_never_true self :
  (1 <= ndim self)%nat ->
  Forall (fun name =>
            exists pl, plims self !! name = Some pl /\
              exists x y, x ∈ plim_vals pl /\ y ∈ plim_vals pl /\ ~ x == y)
         (params self) ->
  check_grid_coverage self = Ok false \/
  check_grid_coverage self = Raise IndexError.
Proof. apply check_grid_coverage_cases. Qed.

(** The theorem at the complete two-by-two grid. *)
Lemma coverage_check_never_true_witness :
  check_grid_coverage complete_grid = Ok false \/
  check_grid_coverage complete_grid = Raise IndexError.
Proof.
  apply (coverage_check_never_true complete_grid).
  - cbn. lia.
  - repeat constructor.
    + exists {| plim_vals := [1400; 1400; 1600; 1600];
                plim_min := 1400; plim_max := 1600 |}.
      split; [reflexivity|]. exists 1400, 1600.
      split; [apply list_elem_of_here|].
      split; [do 2 apply list_elem_of_further; apply list_elem_of_here|].
      discriminate.
    + exists {| plim_vals := [4.5; 5.0; 4.5; 5.0];
                plim_min := 4.5; plim_max := 5.0 |}.
      split; [reflexivity|]. exists 4.5, 5.0.
      split; [apply list_elem_of_here|].
      split; [apply list_elem_of_further, list_elem_of_here|].
      discriminate.
Defined.

(** A grid whose construction succeeds, with at least one fit parameter
    and two different values in the column of each, always has its
    coverage attribute false. *)
Theorem constructed_grid_never_complete spectrum model_dict names sm res sn
    bins mg :
  __init__ spectrum model_dict names sm res sn bins = Ok mg ->
  names <> [] ->
  Forall (fun name =>
            exists vals, model_columns model_dict !! name = Some vals /\
              exists x y, x ∈ vals /\ y ∈ vals /\ ~ x == y)
         names ->
  is_grid_complete mg = false.
Proof.
  intros Hinit Hne Hvals.
  destruct (init_inversion _ _ _ _ _ _ _ _ Hinit)
    as (pls & covered & Hpls & Hcov & Hparams & Hplims & _ & _ & _ & _ & _ &
        _ & Hcomplete & _).
  assert (Hentries : Forall (fun name => is_Some (plims mg !! name)) names).
  { unfold check_grid_coverage in Hcov.
    apply bind_Ok in Hcov as (ups & Hups & _).
    apply unique_params_of_entries in Hups. rewrite Hparams in Hups.
    exact Hups. }
  destruct (check_grid_coverage_cases mg) as [H|H].
  - unfold ndim. rewrite Hparams. destruct names; [contradiction | cbn; lia].
  - rewrite Hparams. rewrite Forall_forall in Hvals, Hentries.
    apply Forall_forall. intros name Hin.
    destruct (Hentries name Hin) as [pl Hpl].
    destruct (Hvals name Hin) as (vals & Hcol & Hxy).
    exists pl. split; [exact Hpl|]. rewrite Hplims in Hpl.
    destruct (build_plims_entries _ _ _ _ Hpls name pl Hpl)
      as [Hempty|(Hcol' & _)];
      [rewrite lookup_empty in Hempty; discriminate|].
    rewrite Hcol in Hcol'. injection Hcol' as <-. exact Hxy.
  - rewrite Hcov in H. injection H as ->. exact Hcomplete.
  - rewrite Hcov in H. discriminate.
Qed.

(** The theorem at the complete two-by-two grid. *)
Lemma constructed_grid_never_complete_witness :
  is_grid_complete complete_grid = false.
Proof.
  apply (constructed_grid_never_complete example_spectrum complete_model
           ["teff"; "logg"]%string false None false default_bins complete_grid).
  - vm_compute. reflexivity.
  - discriminate.
  - repeat constructor.
    + exists [1400; 1400; 1600; 1600]. split; [reflexivity|].
      exists 1400, 1600.
      split; [apply list_elem_of_here|].
      split; [do 2 apply list_elem_of_further; apply list_elem_of_here|].
      discriminate.
    + exists [4.5; 5.0; 4.5; 5.0]. split; [reflexivity|].
      exists 4.5, 5.0.
      split; [apply list_elem_of_here|].
      split; [apply list_elem_of_further, list_elem_of_here|].
      discriminate.
Defined.

(** ** Nearest grid values *)

Lemma argmin_from_least a : forall k best_k best,
  (argmin_from k best_k best a = best_k /\ forall x, x ∈ a -> best <= x) \/
  (exists m, (k <= argmin_from k best_k best a)%nat /\
             a !! (argmin_from k best_k best a - k)%nat = Some m /\
             m <= best /\ forall x, x ∈ a -> m <= x).
Proof.
  induction a as [|x t IH]; intros k best_k best; cbn [argmin_from].
  - left. split; [reflexivity | intros x Hx; inversion Hx].
  - destruct (Qlt_b x best) eqn:E.
    + apply Qlt_b_true in E. right.
      destruct (IH (S k) k x) as [[Hr Hall]|(m & Hk & Hm & Hle & Hall)].
      * exists x. rewrite Hr, Nat.sub_diag.
        split; [lia|]. split; [reflexivity|].
        split; [apply Qlt_le_weak, E|].
        intros y Hy. apply elem_of_cons in Hy as [->|Hy];
          [apply Qle_refl | apply Hall, Hy].
      * exists m. split; [lia|]. split.
        { replace (argmin_from (S k) k x t - k)%nat
            with (S (argmin_from (S k) k x t - S k)) by lia. exact Hm. }
        split; [apply (Qle_trans _ x); [exact Hle | apply Qlt_le_weak, E]|].
        intros y Hy. apply elem_of_cons in Hy as [->|Hy];
          [exact Hle | apply Hall, Hy].
    + assert (Hbx : best <= x).
      { apply Qnot_lt_le. intros Hlt. apply Qlt_b_true in Hlt.
        rewrite Hlt in E. discriminate. }
      destruct (IH (S k) best_k best) as [[Hr Hall]|(m & Hk & Hm & Hle & Hall)].
      * left. split; [exact Hr|]. intros y Hy.
        apply elem_of_cons in Hy as [->|Hy]; [exact Hbx | apply Hall, Hy].
      * right. exists m. split; [lia|]. split.
        { replace (argmin_from (S k) best_k best t - k)%nat
            with (S (argmin_from (S k) best_k best t - S k)) by lia. exact Hm. }
        split; [exact Hle|].
        intros y Hy. apply elem_of_cons in Hy as [->|Hy];
          [apply (Qle_trans _ best); assumption | apply Hall, Hy].
Qed.

Lemma np_argmin_least a k :
  np_argmin a = Ok k ->
  exists m, a !! k = Some m /\ forall x, x ∈ a -> m <= x.
Proof.
  destruct a as [|x t]; [discriminate|]. cbn [np_argmin]. intros [= <-].
  destruct (argmin_from_least t 1 0%nat x) as [[-> Hall]|(m & Hk & Hm & Hle & Hall)].
  - exists x. split; [reflexivity|]. intros y Hy.
    apply elem_of_cons in Hy as [->|Hy]; [apply Qle_refl | apply Hall, Hy].
  - exists m. split.
    + destruct (argmin_from 1 0 x t) as [|r]; [lia|].
      cbn. replace r with (S r - 1)%nat by lia. exact Hm.
    + intros y Hy. apply elem_of_cons in Hy as [->|Hy];
        [exact Hle | apply Hall, Hy].
Qed.

(** [find_nearest] on a non-empty array: the indices returned are those
    of the entries within 1e-5 of an entry [close] that is at least as
    near to the requested value as every other entry, and the position
    of [close] is among them.  On an empty array it raises
    [ValueError]. *)
Theorem find_nearest_closest arr val :
  arr <> [] ->
  find_nearest [] val = Raise ValueError /\
  exists k close l,
    find_nearest arr val = Ok l /\
    arr !! k = Some close /\
    (forall a, a ∈ arr -> Qabs (close - val) <= Qabs (a - val)) /\
    k ∈ l /\
    forall j, j ∈ l <->
              exists a, arr !! j = Some a /\ Qabs (a - close) <= 1e-5.
Proof.
  intros Hne. split; [reflexivity|].
  unfold find_nearest.
  destruct (np_argmin (map (fun a => Qabs (a - val)) arr)) as [k|e] eqn:Hk.
  2:{ destruct arr; [contradiction | discriminate]. }
  destruct (np_argmin_least _ _ Hk) as (m & Hm & Hleast).
  rewrite list_lookup_fmap in Hm.
  destruct (arr !! k) as [close|] eqn:Hclose; [|discriminate].
  change (Some (Qabs (close - val)) = Some m) in Hm.
  apply (inj Some) in Hm. subst m.
  exists k, close. eexists. rewrite bind_ret_l, (py_get_Some _ _ _ Hclose), bind_ret_l.
  split; [reflexivity|]. split; [exact Hclose|].
  assert (Hmember : forall j,
            j ∈ np_where (map (fun a => Qle_bool (Qabs (a - close)) 1e-5) arr) <->
            exists a, arr !! j = Some a /\ Qabs (a - close) <= 1e-5).
  { intros j. rewrite np_where_elem, list_lookup_fmap. split.
    - destruct (arr !! j) as [a|]; [|discriminate].
      intros [= H]. exists a. split; [reflexivity | apply Qle_bool_iff, H].
    - intros (a & -> & H). cbn. f_equal. apply Qle_bool_iff, H. }
  split; [|split; [|exact Hmember]].
  - intros a Ha. apply Hleast.
    apply (list_elem_of_fmap_2 (fun a => Qabs (a - val))). exact Ha.
  - apply Hmember. exists close. split; [exact Hclose|].
    setoid_replace (close - close) with 0 using relation Qeq by ring.
    vm_compute. discriminate.
Qed.

(** The theorem on the temperature column of [complete_model]: nearest
    to 1450 is 1400, found at the first two models. *)
Lemma find_nearest_closest_witness :
  find_nearest [1400; 1400; 1600; 1600] 1450 = Ok [0; 1]%nat /\
  exists k close l,
    find_nearest [1400; 1400; 1600; 1600] 1450 = Ok l /\
    [1400; 1400; 1600; 1600] !! k = Some close /\
    (forall a, a ∈ [1400; 1400; 1600; 1600] ->
               Qabs (close - 1450) <= Qabs (a - 1450)) /\
    k ∈ l /\
    forall j, j ∈ l <->
              exists a, [1400; 1400; 1600; 1600] !! j = Some a /\
                        Qabs (a - close) <= 1e-5.
Proof.
  split; [reflexivity|].
  apply (find_nearest_closest [1400; 1400; 1600; 1600] 1450). discriminate.
Defined.

Lemma Qlt_b_false_le x y : Qlt_b x y = false -> y <= x.
Proof.
  unfold Qlt_b. rewrite negb_false_iff, Qle_bool_iff. auto.
Qed.

Lemma for_each_app {A S} (body : S -> A -> result S) l1 l2 : forall s,
  for_each body (l1 ++ l2) s = for_each body l1 s ≫= for_each body l2.
Proof.
  induction l1 as [|x l1 IH]; intros s; [reflexivity|].
  cbn [app]. rewrite !for_each_cons.
  destruct (body s x) as [s'|e]; [|reflexivity].
  rewrite !bind_ret_l. apply IH.
Qed.

(** One pass of the loop of [find_nearest2] on a model with as many
    coordinates as the request. *)
Lemma find_nearest2_step_eq p_values st n row :
  (1 <= length p_values)%nat -> length row = length p_values ->
  find_nearest2_step p_values st (n, row)
  = Ok (if Qeq_bool (mean_abs_difference row p_values) st.1 then st
        else if Qlt_b (mean_abs_difference row p_values) st.1
             then (mean_abs_difference row p_values, Z.of_nat n)
             else st).
Proof.
  intros Hp Hrow. destruct st as [min_distance matched_i].
  unfold find_nearest2_step, mean_abs_difference. cbn [fst snd].
  rewrite np_broadcast_same_length by exact Hrow. rewrite bind_ret_l.
  destruct (map Qabs (zip_with Qminus row p_values)) as [|d ds] eqn:E.
  - apply (f_equal length) in E.
    rewrite length_map, length_zip_with in E. cbn in E. lia.
  - destruct (Qeq_bool _ min_distance); [reflexivity|].
    destruct (Qlt_b _ min_distance); reflexivity.
Qed.

Lemma find_nearest2_loop p_values :
  (1 <= length p_values)%nat ->
  forall param_arrays,
    Forall (fun row => length row = length p_values) param_arrays ->
    exists st,
      for_each (find_nearest2_step p_values) (imap pair param_arrays)
               (1e10, (-99)%Z) = Ok st /\
      nearest_so_far param_arrays p_values st.
Proof.
  intros Hp.
  induction param_arrays as [|x l IH] using rev_ind; intros Hshape.
  - eexists. split; [reflexivity|]. left. split; [reflexivity|].
    intros r Hr. inversion Hr.
  - apply Forall_app in Hshape as [Hl Hx]. apply Forall_cons in Hx as [Hx _].
    destruct (IH Hl) as (st & Hrun & Hinv).
    rewrite imap_app, for_each_app, Hrun, bind_ret_l.
    cbn [imap]. rewrite for_each_cons, Nat.add_0_r.
    rewrite (find_nearest2_step_eq p_values st (length l) x Hp Hx), bind_ret_l.
    eexists. split; [reflexivity|].
    set (c := mean_abs_difference x p_values).
    assert (Hin_l : forall j' r', (j' < length l)%nat ->
              (l ++ [x]) !! j' = Some r' -> l !! j' = Some r').
    { intros j' r' Hj Hr. rewrite lookup_app_l in Hr by exact Hj. exact Hr. }
    assert (Hcases : forall j' r', (l ++ [x]) !! j' = Some r' ->
              l !! j' = Some r' \/ (j' = length l /\ r' = x)).
    { intros j' r' Hr. apply lookup_app_Some in Hr as [Hr|[Hge Hr]];
        [left; exact Hr | right].
      destruct (j' - length l)%nat as [|d] eqn:E; [|discriminate].
      cbn in Hr. injection Hr as <-. split; [lia | reflexivity]. }
    destruct Hinv as [[-> Hfar]|(j & row & -> & Hrow & Hnear & Hmin & Hfirst)];
      cbn [fst].
    + destruct (Qeq_bool c 1e10) eqn:Eeq.
      * apply Qeq_bool_iff in Eeq. left. split; [reflexivity|].
        intros r Hr. apply elem_of_app in Hr as [Hr|Hr]; [apply Hfar, Hr|].
        apply list_elem_of_singleton in Hr. subst r. fold c. rewrite Eeq.
        apply Qle_refl.
      * destruct (Qlt_b c 1e10) eqn:Elt.
        -- apply Qlt_b_true in Elt. right. exists (length l), x.
           split; [reflexivity|].
           split; [apply list_lookup_middle; reflexivity|].
           split; [exact Elt|]. split.
           ++ intros j' r' Hr. destruct (Hcases j' r' Hr) as [Hr'|[_ ->]];
                [|apply Qle_refl].
              apply Qlt_le_weak, (Qlt_le_trans _ 1e10); [exact Elt|].
              apply Hfar, list_elem_of_lookup. eauto.
           ++ intros j' r' Hj Hr. apply (Qlt_le_trans _ 1e10); [exact Elt|].
              apply Hfar, list_elem_of_lookup. exists j'.
              apply Hin_l; assumption.
        -- left. split; [reflexivity|].
           intros r Hr. apply elem_of_app in Hr as [Hr|Hr]; [apply Hfar, Hr|].
           apply list_elem_of_singleton in Hr. subst r.
           apply (Qlt_b_false_le _ _ Elt).
    + set (m := mean_abs_difference row p_values) in *.
      assert (Hj : (j < length l)%nat) by (apply lookup_lt_Some in Hrow; exact Hrow).
      destruct (Qeq_bool c m) eqn:Eeq.
      * apply Qeq_bool_iff in Eeq. right. exists j, row.
        split; [reflexivity|].
        split; [rewrite lookup_app_l by exact Hj; exact Hrow|].
        split; [exact Hnear|]. split.
        -- intros j' r' Hr. destruct (Hcases j' r' Hr) as [Hr'|[_ ->]];
             [apply (Hmin j' r' Hr') | fold c; rewrite Eeq; apply Qle_refl].
        -- intros j' r' Hj' Hr. apply (Hfirst j' r' Hj').
           apply Hin_l; [lia | exact Hr].
      * destruct (Qlt_b c m) eqn:Elt.
        -- apply Qlt_b_true in Elt. right. exists (length l), x.
           split; [reflexivity|].
           split; [apply list_lookup_middle; reflexivity|].
           split; [apply (Qlt_trans _ m); assumption|]. split.
           ++ intros j' r' Hr. destruct (Hcases j' r' Hr) as [Hr'|[_ ->]];
                [|apply Qle_refl].
              apply Qlt_le_weak, (Qlt_le_trans _ m); [exact Elt|].
              apply (Hmin j' r' Hr').
           ++ intros j' r' Hj' Hr. apply (Qlt_le_trans _ m); [exact Elt|].
              apply (Hmin j' r'). apply Hin_l; assumption.
        -- right. exists j, row.
           split; [reflexivity|].
           split; [rewrite lookup_app_l by exact Hj; exact Hrow|].
           split; [exact Hnear|]. split.
           ++ intros j' r' Hr. destruct (Hcases j' r' Hr) as [Hr'|[_ ->]];
                [apply (Hmin j' r' Hr')|].
              apply (Qlt_b_false_le _ _ Elt).
           ++ intros j' r' Hj' Hr. apply (Hfirst j' r' Hj').
              apply Hin_l; [lia | exact Hr].
Qed.

Lemma find_nearest2_cases param_arrays p_values :
  (1 <= length p_values)%nat ->
  Forall (fun row => length row = length p_values) param_arrays ->
  exists st,
    find_nearest2 param_arrays p_values = Ok st.2 /\
    nearest_so_far param_arrays p_values st.
Proof.
  intros Hp Hshape. unfold find_nearest2.
  destruct (find_nearest2_loop p_values Hp param_arrays Hshape)
    as (st & -> & Hinv).
  exists st. split; [reflexivity | exact Hinv].
Qed.

(** [find_nearest2] on models with as many coordinates as the request:
    it returns -99 when no model has a mean absolute difference below
    1e10, and otherwise the position of a model of least mean absolute
    difference, the first of them in the order of the models. *)
Theorem find_nearest2_first_of_the_nearest param_arrays p_values :
  (1 <= length p_values)%nat ->
  Forall (fun row => length row = length p_values) param_arrays ->
  (find_nearest2 param_arrays p_values = Ok (-99)%Z /\
   forall r, r ∈ param_arrays -> 1e10 <= mean_abs_difference r p_values) \/
  (exists j row,
     find_nearest2 param_arrays p_values = Ok (Z.of_nat j) /\
     param_arrays !! j = Some row /\
     mean_abs_difference row p_values < 1e10 /\
     (forall j' r', param_arrays !! j' = Some r' ->
        mean_abs_difference row p_values <= mean_abs_difference r' p_values) /\
     (forall j' r', (j' < j)%nat -> param_arrays !! j' = Some r' ->
        mean_abs_difference row p_values < mean_abs_difference r' p_values)).
Proof.
  intros Hp Hshape.
  destruct (find_nearest2_cases param_arrays p_values Hp Hshape)
    as (st & Hrun & [[-> Hfar]|(j & row & -> & Hinv)]).
  - left. split; [exact Hrun | exact Hfar].
  - right. exists j, row. split; [exact Hrun | exact Hinv].
Qed.

(** The theorem on the four models of [complete_model] and the request
    (1500, 4.5): the first and the third model are equally near, and
    the first is returned. *)
Lemma find_nearest2_first_of_the_nearest_witness :
  find_nearest2 [[1400; 4.5]; [1400; 5.0]; [1600; 4.5]; [1600; 5.0]]
                [1500; 4.5] = Ok 0%Z /\
  mean_abs_difference [1400; 4.5] [1500; 4.5]
  == mean_abs_difference [1600; 4.5] [1500; 4.5].
Proof.
  split; [reflexivity|].
  destruct (find_nearest2_first_of_the_nearest
              [[1400; 4.5]; [1400; 5.0]; [1600; 4.5]; [1600; 5.0]] [1500; 4.5])
    as [[Hnone _]|(j & row & Hrun & _)].
  - cbn. lia.
  - repeat constructor.
  - discriminate Hnone.
  - reflexivity.
Defined.

(** ** Snapping to the nearest model *)

Lemma py_sum_nonneg l : Forall (fun d => 0 <= d) l -> 0 <= py_sum l.
Proof.
  induction 1 as [|d l Hd _ IH]; [apply Qle_refl|].
  rewrite py_sum_cons.
  setoid_replace 0 with (0 + 0) using relation Qeq by ring.
  apply Qplus_le_compat; assumption.
Qed.

Lemma py_sum_zero l : Forall (fun d => d == 0) l -> py_sum l == 0.
Proof.
  induction 1 as [|d l Hd _ IH]; [reflexivity|].
  rewrite py_sum_cons, Hd, IH. ring.
Qed.

Lemma py_sum_pos l :
  Forall (fun d => 0 <= d) l -> Exists (fun d => 0 < d) l -> 0 < py_sum l.
Proof.
  induction 1 as [|d l Hd Hl IH]; intros Hex; [inversion Hex|].
  rewrite py_sum_cons. apply Exists_cons in Hex as [Hpos|Hex].
  - setoid_replace 0 with (0 + 0) using relation Qeq by ring.
    apply Qplus_lt_le_compat; [exact Hpos | apply py_sum_nonneg, Hl].
  - setoid_replace 0 with (0 + 0) using relation Qeq by ring.
    rewrite (Qplus_comm d). apply Qplus_lt_le_compat; [apply IH, Hex | exact Hd].
Qed.

Lemma abs_differences_nonneg row p :
  Forall (fun d => 0 <= d) (map Qabs (zip_with Qminus row p)).
Proof. apply Forall_fmap, Forall_forall. intros d _. apply Qabs_nonneg. Qed.

Lemma count_positive (n : nat) : (1 <= n)%nat -> 0 < inject_Z (Z.of_nat n).
Proof. intros Hn. change 0 with (inject_Z 0). rewrite <- Zlt_Qlt. lia. Qed.

(** A model with the requested coordinates is at distance zero, and a
    model that differs in a coordinate is at a positive distance. *)
Lemma mean_abs_difference_zero row p :
  Forall2 Qeq row p -> mean_abs_difference row p == 0.
Proof.
  intros Heq. unfold mean_abs_difference. cbv zeta.
  rewrite py_sum_zero; [unfold Qdiv; ring|].
  induction Heq as [|v x row p Hvx _ IH]; [constructor|].
  cbn [zip_with map]. constructor; [|exact IH].
  rewrite Hvx. setoid_replace (x - x) with 0 using relation Qeq by ring.
  reflexivity.
Qed.

Lemma mean_abs_difference_pos row p i v x :
  length row = length p ->
  row !! i = Some v -> p !! i = Some x -> ~ v == x ->
  0 < mean_abs_difference row p.
Proof.
  intros Hlen Hv Hx Hne. unfold mean_abs_difference. cbv zeta.
  set (ds := map Qabs (zip_with Qminus row p)).
  assert (Hn : (1 <= length ds)%nat).
  { unfold ds. rewrite length_map, length_zip_with.
    apply lookup_lt_Some in Hv. apply lookup_lt_Some in Hx. lia. }
  apply Qlt_shift_div_l; [apply count_positive, Hn|].
  rewrite Qmult_0_l.
  apply py_sum_pos; [apply abs_differences_nonneg|].
  apply Exists_exists. exists (Qabs (v - x)). split.
  - unfold ds. apply list_elem_of_lookup. exists i.
    rewrite list_lookup_fmap, lookup_zip_with, Hv, Hx. reflexivity.
  - destruct (Qlt_le_dec 0 (Qabs (v - x))) as [Hpos|Hle]; [exact Hpos|].
    exfalso. apply Hne.
    assert (Hzero : Qabs (v - x) == 0)
      by (apply Qle_antisym; [exact Hle | apply Qabs_nonneg]).
    assert (Hd : v - x == 0).
    { destruct (Qabs_Qle_condition (v - x) 0) as [Hc _].
      rewrite Hzero in Hc. destruct (Hc (Qle_refl 0)) as [Hlo Hhi].
      apply Qle_antisym; assumption. }
    setoid_replace v with (v - x + x) using relation Qeq by ring.
    rewrite Hd. ring.
Qed.

Lemma mean_abs_difference_nonneg row p : 0 <= mean_abs_difference row p.
Proof.
  unfold mean_abs_difference. cbv zeta.
  set (ds := map Qabs (zip_with Qminus row p)).
  destruct (length ds) as [|n] eqn:E.
  - cbn. unfold Qdiv. rewrite Qmult_0_r. apply Qle_refl.
  - apply Qle_shift_div_l; [apply count_positive; lia|].
    rewrite Qmult_0_l. apply py_sum_nonneg, abs_differences_nonneg.
Qed.

Section NearestModel.

Variable self : ModelGrid.
Variable table : list (list Q).
Hypothesis indexed : grid_indexed self table.

Lemma param_row_Ok j : forall names,
  Forall (fun name => name ∈ params self) names ->
  (j < length table)%nat ->
  exists row,
    param_row self names j = Ok row /\
    Forall2 (fun name v =>
               exists pl, plims self !! name = Some pl /\
                          plim_vals pl !! j = Some v) names row.
Proof.
  induction names as [|name rest IH]; intros Hnames Hj.
  - exists []. split; [reflexivity | constructor].
  - apply Forall_cons in Hnames as [Hname Hrest].
    apply list_elem_of_lookup in Hname as [i Hname].
    destruct (indexed_lookup self table indexed i name Hname)
      as (pl & Hpl & Hlen & _).
    destruct (lookup_lt_is_Some_2 (plim_vals pl) j) as [v Hv]; [lia|].
    destruct (IH Hrest Hj) as (row & Hrow & Hall).
    exists (v :: row). cbn [param_row].
    rewrite (dict_get_Some _ _ _ Hpl), bind_ret_l.
    rewrite (py_get_Some _ _ _ Hv), bind_ret_l, Hrow, bind_ret_l.
    split; [reflexivity|]. constructor; [eauto | exact Hall].
Qed.

Lemma param_arrays_of_Ok js :
  Forall (fun j => (j < length table)%nat) js ->
  exists rows,
    param_arrays_of self js = Ok rows /\
    Forall2 (fun j row =>
               Forall2 (fun name v =>
                          exists pl, plims self !! name = Some pl /\
                                     plim_vals pl !! j = Some v)
                       (params self) row) js rows.
Proof.
  induction 1 as [|j js Hj _ IH].
  - exists []. split; [reflexivity | constructor].
  - destruct IH as (rows & Hrows & Hall).
    destruct (param_row_Ok j (params self)) as (row & Hrow & Hcoords);
      [apply Forall_forall; auto | exact Hj |].
    exists (row :: rows). cbn [param_arrays_of].
    rewrite Hrow, bind_ret_l, Hrows, bind_ret_l.
    split; [reflexivity|]. constructor; assumption.
Qed.

(** On a grid whose coverage attribute is false, snapping to a request
    that is exactly the coordinate tuple of model [k], and of no earlier
    model, retrieves the stored flux of model [k] and passes it to the
    common tail (smoothing, resampling, normalization); a flux of a
    single sample raises [TypeError], because the loop that unwraps
    one-element arrays then takes the length of a scalar. *)
Theorem retrieve_model_snaps_to_exact_model falt2 resolution np_interp p k row :
  is_grid_complete self = false ->
  (1 <= ndim self)%nat ->
  length p = ndim self ->
  table !! k = Some row ->
  (forall i name pl x,
     params self !! i = Some name -> plims self !! name = Some pl ->
     p !! i = Some x ->
     exists v, plim_vals pl !! k = Some v /\ v == x) ->
  (forall j, (j < k)%nat ->
     exists i name pl x v,
       params self !! i = Some name /\ plims self !! name = Some pl /\
       p !! i = Some x /\ plim_vals pl !! j = Some v /\ ~ v == x) ->
  retrieve_model falt2 resolution np_interp self p
  = (if (length row =? 1)%nat then Raise TypeError
     else smooth_resample_normalize falt2 resolution np_interp self row).
Proof.
  intros Hcomplete Hnd Hp Hrow Hk Hfirst.
  assert (Hklt : (k < length table)%nat) by (apply lookup_lt_Some in Hrow; exact Hrow).
  destruct (lookup_lt_is_Some_2 (params self) 0) as [name0 Hname0]; [exact Hnd|].
  destruct (indexed_lookup self table indexed 0 name0 Hname0)
    as (pl0 & Hpl0 & Hlen0 & _).
  destruct (param_arrays_of_Ok (seq 0 (length (plim_vals pl0))))
    as (rows & Hrows & Hcoords); [rewrite Hlen0; apply seq_lt|].
  assert (Hrow_of : forall j r, rows !! j = Some r ->
            (j < length table)%nat /\
            Forall2 (fun name v =>
                       exists pl, plims self !! name = Some pl /\
                                  plim_vals pl !! j = Some v)
                    (params self) r).
  { intros j r Hr.
    destruct (Forall2_lookup_r _ _ _ _ _ Hcoords Hr) as (j' & Hj' & Hall).
    apply lookup_seq in Hj' as [-> Hlt]. split; [lia | exact Hall]. }
  assert (Hshape : Forall (fun r => length r = length p) rows).
  { apply Forall_forall. intros r Hr.
    apply list_elem_of_lookup in Hr as [j Hr].
    destruct (Hrow_of j r Hr) as [_ Hall].
    apply Forall2_length in Hall. unfold ndim in Hp. lia. }
  assert (Hrows_len : length rows = length table).
  { apply Forall2_length in Hcoords. rewrite length_seq in Hcoords. lia. }
  destruct (lookup_lt_is_Some_2 rows k) as [row_k Hrow_k]; [lia|].
  assert (Hzero : mean_abs_difference row_k p == 0).
  { apply mean_abs_difference_zero.
    destruct (Hrow_of k row_k Hrow_k) as [_ Hall].
    apply Forall2_same_length_lookup. split.
    - apply Forall2_length in Hall. unfold ndim in Hp. lia.
    - intros i v x Hv Hx.
      destruct (Forall2_lookup_r _ _ _ _ _ Hall Hv) as (name & Hname & pl & Hpl & Hvk).
      destruct (Hk i name pl x Hname Hpl Hx) as (v' & Hv' & Heq).
      rewrite Hvk in Hv'. injection Hv' as <-. exact Heq. }
  destruct (find_nearest2_cases rows p) as (st & Hfind & Hinv);
    [lia | exact Hshape |].
  assert (Hst : st.2 = Z.of_nat k).
  { destruct Hinv as [[-> Hfar]|(j & row_j & -> & Hrow_j & Hnear & Hmin & Hstrict)].
    - exfalso. assert (H : 1e10 <= mean_abs_difference row_k p)
        by (apply Hfar, list_elem_of_lookup; eauto).
      rewrite Hzero in H. vm_compute in H. apply H. reflexivity.
    - cbn [snd]. f_equal.
      destruct (Nat.lt_trichotomy j k) as [Hlt|[Heq|Hgt]]; [|exact Heq|].
      + exfalso.
        destruct (Hfirst j Hlt) as (i & name & pl & x & v & Hname & Hpl & Hx & Hv & Hne).
        destruct (Hrow_of j row_j Hrow_j) as [_ Hall].
        destruct (Forall2_lookup_l _ _ _ _ _ Hall Hname) as (v' & Hv' & pl' & Hpl' & Hvj).
        rewrite Hpl in Hpl'. injection Hpl' as <-.
        rewrite Hv in Hvj. injection Hvj as <-.
        assert (Hpos : 0 < mean_abs_difference row_j p).
        { apply (mean_abs_difference_pos row_j p i v x); try assumption.
          rewrite Forall_forall in Hshape. apply Hshape, list_elem_of_lookup. eauto. }
        specialize (Hmin k row_k Hrow_k). rewrite Hzero in Hmin.
        apply (Qlt_not_le _ _ Hpos Hmin).
      + exfalso. specialize (Hstrict k row_k Hgt Hrow_k). rewrite Hzero in Hstrict.
        apply (Qlt_not_le _ _ Hstrict). apply mean_abs_difference_nonneg. }
  unfold retrieve_model. destruct indexed as [Htable _].
  rewrite Htable. cbn [key_get]. rewrite bind_ret_l, Hcomplete.
  rewrite (py_get_Some _ _ _ Hname0), bind_ret_l.
  rewrite (dict_get_Some _ _ _ Hpl0), bind_ret_l.
  rewrite Hrows, bind_ret_l, Hfind, bind_ret_l, Hst, bind_ret_l.
  unfold py_index.
  replace (0 <=? Z.of_nat k)%Z with true by (symmetry; apply Z.leb_le; lia).
  rewrite Nat2Z.id, (py_get_Some _ _ _ Hrow), bind_ret_l. reflexivity.
Qed.

End NearestModel.

(** The theorem at [incomplete_grid] and the request (1600, 4.5), the
    coordinates of its third model. *)
Lemma retrieve_model_snaps_to_exact_model_witness :
  retrieve_model (fun _ f _ => f) None (fun _ _ f => Ok f)
                 incomplete_grid [1600; 4.5]
  = smooth_resample_normalize (fun _ f _ => f) None (fun _ _ f => Ok f)
                              incomplete_grid [3; 4; 5].
Proof.
  refine (retrieve_model_snaps_to_exact_model incomplete_grid
            [[1; 2; 3]; [2; 3; 4]; [3; 4; 5]] _ (fun _ f _ => f) None
            (fun _ _ f => Ok f) [1600; 4.5] 2%nat [3; 4; 5] _ _ _ _ _ _).
  - split; [reflexivity|].
    repeat constructor; eexists; repeat split; vm_compute; reflexivity.
  - reflexivity.
  - cbn. lia.
  - reflexivity.
  - reflexivity.
  - intros [|[|i]] name pl x Hname Hpl Hx; cbn in Hx, Hname;
      try discriminate;
      injection Hx as <-; injection Hname as <-;
      vm_compute in Hpl; injection Hpl as <-;
      eexists; (split; [reflexivity|]); reflexivity.
  - intros [|[|j]] Hj; [| |lia].
    + exists 0%nat, "teff"%string,
        {| plim_vals := [1400; 1400; 1600];
           plim_min := 1400; plim_max := 1600 |}, 1600, 1400.
      repeat split; try reflexivity. discriminate.
    + exists 0%nat, "teff"%string,
        {| plim_vals := [1400; 1400; 1600];
           plim_min := 1400; plim_max := 1600 |}, 1600, 1400.
      repeat split; try reflexivity. discriminate.
Defined.

(** ** Interpolation outside the grid *)

Lemma for_each_raise {A S} (body : S -> A -> result S) pre x post e :
  (forall s y, y ∈ pre -> exists s', body s y = Ok s') ->
  (forall s, body s x = Raise e) ->
  forall s, for_each body (pre ++ x :: post) s = Raise e.
Proof.
  intros Hpre Hx s. rewrite for_each_app.
  destruct (for_each_total body pre Hpre s) as [s' ->].
  rewrite bind_ret_l, for_each_cons, Hx. reflexivity.
Qed.

Lemma list_filter_none {A} (f : A -> bool) l :
  (forall v, v ∈ l -> f v = false) -> List.filter f l = [].
Proof.
  induction l as [|y l IH]; intros H; [reflexivity|].
  cbn. rewrite (H y) by apply list_elem_of_here.
  apply IH. intros v Hv. apply H, list_elem_of_further, Hv.
Qed.

Lemma py_min_or_ValueError l : (exists m, py_min l = Ok m) \/ py_min l = Raise ValueError.
Proof. destruct l; [right; reflexivity | left; cbn; eauto]. Qed.

Lemma py_max_or_ValueError l : (exists m, py_max l = Ok m) \/ py_max l = Raise ValueError.
Proof. destruct l; [right; reflexivity | left; cbn; eauto]. Qed.

(** Called with a value strictly below every grid value of a dimension,
    or strictly above every one, while the dimensions before it are
    within their limits, [interp_models] raises [ValueError]: the
    maximum or the minimum of an empty selection is taken.  The
    evaluation never gets there, since it checks the limits first. *)
Theorem interp_models_outside_grid_raises falt2 resolution np_interp self p a
    name pl x :
  params self !! a = Some name ->
  plims self !! name = Some pl ->
  p !! a = Some x ->
  ((forall v, v ∈ plim_vals pl -> x < v) \/
   (forall v, v ∈ plim_vals pl -> v < x)) ->
  (forall i, (i < a)%nat ->
     exists name_i pl_i x_i,
       params self !! i = Some name_i /\ plims self !! name_i = Some pl_i /\
       p !! i = Some x_i /\
       py_min (plim_vals pl_i) = Ok (plim_min pl_i) /\
       py_max (plim_vals pl_i) = Ok (plim_max pl_i) /\
       plim_min pl_i <= x_i <= plim_max pl_i) ->
  interp_models falt2 resolution np_interp self p = Raise ValueError.
Proof.
  intros Hname Hpl Hx Hout Hbefore.
  assert (Ha : (a < ndim self)%nat) by (apply lookup_lt_Some in Hname; exact Hname).
  assert (Hnotin : np_in x (plim_vals pl) = false).
  { apply not_true_iff_false. intros Hin.
    apply existsb_exists in Hin as (v & Hv & Heq).
    apply list_elem_of_In in Hv. apply Qeq_bool_iff in Heq.
    destruct Hout as [Hlow|Hhigh].
    - specialize (Hlow v Hv). rewrite Heq in Hlow. apply (Qlt_irrefl _ Hlow).
    - specialize (Hhigh v Hv). rewrite Heq in Hhigh. apply (Qlt_irrefl _ Hhigh). }
  assert (Hstep : forall st, grid_edges_step self p st a = Raise ValueError).
  { intros [E s]. unfold grid_edges_step.
    rewrite (py_get_Some _ _ _ Hx), bind_ret_l.
    rewrite (py_get_Some _ _ _ Hname), bind_ret_l.
    rewrite (dict_get_Some _ _ _ Hpl), bind_ret_l, Hnotin.
    destruct Hout as [Hlow|Hhigh].
    - rewrite (list_filter_none (fun v => Qlt_b v x)); [reflexivity|].
      intros v Hv. apply not_true_iff_false. rewrite Qlt_b_true.
      intros Hlt. apply (Qlt_irrefl x), (Qlt_trans _ v); [apply Hlow, Hv | exact Hlt].
    - destruct (py_max_or_ValueError (List.filter (fun v => Qlt_b v x) (plim_vals pl)))
        as [[dn ->]| ->]; [|reflexivity].
      rewrite bind_ret_l.
      rewrite (list_filter_none (fun v => Qlt_b x v)); [reflexivity|].
      intros v Hv. apply not_true_iff_false. rewrite Qlt_b_true.
      intros Hlt. apply (Qlt_irrefl x), (Qlt_trans _ v); [exact Hlt | apply Hhigh, Hv]. }
  assert (Hpre : forall st i, i ∈ seq 0 a ->
            exists st', grid_edges_step self p st i = Ok st').
  { intros [E s] i Hi. apply elem_of_seq in Hi.
    destruct (Hbefore i) as (name_i & pl_i & x_i & Hn & Hp & Hxi & Hmin & Hmax & Hlo & Hhi);
      [lia|].
    unfold grid_edges_step.
    rewrite (py_get_Some _ _ _ Hxi), bind_ret_l.
    rewrite (py_get_Some _ _ _ Hn), bind_ret_l.
    rewrite (dict_get_Some _ _ _ Hp), bind_ret_l.
    destruct (np_in x_i (plim_vals pl_i)) eqn:Hin; [eexists; reflexivity|].
    destruct (edge_below pl_i x_i Hmin Hlo Hin) as [dn ->].
    destruct (edge_above pl_i x_i Hmax Hhi Hin) as [up ->].
    eexists. reflexivity. }
  unfold interp_models, grid_edges_of.
  replace (seq 0 (ndim self)) with (seq 0 a ++ a :: seq (S a) (ndim self - S a)).
  2:{ change (a :: seq (S a) (ndim self - S a)) with (seq (0 + a) (S (ndim self - S a))).
      rewrite <- seq_app. f_equal. lia. }
  rewrite (for_each_raise _ _ _ _ ValueError Hpre Hstep). reflexivity.
Qed.

(** The theorem at [complete_grid] and a temperature of 1300, below the
    grid. *)
Lemma interp_models_outside_grid_raises_witness :
  interp_models (fun _ f _ => f) None (fun _ _ f => Ok f)
                complete_grid [1300; 4.5] = Raise ValueError.
Proof.
  apply (interp_models_outside_grid_raises (fun _ f _ => f) None
           (fun _ _ f => Ok f) complete_grid [1300; 4.5] 0 "teff"
           {| plim_vals := [1400; 1400; 1600; 1600];
              plim_min := 1400; plim_max := 1600 |} 1300).
  - reflexivity.
  - reflexivity.
  - reflexivity.
  - left. intros v Hv.
    repeat (apply elem_of_cons in Hv as [->|Hv]; [reflexivity|]).
    inversion Hv.
  - intros i Hi. lia.
Defined.

(** ** The blending weight and the blend *)

Lemma fourth_power_increasing a b : 0 <= a -> a < b -> a ^ 4 < b ^ 4.
Proof.
  intros Ha Hab.
  setoid_replace (a ^ 4) with ((a * a) * (a * a)) using relation Qeq by ring.
  setoid_replace (b ^ 4) with ((b * b) * (b * b)) using relation Qeq by ring.
  assert (Hsq : a * a < b * b) by nra.
  nra.
Qed.

Lemma quotient_between_zero_and_one n d : 0 < n -> n < d -> 0 < n * 1 / d < 1.
Proof.
  intros Hn Hnd.
  assert (Hd : 0 < d) by lra.
  split.
  - apply Qlt_shift_div_l; [exact Hd|]. lra.
  - apply Qlt_shift_div_r; [exact Hd|]. lra.
Qed.

Lemma float_div_Ok a b : ~ b == 0 -> float_div a b = Ok (a / b).
Proof.
  intros Hb. unfold float_div.
  destruct (Qeq_bool b 0) eqn:E; [|reflexivity].
  apply Qeq_bool_iff in E. contradiction.
Qed.

Lemma float_div_zero a b : b == 0 -> float_div a b = Raise NonFinite.
Proof.
  intros Hb. unfold float_div.
  replace (Qeq_bool b 0) with true; [reflexivity|].
  symmetry. apply Qeq_bool_iff, Hb.
Qed.

(** The weight the routine computes from its two edge values: the
    quotient of fourth powers for ['teff'], the linear one otherwise. *)
Lemma coeff_teff t L U :
  ~ U ^ 4 == L ^ 4 ->
  exists w, coeff "teff" t L U = Ok w /\
            w == (t ^ 4 - L ^ 4) / (U ^ 4 - L ^ 4).
Proof.
  intros Hden. eexists. split.
  - unfold coeff. cbn [String.eqb Ascii.eqb Bool.eqb].
    apply float_div_Ok. intros H. apply Hden.
    rewrite <- (Qplus_0_l (L ^ 4)), <- H. ring.
  - unfold Qdiv. ring.
Qed.

Lemma coeff_teff_zero t L U :
  U ^ 4 == L ^ 4 -> coeff "teff" t L U = Raise NonFinite.
Proof.
  intros Hden. unfold coeff. cbn [String.eqb Ascii.eqb Bool.eqb].
  apply float_div_zero. rewrite Hden. ring.
Qed.

(** For a target strictly between the lower and the upper value the
    weight is computed and lies strictly between 0 and 1, for the linear
    rule and, when the lower value is not negative, for the fourth-power
    rule of ['teff']. *)
Lemma coeff_between name t L U :
  L < t -> t < U ->
  (name = "teff"%string -> 0 <= L) ->
  exists w, coeff name t L U = Ok w /\ 0 < w < 1 /\
            w == (if String.eqb name "teff"
                  then (t ^ 4 - L ^ 4) / (U ^ 4 - L ^ 4)
                  else (t - L) / (U - L)).
Proof.
  intros HLt HtU Hteff. unfold coeff.
  destruct (String.eqb name "teff") eqn:E.
  - apply String.eqb_eq in E. specialize (Hteff E).
    assert (Ht : 0 <= t)
      by (apply (Qle_trans _ L); [exact Hteff | apply Qlt_le_weak, HLt]).
    pose proof (fourth_power_increasing L t Hteff HLt) as H1.
    pose proof (fourth_power_increasing t U Ht HtU) as H2.
    eexists. split; [apply float_div_Ok; lra|].
    split; [apply quotient_between_zero_and_one; lra|].
    unfold Qdiv. ring.
  - eexists. split; [apply float_div_Ok; lra|].
    split; [apply quotient_between_zero_and_one; lra|].
    unfold Qdiv. ring.
Qed.

Lemma Qeq_bool_zero_proper a b : a == b -> Qeq_bool a 0 = Qeq_bool b 0.
Proof.
  intros Hab. destruct (Qeq_bool b 0) eqn:E.
  - apply Qeq_bool_iff. rewrite Hab. apply Qeq_bool_iff, E.
  - apply not_true_iff_false. intros H. apply not_true_iff_false in E.
    apply E, Qeq_bool_iff. rewrite <- Hab. apply Qeq_bool_iff, H.
Qed.

(** Equal edge values give the same outcome of the weight. *)
Lemma coeff_proper name t L L' U U' :
  L' == L -> U' == U ->
  (coeff name t L' U' = Raise NonFinite /\
   coeff name t L U = Raise NonFinite) \/
  (exists w' w, coeff name t L' U' = Ok w' /\ coeff name t L U = Ok w /\
                w' == w).
Proof.
  intros HL HU. unfold coeff, float_div.
  destruct (String.eqb name "teff").
  - assert (Hd : U' ^ 4 - L' ^ 4 == U ^ 4 - L ^ 4) by (rewrite HL, HU; reflexivity).
    rewrite (Qeq_bool_zero_proper _ _ Hd).
    destruct (Qeq_bool (U ^ 4 - L ^ 4) 0); [left; split; reflexivity|].
    right. eexists _, _. split; [reflexivity|]. split; [reflexivity|].
    rewrite HL, HU. reflexivity.
  - assert (Hd : U' - L' == U - L) by (rewrite HL, HU; reflexivity).
    rewrite (Qeq_bool_zero_proper _ _ Hd).
    destruct (Qeq_bool (U - L) 0); [left; split; reflexivity|].
    right. eexists _, _. split; [reflexivity|]. split; [reflexivity|].
    rewrite HL, HU. reflexivity.
Qed.

(** ** Normalization does not depend on the scale of the model *)

Lemma scaled_normalization_pointwise (m : list Q) c ck ck' :
  c * ck' == ck ->
  Forall2 Qeq (map (fun x => x * ck') (map (fun x => x * c) m))
              (map (fun x => x * ck) m).
Proof.
  intros H. induction m as [|x m IH]; [constructor|].
  cbn [map]. constructor; [|exact IH].
  rewrite <- H. ring.
Qed.

(** The flux [normalize_model] returns is the same, number for number,
    when the model flux is first multiplied by a non-zero factor: the
    arbitrary luminosity of a model does not matter. *)
Theorem normalize_model_scale_invariant self model_flux c :
  length model_flux = length (flux self) ->
  length (unc self) = length (flux self) ->
  ~ c == 0 ->
  ~ weighted_dot model_flux model_flux (unc self) == 0 ->
  exists out out',
    normalize_model self model_flux = Ok out /\
    normalize_model self (map (fun x => x * c) model_flux) = Ok out' /\
    Forall2 Qeq out' out.
Proof.
  intros Hm Hu Hc Hden.
  unfold normalize_model.
  rewrite (normalize_model_ck_eq self model_flux Hm Hu).
  rewrite (normalize_model_ck_eq self (map (fun x => x * c) model_flux))
    by (rewrite ?length_map; assumption).
  rewrite !bind_ret_l. cbn [fst].
  eexists _, _. split; [reflexivity|]. split; [reflexivity|].
  apply scaled_normalization_pointwise.
  rewrite !py_sum_weighted_dot, weighted_dot_scale_r, weighted_dot_scale_both.
  field. split; assumption.
Qed.

Lemma normalize_model_scale_invariant_witness :
  exists out out',
    normalize_model complete_grid [1; 2; 3] = Ok out /\
    normalize_model complete_grid (map (fun x => x * 10) [1; 2; 3]) = Ok out' /\
    Forall2 Qeq out' out.
Proof.
  apply (normalize_model_scale_invariant complete_grid [1; 2; 3] 10);
    [reflexivity | reflexivity | discriminate | discriminate].
Defined.

(** ** Interpolation in one dimension *)

Lemma tuple_eqb_differs l1 l2 j u v :
  l1 !! j = Some u -> l2 !! j = Some v -> ~ u == v -> tuple_eqb l1 l2 = false.
Proof.
  intros Hu Hv Hne. apply not_true_iff_false. intros H.
  unfold tuple_eqb in H. apply andb_true_iff in H as [_ H].
  rewrite forallb_forall in H. specialize (H (u, v)).
  apply Hne, Qeq_bool_iff, H, list_elem_of_In, list_elem_of_lookup.
  exists j. rewrite lookup_zip_with, Hu, Hv. reflexivity.
Qed.

Lemma nat_in_false i l : nat_in i l = false <-> i ∉ l.
Proof. rewrite <- nat_in_true. destruct (nat_in i l); split; congruence. Qed.

Section OneInterpolated.

Variable self : ModelGrid.
Variable p : list Q.
Variable a : nat.
Variable name_a : string.
Variable pl_a : Plim.
Variables x dn up : Q.

Hypothesis params_distinct : NoDup (params self).
Hypothesis p_length : length p = ndim self.
Hypothesis a_name : params self !! a = Some name_a.
Hypothesis a_plim : plims self !! name_a = Some pl_a.
Hypothesis a_value : p !! a = Some x.
Hypothesis a_off_grid : np_in x (plim_vals pl_a) = false.
Hypothesis a_lower :
  py_max (List.filter (fun v => Qlt_b v x) (plim_vals pl_a)) = Ok dn.
Hypothesis a_upper :
  py_min (List.filter (fun v => Qlt_b x v) (plim_vals pl_a)) = Ok up.
Hypothesis others_on_grid :
  forall i y name, i <> a -> p !! i = Some y -> params self !! i = Some name ->
    exists pl, plims self !! name = Some pl /\ np_in y (plim_vals pl) = true.

Lemma a_in_range : (a < ndim self)%nat.
Proof. apply lookup_lt_Some in a_name. exact a_name. Qed.

Lemma lower_below_upper : dn < x /\ x < up.
Proof.
  split.
  - apply py_max_elem, list_elem_of_In, filter_In in a_lower as [_ H].
    apply Qlt_b_true, H.
  - apply py_min_elem, list_elem_of_In, filter_In in a_upper as [_ H].
    apply Qlt_b_true, H.
Qed.

Lemma lower_is_not_upper : ~ dn == up.
Proof.
  destruct lower_below_upper as [H1 H2]. intros Heq. rewrite Heq in H1.
  apply (Qlt_irrefl x), (Qlt_trans _ up); assumption.
Qed.

(** The dimensions other than [a], in order. *)
Lemma grid_edges_step_on_grid E0 s0 i y name :
  i <> a -> p !! i = Some y -> params self !! i = Some name ->
  grid_edges_step self p (E0, s0) i = Ok (<[name := [y]]> E0, s0 ++ [i]).
Proof.
  intros Hi Hy Hname.
  destruct (others_on_grid i y name Hi Hy Hname) as (pl & Hpl & Hin).
  unfold grid_edges_step.
  rewrite (py_get_Some _ _ _ Hy), bind_ret_l.
  rewrite (py_get_Some _ _ _ Hname), bind_ret_l.
  rewrite (dict_get_Some _ _ _ Hpl), bind_ret_l, Hin. reflexivity.
Qed.

Lemma grid_edges_step_between E0 s0 :
  grid_edges_step self p (E0, s0) a = Ok (<[name_a := [dn; up]]> E0, s0).
Proof.
  unfold grid_edges_step.
  rewrite (py_get_Some _ _ _ a_value), bind_ret_l.
  rewrite (py_get_Some _ _ _ a_name), bind_ret_l.
  rewrite (dict_get_Some _ _ _ a_plim), bind_ret_l, a_off_grid.
  rewrite a_lower, bind_ret_l, a_upper, bind_ret_l. reflexivity.
Qed.

(** A run of the first loop over dimensions that are all on the grid. *)
Lemma grid_edges_on_grid_range n : forall b (E0 : gmap string (list Q)) s0,
  (b + n <= ndim self)%nat ->
  (a < b \/ b + n <= a)%nat ->
  exists E : gmap string (list Q),
    for_each (grid_edges_step self p) (seq b n) (E0, s0)
      = Ok (E, s0 ++ seq b n) /\
    forall i name, params self !! i = Some name ->
      ((b <= i < b + n)%nat -> exists y, p !! i = Some y /\ E !! name = Some [y]) /\
      (~ (b <= i < b + n)%nat -> E !! name = E0 !! name).
Proof.
  induction n as [|n IH]; intros b E0 s0 Hb Ha.
  - exists E0. split; [cbn; rewrite app_nil_r; reflexivity|].
    intros i name Hname. split; [lia | reflexivity].
  - destruct (lookup_lt_is_Some_2 p b) as [y Hy]; [lia|].
    destruct (lookup_lt_is_Some_2 (params self) b) as [name_b Hname_b];
      [unfold ndim in Hb; lia|].
    cbn [seq]. rewrite for_each_cons.
    rewrite (grid_edges_step_on_grid E0 s0 b y name_b) by (lia || assumption).
    rewrite bind_ret_l.
    destruct (IH (S b) (<[name_b := [y]]> E0) (s0 ++ [b])) as (E & HE & Hinv);
      [lia | lia |].
    exists E. split; [rewrite HE, <- app_assoc; reflexivity|].
    intros i name Hname. destruct (Hinv i name Hname) as [Hin Hout]. split.
    + intros Hi. destruct (decide (i = b)) as [->|Hne].
      * exists y. split; [exact Hy|]. rewrite Hout by lia.
        replace name with name_b by congruence. apply lookup_insert_eq.
      * apply Hin. lia.
    + intros Hi. rewrite Hout by lia. apply lookup_insert_ne.
      intros ->. pose proof (NoDup_lookup _ _ _ _ params_distinct Hname_b Hname).
      lia.
Qed.

Lemma seq_split_at : 
  seq 0 (ndim self) = seq 0 a ++ a :: seq (S a) (ndim self - S a).
Proof.
  pose proof a_in_range.
  change (a :: seq (S a) (ndim self - S a))
    with (seq (0 + a) (S (ndim self - S a))).
  rewrite <- seq_app. f_equal. lia.
Qed.

(** The edges found: both neighbours in dimension [a], the requested
    value in every other dimension. *)
Lemma grid_edges_one_between :
  exists E : gmap string (list Q),
    grid_edges_of self p
      = Ok (E, seq 0 a ++ seq (S a) (ndim self - S a)) /\
    E !! name_a = Some [dn; up] /\
    forall i name, i <> a -> params self !! i = Some name ->
      exists y, p !! i = Some y /\ E !! name = Some [y].
Proof.
  pose proof a_in_range as Ha.
  destruct (grid_edges_on_grid_range a 0 ∅ []) as (E1 & HE1 & Hinv1);
    [lia | lia |].
  destruct (grid_edges_on_grid_range (ndim self - S a) (S a)
              (<[name_a := [dn; up]]> E1) ([] ++ seq 0 a))
    as (E2 & HE2 & Hinv2); [lia | lia |].
  exists E2. unfold grid_edges_of.
  rewrite seq_split_at, for_each_app, HE1, bind_ret_l, for_each_cons.
  rewrite grid_edges_step_between, bind_ret_l, HE2.
  split; [reflexivity|]. split.
  - destruct (Hinv2 a name_a a_name) as [_ Hout].
    rewrite Hout by lia. apply lookup_insert_eq.
  - intros i name Hi Hname.
    destruct (Hinv2 i name Hname) as [Hin2 Hout2].
    destruct (decide (i < a)%nat) as [Hlt|Hge].
    + destruct (Hinv1 i name Hname) as [Hin1 _].
      destruct Hin1 as (y & Hy & HE); [lia|].
      exists y. split; [exact Hy|]. rewrite Hout2 by lia.
      rewrite lookup_insert_ne; [exact HE|].
      intros ->. pose proof (NoDup_lookup _ _ _ _ params_distinct a_name Hname).
      lia.
    + apply Hin2. apply lookup_lt_Some in Hname. unfold ndim. lia.
Qed.

Lemma others_spec i :
  i ∈ seq 0 a ++ seq (S a) (ndim self - S a) <->
  (i < ndim self)%nat /\ i <> a.
Proof.
  pose proof a_in_range. rewrite elem_of_app, !elem_of_seq. lia.
Qed.

Lemma to_interp_one :
  to_interp_of (ndim self) (seq 0 a ++ seq (S a) (ndim self - S a)) = [a].
Proof.
  unfold to_interp_of. rewrite seq_split_at at 1.
  rewrite List.filter_app. cbn [List.filter].
  replace (nat_in a (seq 0 a ++ seq (S a) (ndim self - S a))) with false.
  2:{ symmetry. apply nat_in_false. rewrite others_spec. lia. }
  cbn [negb].
  rewrite !list_filter_none; [reflexivity | |];
    intros i Hi; apply negb_false_iff, nat_in_true, others_spec;
    apply elem_of_seq in Hi; pose proof a_in_range; lia.
Qed.

(** The loop over the pinned dimensions writes the requested value in
    both rows. *)
Lemma corners_single_two_rows (E : gmap string (list Q)) :
  (forall i name, i <> a -> params self !! i = Some name ->
     exists y, p !! i = Some y /\ E !! name = Some [y]) ->
  forall idxs r0 r1,
    Forall (fun i => (i < ndim self)%nat /\ i <> a) idxs ->
    for_each (corners_single_step self E 2) idxs [r0; r1]
    = Ok [fold_left (fun r i => <[i := default 0 (p !! i)]> r) idxs r0;
          fold_left (fun r i => <[i := default 0 (p !! i)]> r) idxs r1].
Proof.
  intros HE. induction idxs as [|i idxs IH]; intros r0 r1 Hidxs;
    [reflexivity|].
  apply Forall_cons in Hidxs as [[Hi Hne] Hidxs].
  destruct (lookup_lt_is_Some_2 (params self) i Hi) as [name Hname].
  destruct (HE i name Hne Hname) as (y & Hy & HEy).
  rewrite for_each_cons.
  set (continue := for_each _ idxs). unfold corners_single_step.
  rewrite (py_get_Some _ _ _ Hname), bind_ret_l.
  rewrite (dict_get_Some _ _ _ HEy), bind_ret_l.
  change (py_get [y] 0) with (Ok y). rewrite !bind_ret_l.
  change (np_put_col (np_arange 2) i y [r0; r1])
    with [<[i := y]> r0; <[i := y]> r1].
  subst continue. rewrite (IH _ _ Hidxs). cbn [fold_left]. rewrite Hy. reflexivity.
Qed.

Lemma fold_insert_lookup idxs : forall (r : list Q) c,
  fold_left (fun r i => <[i := default 0 (p !! i)]> r) idxs r !! c
  = if decide (c ∈ idxs /\ (c < length r)%nat)
    then Some (default 0 (p !! c)) else r !! c.
Proof.
  induction idxs as [|i idxs IH]; intros r c; cbn [fold_left].
  - destruct (decide _) as [[H _]|_]; [inversion H | reflexivity].
  - rewrite IH, length_insert.
    destruct (decide (c ∈ idxs /\ (c < length r)%nat)) as [[Hin Hlt]|Hout].
    + rewrite decide_True; [reflexivity|].
      split; [apply list_elem_of_further, Hin | exact Hlt].
    + destruct (decide (c = i)) as [->|Hne].
      * destruct (decide (i < length r)%nat) as [Hlt|Hge].
        -- rewrite list_lookup_insert_eq by exact Hlt.
           rewrite decide_True; [reflexivity|].
           split; [apply list_elem_of_here | exact Hlt].
        -- rewrite list_insert_ge by lia.
           rewrite decide_False; [reflexivity|]. intros [_ Hlt]. lia.
      * rewrite list_lookup_insert_ne by congruence.
        rewrite decide_False; [reflexivity|]. intros [Hin Hlt].
        apply Hout. apply elem_of_cons in Hin as [->|Hin]; [congruence|].
        split; assumption.
Qed.

Lemma pinned_columns_filled :
  fold_left (fun r i => <[i := default 0 (p !! i)]> r)
            (seq 0 a ++ seq (S a) (ndim self - S a))
            (replicate (ndim self) 0)
  = <[a := 0]> p.
Proof.
  pose proof a_in_range as Ha.
  apply list_eq. intros c. rewrite fold_insert_lookup, length_replicate.
  destruct (decide (c = a)) as [->|Hne].
  - rewrite decide_False by (rewrite others_spec; lia).
    rewrite lookup_replicate_2 by exact Ha.
    rewrite list_lookup_insert_eq by lia. reflexivity.
  - rewrite list_lookup_insert_ne by congruence.
    destruct (decide (c < ndim self)%nat) as [Hlt|Hge].
    + rewrite decide_True by (rewrite others_spec; lia).
      destruct (lookup_lt_is_Some_2 p c) as [y Hy]; [lia|].
      rewrite Hy. reflexivity.
    + rewrite decide_False by lia.
      rewrite (proj1 (lookup_replicate_None _ _ _)) by lia.
      symmetry. apply lookup_ge_None. lia.
Qed.

(** The two corners gathered: the request with the lower and with the
    upper neighbour in dimension [a]. *)
Lemma grid_corners_of_one_between (E : gmap string (list Q)) :
  E !! name_a = Some [dn; up] ->
  (forall i name, i <> a -> params self !! i = Some name ->
     exists y, p !! i = Some y /\ E !! name = Some [y]) ->
  grid_corners_of self E (seq 0 a ++ seq (S a) (ndim self - S a))
  = Ok [<[a := dn]> p; <[a := up]> p].
Proof.
  intros Ha HE. pose proof a_in_range as Hlt. unfold grid_corners_of.
  rewrite to_interp_one.
  replace (length (seq 0 a ++ seq (S a) (ndim self - S a)))
    with (ndim self - 1)%nat by (rewrite length_app, !length_seq; lia).
  replace (ndim self - (ndim self - 1))%nat with 1%nat by lia.
  change (2 ^ 1)%nat with 2%nat.
  change (np_zeros2 2 (ndim self))
    with [replicate (ndim self) 0; replicate (ndim self) 0].
  rewrite (corners_single_two_rows E HE)
    by (apply Forall_forall; intros i Hi; apply others_spec, Hi).
  rewrite bind_ret_l, pinned_columns_filled.
  rewrite for_each_cons. unfold corners_interp_step.
  rewrite (py_get_Some _ _ _ a_name), bind_ret_l.
  rewrite (dict_get_Some _ _ _ Ha), bind_ret_l.
  change (py_get [dn; up] 0) with (Ok dn). rewrite !bind_ret_l.
  rewrite (dict_get_Some _ _ _ Ha), bind_ret_l.
  change (py_get [dn; up] 1) with (Ok up). rewrite bind_ret_l.
  cbn [for_each]. f_equal.
  change (np_arange 2) with [0%nat; 1%nat]. cbn [map].
  unfold corner_loc. cbn [Nat.eqb].
  change (np_where [(0 =? (Z.of_nat 0 / 1) mod 2)%Z; (0 =? (Z.of_nat 1 / 1) mod 2)%Z])
    with [0%nat].
  change (np_where [negb ((Z.of_nat 0 / 1) mod 2 =? 0)%Z;
                    negb ((Z.of_nat 1 / 1) mod 2 =? 0)%Z]) with [1%nat].
  unfold np_put_col. cbn [fold_left].
  cbn [alter list_alter]. rewrite !list_insert_insert_eq. reflexivity.
Qed.

(** The spectra looked up for the two corners; the dictionary holds the
    second corner first. *)
Lemma gather_two_corners r0 r1 k0 k1 table s0 s1 :
  find_i_of self r0 = Ok [k0] -> find_i_of self r1 = Ok [k1] ->
  model_flux (model self) = Some table ->
  table !! k0 = Some s0 -> table !! k1 = Some s1 ->
  gather_corner_spectra self [r0; r1] []
  = Ok (Some [(r1, s1); (r0, s0)]).
Proof.
  intros H0 H1 Hm Hs0 Hs1. cbn [gather_corner_spectra].
  rewrite H0, bind_ret_l, Hm. cbn [length Nat.eqb negb key_get].
  rewrite bind_ret_l. change (py_get [k0] 0) with (Ok k0).
  rewrite bind_ret_l, (py_get_Some _ _ _ Hs0), bind_ret_l.
  rewrite H1, bind_ret_l. cbn [length Nat.eqb negb].
  rewrite bind_ret_l. change (py_get [k1] 0) with (Ok k1).
  rewrite bind_ret_l, (py_get_Some _ _ _ Hs1), bind_ret_l.
  reflexivity.
Qed.

Lemma not_the_interpolated i : i <> a -> nat_in i [a] = false.
Proof.
  intros Hi. apply nat_in_false. rewrite list_elem_of_singleton. exact Hi.
Qed.

Lemma is_pinned i :
  i <> a -> (i < ndim self)%nat ->
  nat_in i (seq 0 a ++ seq (S a) (ndim self - S a)) = true.
Proof. intros Hi Hlt. apply nat_in_true, others_spec. split; assumption. Qed.

(** A pass of the reduction over a pinned dimension, two corners left. *)
Lemma reduce_pinned_two_rows r0 r1 s0 s1 i y :
  i <> a -> (i < ndim self)%nat ->
  r0 !! i = Some y -> r1 !! i = Some y ->
  tuple_eqb (drop i r0) (drop i r1) = false ->
  reduce_step self p (seq 0 a ++ seq (S a) (ndim self - S a)) [a]
    ([drop i r0; drop i r1], [(drop i r1, s1); (drop i r0, s0)]) i
  = Ok ([drop (S i) r0; drop (S i) r1],
        [(drop (S i) r1, s1); (drop (S i) r0, s0)]).
Proof.
  intros Hi Hlt Hy0 Hy1 Hdiff. unfold reduce_step.
  rewrite (not_the_interpolated i Hi), (is_pinned i Hi Hlt).
  rewrite (drop_S _ _ _ Hy0), (drop_S _ _ _ Hy1) in *.
  set (d0 := drop (S i) r0) in *. set (d1 := drop (S i) r1) in *.
  change (py_get [y :: d0; y :: d1] 0) with (Ok (y :: d0)).
  rewrite bind_ret_l.
  change (py_get (y :: d0) 0) with (Ok y). rewrite bind_ret_l.
  change (map (drop 1) [y :: d0; y :: d1]) with [d0; d1].
  rewrite for_each_cons. cbn [tuple_get].
  rewrite Hdiff, tuple_eqb_refl, !bind_ret_l.
  rewrite for_each_cons. cbn [tuple_get].
  rewrite tuple_eqb_refl, !bind_ret_l. reflexivity.
Qed.

(** The pass over the interpolated dimension blends the two spectra. *)
Lemma reduce_interp_two_rows r0 r1 s0 s1 :
  r0 !! a = Some dn -> r1 !! a = Some up ->
  drop (S a) r0 = drop (S a) r1 ->
  reduce_step self p (seq 0 a ++ seq (S a) (ndim self - S a)) [a]
    ([drop a r0; drop a r1], [(drop a r1, s1); (drop a r0, s0)]) a
  = (w ← coeff name_a x dn up;
     blended ← blend s0 s1 w;
     Ok ([drop (S a) r0], [(drop (S a) r0, blended)])).
Proof.
  intros H0 H1 Htail. unfold reduce_step.
  replace (nat_in a [a]) with true
    by (symmetry; apply nat_in_true, list_elem_of_here).
  rewrite (drop_S _ _ _ H0), (drop_S _ _ _ H1), <- Htail.
  set (d := drop (S a) r0).
  change (py_get [dn :: d; up :: d] 0) with (Ok (dn :: d)).
  rewrite bind_ret_l.
  change (py_get (dn :: d) 0) with (Ok dn). rewrite bind_ret_l.
  change (length [dn :: d; up :: d] / 2)%nat with 1%nat.
  change (py_get [dn :: d; up :: d] 1) with (Ok (up :: d)).
  rewrite bind_ret_l.
  change (py_get (up :: d) 0) with (Ok up). rewrite bind_ret_l.
  rewrite (py_get_Some _ _ _ a_name), bind_ret_l.
  rewrite (py_get_Some _ _ _ a_value), bind_ret_l.
  change (map (drop 1) (take 1 [dn :: d; up :: d])) with [d].
  destruct (coeff name_a x dn up) as [w|e]; [|reflexivity].
  rewrite !bind_ret_l, for_each_cons. cbn [tuple_get].
  rewrite (tuple_eqb_differs (dn :: d) (up :: d) 0 dn up eq_refl eq_refl
             lower_is_not_upper).
  rewrite !tuple_eqb_refl, !bind_ret_l.
  destruct (blend s0 s1 w); reflexivity.
Qed.

(** A pass over a pinned dimension, one corner left. *)
Lemma reduce_pinned_one_row r blended i y :
  i <> a -> (i < ndim self)%nat -> r !! i = Some y ->
  reduce_step self p (seq 0 a ++ seq (S a) (ndim self - S a)) [a]
    ([drop i r], [(drop i r, blended)]) i
  = Ok ([drop (S i) r], [(drop (S i) r, blended)]).
Proof.
  intros Hi Hlt Hy. unfold reduce_step.
  rewrite (not_the_interpolated i Hi), (is_pinned i Hi Hlt).
  rewrite (drop_S _ _ _ Hy). set (d := drop (S i) r).
  change (py_get [y :: d] 0) with (Ok (y :: d)). rewrite bind_ret_l.
  change (py_get (y :: d) 0) with (Ok y). rewrite bind_ret_l.
  change (map (drop 1) [y :: d]) with [d].
  rewrite for_each_cons. cbn [tuple_get].
  rewrite tuple_eqb_refl, !bind_ret_l. reflexivity.
Qed.

Lemma reduce_loop_before r0 r1 s0 s1 :
  length r0 = ndim self ->
  (forall i, i <> a -> r0 !! i = r1 !! i) ->
  r0 !! a = Some dn -> r1 !! a = Some up ->
  forall n i, (i + n <= a)%nat ->
    for_each (reduce_step self p (seq 0 a ++ seq (S a) (ndim self - S a)) [a])
      (seq i n) ([drop i r0; drop i r1], [(drop i r1, s1); (drop i r0, s0)])
    = Ok ([drop (i + n) r0; drop (i + n) r1],
          [(drop (i + n) r1, s1); (drop (i + n) r0, s0)]).
Proof.
  intros Hlen Hsame H0 H1. pose proof a_in_range as Ha.
  induction n as [|n IH]; intros i Hi.
  - rewrite Nat.add_0_r. reflexivity.
  - cbn [seq]. rewrite for_each_cons.
    destruct (lookup_lt_is_Some_2 r0 i) as [y Hy]; [lia|].
    rewrite (reduce_pinned_two_rows r0 r1 s0 s1 i y); try lia.
    + rewrite bind_ret_l, IH by lia.
      replace (S i + n)%nat with (i + S n)%nat by lia. reflexivity.
    + exact Hy.
    + rewrite <- Hsame by lia. exact Hy.
    + apply (tuple_eqb_differs _ _ (a - i) dn up).
      * rewrite lookup_drop. replace (i + (a - i))%nat with a by lia.
        exact H0.
      * rewrite lookup_drop. replace (i + (a - i))%nat with a by lia.
        exact H1.
      * exact lower_is_not_upper.
Qed.

Lemma reduce_loop_after r blended :
  length r = ndim self ->
  forall n i, (a < i)%nat -> (i + n = ndim self)%nat ->
    for_each (reduce_step self p (seq 0 a ++ seq (S a) (ndim self - S a)) [a])
      (seq i n) ([drop i r], [(drop i r, blended)])
    = Ok ([[]], [([], blended)]).
Proof.
  intros Hlen. induction n as [|n IH]; intros i Hi Hn.
  - cbn [seq for_each]. rewrite drop_ge by lia. reflexivity.
  - cbn [seq]. rewrite for_each_cons.
    destruct (lookup_lt_is_Some_2 r i) as [y Hy]; [lia|].
    rewrite (reduce_pinned_one_row r blended i y) by (lia || exact Hy).
    rewrite bind_ret_l. apply IH; lia.
Qed.

(** The whole reduction leaves the blend of the two corner spectra under
    the empty key. *)
Lemma reduce_one_between s0 s1 :
  for_each (reduce_step self p (seq 0 a ++ seq (S a) (ndim self - S a)) [a])
    (seq 0 (ndim self))
    ([<[a := dn]> p; <[a := up]> p],
     [(<[a := up]> p, s1); (<[a := dn]> p, s0)])
  = (w ← coeff name_a x dn up;
     blended ← blend s0 s1 w;
     Ok ([[]], [([], blended)])).
Proof.
  pose proof a_in_range as Ha.
  set (r0 := <[a := dn]> p). set (r1 := <[a := up]> p).
  assert (Hlen : length r0 = ndim self)
    by (unfold r0; rewrite length_insert; exact p_length).
  assert (H0 : r0 !! a = Some dn)
    by (apply list_lookup_insert_eq; lia).
  assert (H1 : r1 !! a = Some up)
    by (apply list_lookup_insert_eq; lia).
  assert (Hsame : forall i, i <> a -> r0 !! i = r1 !! i).
  { intros i Hi. unfold r0, r1.
    rewrite !list_lookup_insert_ne by congruence. reflexivity. }
  assert (Htail : drop (S a) r0 = drop (S a) r1).
  { apply list_eq. intros j. rewrite !lookup_drop. apply Hsame. lia. }
  rewrite seq_split_at, for_each_app.
  change ([r0; r1], [(r1, s1); (r0, s0)])
    with ([drop 0 r0; drop 0 r1], [(drop 0 r1, s1); (drop 0 r0, s0)]).
  rewrite (reduce_loop_before r0 r1 s0 s1 Hlen Hsame H0 H1 a 0) by lia.
  rewrite bind_ret_l, for_each_cons. cbn [Nat.add].
  rewrite (reduce_interp_two_rows r0 r1 s0 s1 H0 H1 Htail).
  destruct (coeff name_a x dn up) as [w|e]; [|reflexivity].
  rewrite !bind_ret_l.
  destruct (blend s0 s1 w) as [blended|e]; [|reflexivity].
  rewrite !bind_ret_l.
  apply (reduce_loop_after r0 blended Hlen); lia.
Qed.

(** The request is answered from the two models found at its two
    corners: their spectra are blended with the weight of dimension [a]
    and handed to smoothing, resampling and normalization. *)
Lemma interp_models_one_between
    (falt2 : list Q -> list Q -> Q -> list Q) (resolution : option Q)
    (np_interp : list Q -> list Q -> list Q -> result (list Q))
    k0 k1 table s0 s1 :
  find_i_of self (<[a := dn]> p) = Ok [k0] ->
  find_i_of self (<[a := up]> p) = Ok [k1] ->
  model_flux (model self) = Some table ->
  table !! k0 = Some s0 -> table !! k1 = Some s1 ->
  interp_models falt2 resolution np_interp self p
  = (w ← coeff name_a x dn up;
     blended ← blend s0 s1 w;
     smooth_resample_normalize falt2 resolution np_interp self blended).
Proof.
  intros Hk0 Hk1 Hm Hs0 Hs1.
  destruct grid_edges_one_between as (E & HE & HEa & HEo).
  unfold interp_models. rewrite HE, bind_ret_l.
  rewrite (grid_corners_of_one_between E HEa HEo), bind_ret_l.
  rewrite (gather_two_corners _ _ k0 k1 table s0 s1 Hk0 Hk1 Hm Hs0 Hs1).
  rewrite bind_ret_l, to_interp_one, reduce_one_between.
  destruct (coeff name_a x dn up) as [w|e]; [|reflexivity].
  rewrite !bind_ret_l.
  destruct (blend s0 s1 w) as [blended|e]; [|reflexivity].
  rewrite !bind_ret_l. cbn [snd tuple_get].
  rewrite tuple_eqb_refl, bind_ret_l. reflexivity.
Qed.

End OneInterpolated.

(** ** The blend of two corner spectra *)

Lemma blend_lookup c : forall s0 s1 j u w,
  s0 !! j = Some u -> s1 !! j = Some w ->
  zip_with Qplus s0 (map (fun d => d * c) (zip_with Qminus s1 s0)) !! j
  = Some (u + (w - u) * c).
Proof.
  induction s0 as [|u0 s0 IH]; intros [|w0 s1] [|j] u w Hu Hw;
    try discriminate.
  - injection Hu as <-. injection Hw as <-. reflexivity.
  - apply (IH s1 j u w Hu Hw).
Qed.

Lemma blend_same_length s0 s1 c :
  length s0 = length s1 ->
  blend s0 s1 c
  = Ok (zip_with Qplus s0 (map (fun d => d * c) (zip_with Qminus s1 s0))).
Proof.
  intros Hlen. unfold blend, np_broadcast.
  rewrite Hlen, Nat.eqb_refl, bind_ret_l.
  rewrite length_map, length_zip_with, Hlen, Nat.min_id, Nat.eqb_refl.
  reflexivity.
Qed.

(** Two spectra of one length blend sample by sample: the result has
    their length, each sample is [u + (w - u) * c] for the samples [u]
    and [w] of the two spectra, and for a weight between 0 and 1 it lies
    between [u] and [w]. *)
Theorem blend_between_the_corner_spectra s0 s1 c :
  length s0 = length s1 -> 0 <= c <= 1 ->
  exists blended,
    blend s0 s1 c = Ok blended /\
    length blended = length s0 /\
    forall j u w, s0 !! j = Some u -> s1 !! j = Some w ->
      exists v, blended !! j = Some v /\
                v = u + (w - u) * c /\
                (u <= w -> u <= v <= w) /\
                (w <= u -> w <= v <= u).
Proof.
  intros Hlen [Hc0 Hc1]. eexists. split; [apply blend_same_length, Hlen|].
  split.
  - rewrite length_zip_with, length_map, length_zip_with. lia.
  - intros j u w Hu Hw. exists (u + (w - u) * c).
    split; [apply blend_lookup; assumption|].
    split; [reflexivity|]. split; intros Huw; split; nra.
Qed.

(** The theorem on two spectra of three samples and the weight 1/4. *)
Lemma blend_between_the_corner_spectra_witness :
  exists blended,
    blend [2; 3; 4] [4; 5; 7] (1 # 4) = Ok blended /\
    length blended = 3%nat /\
    forall j u w, [2; 3; 4] !! j = Some u -> [4; 5; 7] !! j = Some w ->
      exists v, blended !! j = Some v /\
                v = u + (w - u) * (1 # 4) /\
                (u <= w -> u <= v <= w) /\
                (w <= u -> w <= v <= u).
Proof.
  apply (blend_between_the_corner_spectra [2; 3; 4] [4; 5; 7] (1 # 4)).
  - reflexivity.
  - split; vm_compute; discriminate.
Defined.

(** ** The parameter vector of the posterior evaluation *)

Lemma py_index_last_Ok {A} (l : list A) :
  l <> [] -> exists x, py_index l (-1) = Ok x.
Proof.
  intros Hl. unfold py_index. change (0 <=? -1)%Z with false. cbv iota.
  assert (Hlen : (1 <= length l)%nat)
    by (destruct l; [contradiction | cbn; lia]).
  replace (0 <=? Z.of_nat (length l) + -1)%Z with true
    by (symmetry; apply Z.leb_le; lia).
  destruct (lookup_lt_is_Some_2 l (Z.to_nat (Z.of_nat (length l) + -1)))
    as [x Hx]; [lia|].
  exists x. apply py_get_Some, Hx.
Qed.

(** A parameter vector that holds the fit parameters and the noise term
    only leaves no normalization value: with bin edges configured the
    evaluation raises [UnboundLocalError] before any parameter is
    compared with its limits, whatever the parameters are. *)
Theorem call_without_normalization_values_raises falt2 resolution np_interp
    np_exp np_log np_pi self p :
  length p = S (ndim self) ->
  wavelength_bins self <> [] ->
  __call__ falt2 resolution np_interp np_exp np_log np_pi self p
  = Raise UnboundLocalError.
Proof.
  intros Hlen Hbins. unfold __call__.
  destruct (py_index_last_Ok p) as [lns Hlns];
    [intros ->; discriminate|].
  rewrite Hlns, bind_ret_l.
  replace (drop (ndim self) (take (length p - 1) p)) with (@nil Q).
  2:{ symmetry. apply drop_ge. rewrite length_take. lia. }
  unfold calc_normalization.
  destruct (wavelength_bins self) as [|b0 bins]; [contradiction|].
  reflexivity.
Qed.

(** The theorem at [complete_grid] and the vector (1500, 4.75, 0): both
    fit parameters and the noise term, no normalization value. *)
Lemma call_without_normalization_values_raises_witness :
  __call__ (fun _ f _ => f) None (fun _ _ f => Ok f)
           (fun v => v) (fun v => v) 3 complete_grid [1500; 4.75; 0]
  = Raise UnboundLocalError.
Proof.
  apply call_without_normalization_values_raises.
  - reflexivity.
  - discriminate.
Defined.

(** ** Snapping a chain of samples *)

Lemma alter_at_row {A} (f : A -> A) (l : list A) j x :
  l !! j = Some x -> alter f j l = <[j := f x]> l.
Proof.
  intros Hx. pose proof (lookup_lt_Some _ _ _ Hx) as Hj.
  apply list_eq. intros i. destruct (decide (i = j)) as [->|Hne].
  - rewrite list_lookup_alter_eq, Hx, list_lookup_insert_eq by exact Hj.
    reflexivity.
  - rewrite list_lookup_alter_ne, list_lookup_insert_ne by congruence.
    reflexivity.
Qed.

Lemma insert_next_coordinate (coords row : list Q) n v :
  coords !! n = Some v -> (n < length row)%nat ->
  <[n := v]> (take n coords ++ drop n row)
  = take (S n) coords ++ drop (S n) row.
Proof.
  intros Hv Hn. destruct (lookup_lt_is_Some_2 row n Hn) as [y Hy].
  rewrite (drop_S _ _ _ Hy), (take_S_r _ _ _ Hv).
  assert (Hl : length (take n coords) = n)
    by (apply length_take_le; apply lookup_lt_Some in Hv; lia).
  rewrite insert_app_r_alt by lia. rewrite Hl, Nat.sub_diag.
  rewrite <- app_assoc. reflexivity.
Qed.

Lemma py_index_nat {A} (l : list A) k v :
  l !! k = Some v -> py_index l (Z.of_nat k) = Ok v.
Proof.
  intros Hv. unfold py_index.
  replace (0 <=? Z.of_nat k)%Z with true by (symmetry; apply Z.leb_le; lia).
  rewrite Nat2Z.id. apply py_get_Some, Hv.
Qed.

Lemma for_each_one {A S} (body : S -> A -> result S) x s :
  for_each body [x] s = body s x.
Proof. rewrite for_each_cons. destruct (body s x); reflexivity. Qed.

Lemma within_limits_not_rejected self model_p :
  length model_p = ndim self ->
  Forall (fun name => is_Some (plims self !! name)) (params self) ->
  within_limits self model_p ->
  outside_limits self model_p (seq 0 (ndim self)) = Ok false.
Proof.
  intros Hlen Hpl Hin.
  rewrite (outside_limits_existsb self model_p _ Hlen Hpl (seq_lt _)).
  f_equal. apply not_true_iff_false. intros Hex.
  apply existsb_exists in Hex as (i & _ & Hv). unfold limit_violated in Hv.
  destruct (model_p !! i) as [x|] eqn:Hx; [|discriminate].
  destruct (params self !! i) as [name|] eqn:Hname; [|discriminate].
  destruct (plims self !! name) as [pl|] eqn:Hplname; [|discriminate].
  destruct (Hin i x name pl Hx Hname Hplname) as [Hlo Hhi].
  apply orb_true_iff in Hv as [H|H]; apply Qlt_b_true in H.
  - apply (Qlt_not_le _ _ H Hhi).
  - apply (Qlt_not_le _ _ H Hlo).
Qed.

Lemma py_sum_proper l l' : Forall2 Qeq l l' -> py_sum l == py_sum l'.
Proof.
  induction 1 as [|x y l l' Hxy _ IH]; [reflexivity|].
  rewrite !py_sum_cons, Hxy, IH. reflexivity.
Qed.

Lemma Forall2_Qeq_refl (l : list Q) : Forall2 Qeq l l.
Proof. induction l; constructor; [reflexivity | assumption]. Qed.

(** The distance does not tell equal rationals apart. *)
Lemma mean_abs_difference_proper r r' p :
  Forall2 Qeq r r' -> mean_abs_difference r p == mean_abs_difference r' p.
Proof.
  intros H. unfold mean_abs_difference. cbv zeta.
  rewrite !length_map, !length_zip_with, <- (Forall2_length _ _ _ H).
  assert (Hs : py_sum (map Qabs (zip_with Qminus r p))
               == py_sum (map Qabs (zip_with Qminus r' p))).
  { apply py_sum_proper. revert p.
    induction H as [|x y l l' Hxy _ IH]; intros [|z p]; cbn [zip_with map];
      constructor; [|apply IH].
    rewrite Hxy. reflexivity. }
  rewrite Hs. reflexivity.
Qed.

Lemma mean_abs_difference_zero_inv r p :
  length r = length p -> mean_abs_difference r p == 0 -> Forall2 Qeq r p.
Proof.
  intros Hlen Hzero. apply Forall2_same_length_lookup_2; [exact Hlen|].
  intros i x y Hx Hy. destruct (Qeq_dec x y) as [Heq|Hne]; [exact Heq|].
  exfalso. pose proof (mean_abs_difference_pos r p i x y Hlen Hx Hy Hne) as H.
  rewrite Hzero in H. apply (Qlt_irrefl 0 H).
Qed.

Section SnapChain.

Variable self : ModelGrid.
Variable table : list (list Q).
Variable models : list (list Q).

Hypothesis indexed : grid_indexed self table.
Hypothesis columns : columns_indexed self.
Hypothesis model_coordinates :
  param_arrays_of self (seq 0 (length table)) = Ok models.

Lemma models_coords k coords :
  models !! k = Some coords ->
  Forall2 (fun name v =>
             exists pl, plims self !! name = Some pl /\
                        plim_vals pl !! k = Some v)
          (params self) coords.
Proof.
  intros Hk.
  destruct (param_arrays_of_Ok self table indexed (seq 0 (length table)))
    as (rows & Hrows & Hall).
  { apply Forall_forall. intros j Hj. apply elem_of_seq in Hj. lia. }
  rewrite model_coordinates in Hrows. injection Hrows as <-.
  destruct (Forall2_lookup_r _ _ _ _ _ Hall Hk) as (j & Hj & Hrow).
  apply lookup_seq in Hj as [-> _]. exact Hrow.
Qed.

Lemma models_shape : Forall (fun r => length r = ndim self) models.
Proof.
  apply Forall_forall. intros r Hr.
  apply list_elem_of_lookup in Hr as [k Hk].
  symmetry. apply (Forall2_length _ _ _ (models_coords k r Hk)).
Qed.

Lemma grid_spacings_Ok i :
  (i < ndim self)%nat -> exists s, grid_spacings self i = Ok s.
Proof.
  intros Hi. destruct (lookup_lt_is_Some_2 (params self) i Hi) as [name Hname].
  destruct (indexed_lookup self table indexed i name Hname) as (pl & Hpl & _).
  eexists. unfold grid_spacings.
  rewrite (py_get_Some _ _ _ Hname), bind_ret_l.
  rewrite (dict_get_Some _ _ _ (columns i name pl Hname Hpl)), bind_ret_l.
  reflexivity.
Qed.

Lemma round_check_Ok indices :
  Forall (fun i => (i < ndim self)%nat) indices ->
  forall b, exists b', round_check self indices b = Ok b'.
Proof.
  induction 1 as [|i indices Hi _ IH]; intros b; [exists b; reflexivity|].
  destruct (grid_spacings_Ok i Hi) as [s Hs].
  cbn [round_check]. rewrite Hs, bind_ret_l.
  destruct (negb (length s =? 1)%nat); [exists false; reflexivity|].
  apply IH.
Qed.

(** The inner loop writes the coordinates of model [k] over the first
    entries of row [j]. *)
Lemma snap_cells width k coords j row :
  models !! k = Some coords ->
  length row = width -> (ndim self <= width)%nat ->
  forall n, (n <= ndim self)%nat ->
  forall st, st !! j = Some row ->
    for_each (snap_cell self width (Z.of_nat k) j) (seq 0 n) st
    = Ok (<[j := take n coords ++ drop n row]> st).
Proof.
  intros Hk Hrow Hwidth. induction n as [|n IH]; intros Hn st Hst.
  - cbn [seq for_each take drop app]. rewrite list_insert_id by exact Hst.
    reflexivity.
  - rewrite seq_S, for_each_app, (IH ltac:(lia) st Hst), bind_ret_l.
    rewrite for_each_one.
    destruct (lookup_lt_is_Some_2 (params self) n) as [name Hname];
      [unfold ndim in Hn; lia|].
    destruct (Forall2_lookup_l _ _ _ _ _ (models_coords k coords Hk) Hname)
      as (v & Hv & pl & Hpl & Hval).
    unfold snap_cell. cbn [Nat.add].
    rewrite (py_get_Some _ _ _ Hname), bind_ret_l.
    rewrite (dict_get_Some _ _ _ (columns n name pl Hname Hpl)), bind_ret_l.
    rewrite (py_index_nat _ _ _ Hval), bind_ret_l.
    replace (n <? width)%nat with true
      by (symmetry; apply Nat.ltb_lt; lia).
    pose proof (lookup_lt_Some _ _ _ Hst) as Hj.
    rewrite (alter_at_row _ _ j (take n coords ++ drop n row))
      by (apply list_lookup_insert_eq; exact Hj).
    rewrite list_insert_insert_eq, insert_next_coordinate
      by (exact Hv || lia).
    reflexivity.
Qed.

(** The body of the loop over the samples, at a sample not yet
    snapped. *)
Lemma snap_row_nearest width j row st :
  (1 <= ndim self)%nat ->
  length row = width -> (ndim self <= width)%nat ->
  st !! j = Some row ->
  (exists r, r ∈ models /\
             mean_abs_difference r (take (ndim self) row) < 1e10) ->
  exists row',
    snap_row self width models st (j, row) = Ok (<[j := row']> st) /\
    snapped_to_nearest (ndim self) models row row'.
Proof.
  intros Hnd Hrow Hwidth Hst (r & Hr & Hnear). unfold snap_row.
  cbn [fst snd].
  assert (Hp : length (take (ndim self) row) = ndim self)
    by (apply length_take_le; lia).
  destruct (find_nearest2_cases models (take (ndim self) row))
    as (s & Hrun & [[-> Hfar]|(k & coords & -> & Hk & _ & Hleast & Hfirst)]).
  - lia.
  - rewrite Hp. exact models_shape.
  - exfalso. apply (Qlt_not_le _ _ Hnear), (Hfar r Hr).
  - rewrite Hrun, bind_ret_l. cbn [snd].
    rewrite (snap_cells width k coords j row Hk Hrow Hwidth (ndim self)
               (Nat.le_refl _) st Hst).
    assert (Hc : length coords = ndim self).
    { pose proof models_shape as Hs. rewrite Forall_forall in Hs.
      apply Hs, list_elem_of_lookup. eauto. }
    rewrite take_ge by lia.
    eexists. split; [reflexivity|].
    exists k, coords. repeat split; assumption.
Qed.

Lemma snap_rows_loop width :
  (1 <= ndim self)%nat -> (ndim self <= width)%nat ->
  forall todo pre,
    Forall (fun row =>
              length row = width /\
              exists r, r ∈ models /\
                mean_abs_difference r (take (ndim self) row) < 1e10) todo ->
    exists out,
      for_each (snap_row self width models)
        (imap (fun i => pair (length pre + i)%nat) todo) (pre ++ todo)
      = Ok (pre ++ out) /\
      Forall2 (snapped_to_nearest (ndim self) models) todo out.
Proof.
  intros Hnd Hwidth. induction todo as [|row rest IH]; intros pre Hall.
  - exists []. split; [reflexivity | constructor].
  - apply Forall_cons in Hall as [[Hrow Hnear] Hrest].
    rewrite imap_cons, for_each_cons, Nat.add_0_r.
    destruct (snap_row_nearest width (length pre) row (pre ++ row :: rest)
                Hnd Hrow Hwidth) as (row' & Hrun & Hsnapped);
      [apply list_lookup_middle; reflexivity | exact Hnear |].
    rewrite Hrun, bind_ret_l.
    replace (<[length pre := row']> (pre ++ row :: rest))
      with ((pre ++ [row']) ++ rest).
    2:{ rewrite <- app_assoc.
        rewrite <- (Nat.add_0_r (length pre)) at 1.
        rewrite insert_app_r. reflexivity. }
    destruct (IH (pre ++ [row']) Hrest) as (out & Hout & Hall).
    exists (row' :: out). split; [|constructor; assumption].
    replace (pre ++ row' :: out) with ((pre ++ [row']) ++ out)
      by (rewrite <- app_assoc; reflexivity).
    rewrite <- Hout. f_equal.
    apply imap_ext. intros i y _. cbn. f_equal.
    rewrite length_app. cbn. lia.
Qed.

Lemma snap_full_run_nearest_branch (np_round : Z -> Q -> Q) cropchain :
  is_grid_complete self = false ->
  (1 <= ndim self)%nat ->
  chain_shaped cropchain ->
  (ndim self <= chain_width cropchain)%nat ->
  (forall row, row ∈ chain_rows cropchain ->
     exists r, r ∈ models /\
               mean_abs_difference r (take (ndim self) row) < 1e10) ->
  exists out,
    snap_full_run np_round self cropchain
    = Ok {| chain_width := chain_width cropchain; chain_rows := out |} /\
    Forall2 (snapped_to_nearest (ndim self) models)
            (chain_rows cropchain) out.
Proof.
  intros Hcomplete Hnd Hshape Hwidth Hnear. unfold snap_full_run.
  destruct (round_check_Ok (seq 0 (ndim self))) with (b := false)
    as [valid Hvalid].
  { apply Forall_forall. intros i Hi. apply elem_of_seq in Hi. lia. }
  rewrite Hvalid, bind_ret_l, Hcomplete, andb_false_r.
  destruct (lookup_lt_is_Some_2 (params self) 0) as [name0 Hname0];
    [exact Hnd|].
  destruct (indexed_lookup self table indexed 0 name0 Hname0)
    as (pl0 & Hpl0 & Hlen0 & _).
  rewrite (py_get_Some _ _ _ Hname0), bind_ret_l.
  rewrite (dict_get_Some _ _ _ Hpl0), bind_ret_l.
  rewrite Hlen0, model_coordinates, bind_ret_l.
  destruct (snap_rows_loop (chain_width cropchain) Hnd Hwidth
              (chain_rows cropchain) [])
    as (out & Hout & Hall).
  { apply Forall_forall. intros row Hrow. split; [|apply Hnear, Hrow].
    unfold chain_shaped in Hshape. rewrite Forall_forall in Hshape.
    apply Hshape, Hrow. }
  exists out. split; [|exact Hall].
  change (imap (fun i => pair (length (@nil (list Q)) + i)%nat)
               (chain_rows cropchain))
    with (imap pair (chain_rows cropchain)) in Hout.
  change ([] ++ chain_rows cropchain) with (chain_rows cropchain) in Hout.
  rewrite Hout, bind_ret_l. reflexivity.
Qed.

Lemma snapped_within_limits row row' :
  snapped_to_nearest (ndim self) models row row' ->
  within_limits self (take (ndim self) row').
Proof.
  intros (k & coords & Hk & _ & _ & ->) i x name pl Hx Hname Hpl.
  assert (Hc : length coords = ndim self).
  { pose proof models_shape as Hs. rewrite Forall_forall in Hs.
    apply Hs, list_elem_of_lookup. eauto. }
  rewrite take_app_length' in Hx by (symmetry; exact Hc).
  destruct (Forall2_lookup_l _ _ _ _ _ (models_coords k coords Hk) Hname)
    as (v & Hv & pl' & Hpl' & Hval).
  assert (v = x) as -> by congruence. assert (pl' = pl) as -> by congruence.
  destruct (indexed_lookup self table indexed i name Hname)
    as (pl' & Hpl'' & _ & Hmin & Hmax).
  assert (pl' = pl) as -> by congruence.
  assert (Hin : x ∈ plim_vals pl) by (apply list_elem_of_lookup; eauto).
  split; [apply (py_min_le _ _ Hmin), Hin | apply (py_max_ge _ _ Hmax), Hin].
Qed.

(** A snapped sample snaps to itself. *)
Lemma snapped_twice row row' row'' :
  snapped_to_nearest (ndim self) models row row' ->
  snapped_to_nearest (ndim self) models row' row'' ->
  row'' = row'.
Proof.
  intros (k & c & Hk & Hle & Hfirst & ->)
         (k2 & c2 & Hk2 & Hle2 & Hfirst2 & ->).
  pose proof models_shape as Hs. rewrite Forall_forall in Hs.
  assert (Hc : length c = ndim self)
    by (apply Hs, list_elem_of_lookup; eauto).
  assert (Hc2 : length c2 = ndim self)
    by (apply Hs, list_elem_of_lookup; eauto).
  rewrite take_app_length' in Hle2, Hfirst2 by (symmetry; exact Hc).
  rewrite drop_app_length' by (symmetry; exact Hc).
  set (p := take (ndim self) row) in *.
  assert (Hzero : mean_abs_difference c c == 0)
    by apply mean_abs_difference_zero, Forall2_Qeq_refl.
  assert (Hzero2 : mean_abs_difference c2 c == 0).
  { apply Qle_antisym; [|apply mean_abs_difference_nonneg].
    rewrite <- Hzero. apply (Hle2 k c Hk). }
  assert (Heq : Forall2 Qeq c2 c)
    by (apply mean_abs_difference_zero_inv; [lia | exact Hzero2]).
  assert (k2 = k) as ->.
  { destruct (lt_eq_lt_dec k2 k) as [[Hlt|Heq']|Hgt]; [|exact Heq'|].
    - exfalso. pose proof (Hfirst k2 c2 Hlt Hk2) as H.
      rewrite (mean_abs_difference_proper c2 c p Heq) in H.
      apply (Qlt_irrefl _ H).
    - exfalso. pose proof (Hfirst2 k c Hgt Hk) as H.
      rewrite Hzero2, Hzero in H. apply (Qlt_irrefl _ H). }
  congruence.
Qed.

Lemma snapped_chain_fixed rows out :
  Forall2 (snapped_to_nearest (ndim self) models) rows out ->
  forall out2,
    Forall2 (snapped_to_nearest (ndim self) models) out out2 -> out2 = out.
Proof.
  induction 1 as [|row row' rows out Hrow _ IH]; intros out2 H2.
  - inversion H2. reflexivity.
  - inversion H2 as [|? row'' ? out2' Hrow' Hrest]; subst.
    rewrite (snapped_twice row row' row'' Hrow Hrow'), (IH out2' Hrest).
    reflexivity.
Qed.

(** On an indexed grid whose coverage attribute is false, with at least
    one fit parameter, and on a chain at least as wide as the number of
    fit parameters whose samples each have a model at a mean absolute
    difference below 1e10: [snap_full_run] replaces the fit parameters of
    every sample by the coordinates of the model nearest to them in mean
    absolute difference, the first of them in the order of the models,
    and leaves the other columns and the shape of the chain as they
    are; the rounding of the first branch is not applied. *)
Theorem snap_full_run_snaps_each_sample (np_round : Z -> Q -> Q) cropchain :
  is_grid_complete self = false ->
  (1 <= ndim self)%nat ->
  chain_shaped cropchain ->
  (ndim self <= chain_width cropchain)%nat ->
  (forall row, row ∈ chain_rows cropchain ->
     exists r, r ∈ models /\
               mean_abs_difference r (take (ndim self) row) < 1e10) ->
  exists out,
    snap_full_run np_round self cropchain
    = Ok {| chain_width := chain_width cropchain; chain_rows := out |} /\
    Forall2 (snapped_to_nearest (ndim self) models)
            (chain_rows cropchain) out.
Proof. exact (snap_full_run_nearest_branch np_round cropchain). Qed.

(** Under the same conditions, the fit parameters of every sample that
    [snap_full_run] returns lie within the parameter limits of the grid,
    and the loop of the posterior evaluation that compares the
    parameters with the limits lets them pass. *)
Theorem snap_full_run_within_limits (np_round : Z -> Q -> Q) cropchain :
  is_grid_complete self = false ->
  (1 <= ndim self)%nat ->
  chain_shaped cropchain ->
  (ndim self <= chain_width cropchain)%nat ->
  (forall row, row ∈ chain_rows cropchain ->
     exists r, r ∈ models /\
               mean_abs_difference r (take (ndim self) row) < 1e10) ->
  exists out,
    snap_full_run np_round self cropchain
    = Ok {| chain_width := chain_width cropchain; chain_rows := out |} /\
    Forall (fun row' =>
              within_limits self (take (ndim self) row') /\
              outside_limits self (take (ndim self) row')
                             (seq 0 (ndim self)) = Ok false) out.
Proof.
  intros Hcomplete Hnd Hshape Hwidth Hnear.
  destruct (snap_full_run_nearest_branch np_round cropchain Hcomplete Hnd
              Hshape Hwidth Hnear) as (out & Hrun & Hall).
  exists out. split; [exact Hrun|].
  apply Forall_forall. intros row' Hrow'.
  apply list_elem_of_lookup in Hrow' as [j Hj].
  destruct (Forall2_lookup_r _ _ _ _ _ Hall Hj) as (row & _ & Hsnapped).
  pose proof (snapped_within_limits row row' Hsnapped) as Hin.
  split; [exact Hin|].
  apply within_limits_not_rejected; [| |exact Hin].
  - destruct Hsnapped as (k & coords & Hk & _ & _ & ->).
    pose proof models_shape as Hs. rewrite Forall_forall in Hs.
    assert (Hc : length coords = ndim self)
      by (apply Hs, list_elem_of_lookup; eauto).
    rewrite take_app_length' by (symmetry; exact Hc). exact Hc.
  - destruct indexed as [_ Hpl]. eapply Forall_impl; [exact Hpl|].
    cbn. intros name (pl & Hplname & _). eauto.
Qed.

(** Under the same conditions snapping is idempotent: [snap_full_run]
    succeeds, and applied to the chain it returned it returns that chain
    unchanged. *)
Theorem snap_full_run_idempotent (np_round : Z -> Q -> Q) cropchain :
  is_grid_complete self = false ->
  (1 <= ndim self)%nat ->
  chain_shaped cropchain ->
  (ndim self <= chain_width cropchain)%nat ->
  (forall row, row ∈ chain_rows cropchain ->
     exists r, r ∈ models /\
               mean_abs_difference r (take (ndim self) row) < 1e10) ->
  exists snapped,
    snap_full_run np_round self cropchain = Ok snapped /\
    snap_full_run np_round self snapped = Ok snapped.
Proof.
  intros Hcomplete Hnd Hshape Hwidth Hnear.
  destruct (snap_full_run_nearest_branch np_round cropchain Hcomplete Hnd
              Hshape Hwidth Hnear) as (out & Hrun & Hall).
  eexists. split; [exact Hrun|].
  pose proof models_shape as Hs. rewrite Forall_forall in Hs.
  unfold chain_shaped in Hshape. rewrite Forall_forall in Hshape.
  destruct (snap_full_run_nearest_branch np_round
              {| chain_width := chain_width cropchain; chain_rows := out |})
    as (out2 & Hrun2 & Hall2); cbn [chain_width chain_rows];
    try assumption.
  - apply Forall_forall. intros row' Hrow'.
    apply list_elem_of_lookup in Hrow' as [j Hj].
    destruct (Forall2_lookup_r _ _ _ _ _ Hall Hj)
      as (row & Hrow & k & c & Hk & _ & _ & ->).
    cbn [chain_width]. rewrite length_app, length_drop.
    rewrite (Hs c), (Hshape row);
      [lia | apply list_elem_of_lookup; eauto
           | apply list_elem_of_lookup; eauto].
  - intros row' Hrow'.
    apply list_elem_of_lookup in Hrow' as [j Hj].
    destruct (Forall2_lookup_r _ _ _ _ _ Hall Hj)
      as (row & Hrow & k & c & Hk & _ & _ & ->).
    exists c. split; [apply list_elem_of_lookup; eauto|].
    rewrite take_app_length'
      by (symmetry; apply Hs, list_elem_of_lookup; eauto).
    rewrite (mean_abs_difference_zero c c (Forall2_Qeq_refl c)).
    vm_compute. reflexivity.
  - rewrite Hrun2.
    rewrite (snapped_chain_fixed _ _ Hall out2 Hall2). reflexivity.
Qed.

End SnapChain.

(** The theorem at [incomplete_grid] and a chain of two samples with one
    further column. *)
Lemma snap_full_run_snaps_each_sample_witness :
  exists out,
    snap_full_run (fun _ v => v) incomplete_grid
      {| chain_width := 3;
         chain_rows := [[1450; 4.6; 0.1]; [1590; 4.9; 0.2]] |}
    = Ok {| chain_width := 3; chain_rows := out |} /\
    Forall2 (snapped_to_nearest 2 [[1400; 4.5]; [1400; 5.0]; [1600; 4.5]])
            [[1450; 4.6; 0.1]; [1590; 4.9; 0.2]] out.
Proof.
  refine (snap_full_run_snaps_each_sample incomplete_grid
            [[1; 2; 3]; [2; 3; 4]; [3; 4; 5]]
            [[1400; 4.5]; [1400; 5.0]; [1600; 4.5]] _ _ _
            (fun _ v => v)
            {| chain_width := 3;
               chain_rows := [[1450; 4.6; 0.1]; [1590; 4.9; 0.2]] |}
            _ _ _ _ _).
  - split; [reflexivity|].
    repeat constructor; eexists; repeat split; vm_compute; reflexivity.
  - intros [|[|i]] name pl Hname Hpl; cbn in Hname; try discriminate;
      injection Hname as <-; vm_compute in Hpl; injection Hpl as <-;
      reflexivity.
  - reflexivity.
  - reflexivity.
  - cbn. lia.
  - repeat constructor.
  - cbn. lia.
  - intros row Hrow. exists [1400; 4.5].
    split; [apply list_elem_of_here|].
    apply elem_of_cons in Hrow as [->|Hrow];
      [|apply list_elem_of_singleton in Hrow as ->];
      vm_compute; reflexivity.
Defined.

(** The theorem at [incomplete_grid] and a chain of two samples. *)
Lemma snap_full_run_within_limits_witness :
  exists out,
    snap_full_run (fun _ v => v) incomplete_grid
      {| chain_width := 3;
         chain_rows := [[1450; 4.6; 0.1]; [1590; 4.9; 0.2]] |}
    = Ok {| chain_width := 3; chain_rows := out |} /\
    Forall (fun row' =>
              within_limits incomplete_grid (take 2 row') /\
              outside_limits incomplete_grid (take 2 row') (seq 0 2)
              = Ok false) out.
Proof.
  refine (snap_full_run_within_limits incomplete_grid
            [[1; 2; 3]; [2; 3; 4]; [3; 4; 5]]
            [[1400; 4.5]; [1400; 5.0]; [1600; 4.5]] _ _ _
            (fun _ v => v)
            {| chain_width := 3;
               chain_rows := [[1450; 4.6; 0.1]; [1590; 4.9; 0.2]] |}
            _ _ _ _ _).
  - split; [reflexivity|].
    repeat constructor; eexists; repeat split; vm_compute; reflexivity.
  - intros [|[|i]] name pl Hname Hpl; cbn in Hname; try discriminate;
      injection Hname as <-; vm_compute in Hpl; injection Hpl as <-;
      reflexivity.
  - reflexivity.
  - reflexivity.
  - cbn. lia.
  - repeat constructor.
  - cbn. lia.
  - intros row Hrow. exists [1400; 4.5].
    split; [apply list_elem_of_here|].
    apply elem_of_cons in Hrow as [->|Hrow];
      [|apply list_elem_of_singleton in Hrow as ->];
      vm_compute; reflexivity.
Defined.

(** The theorem at [incomplete_grid] and a chain of one sample with two
    further columns. *)
Lemma snap_full_run_idempotent_witness :
  exists snapped,
    snap_full_run (fun _ v => v) incomplete_grid
      {| chain_width := 4; chain_rows := [[1520; 4.7; 0.1; 0.3]] |}
    = Ok snapped /\
    snap_full_run (fun _ v => v) incomplete_grid snapped = Ok snapped.
Proof.
  refine (snap_full_run_idempotent incomplete_grid
            [[1; 2; 3]; [2; 3; 4]; [3; 4; 5]]
            [[1400; 4.5]; [1400; 5.0]; [1600; 4.5]] _ _ _
            (fun _ v => v)
            {| chain_width := 4; chain_rows := [[1520; 4.7; 0.1; 0.3]] |}
            _ _ _ _ _).
  - split; [reflexivity|].
    repeat constructor; eexists; repeat split; vm_compute; reflexivity.
  - intros [|[|i]] name pl Hname Hpl; cbn in Hname; try discriminate;
      injection Hname as <-; vm_compute in Hpl; injection Hpl as <-;
      reflexivity.
  - reflexivity.
  - reflexivity.
  - cbn. lia.
  - repeat constructor.
  - cbn. lia.
  - intros row Hrow. apply list_elem_of_singleton in Hrow as ->.
    exists [1600; 4.5].
    split; [apply list_elem_of_lookup; exists 2%nat; reflexivity|].
    vm_compute. reflexivity.
Defined.

(** ** The corners when every dimension is interpolated *)

Lemma pow2_Z (k : nat) : Z.of_nat (2 ^ k) = (2 ^ Z.of_nat k)%Z.
Proof. rewrite Nat2Z.inj_pow. reflexivity. Qed.

Lemma corner_bit_low r k : (r < 2 ^ k)%nat -> corner_bit r k = 0%nat.
Proof.
  intros Hr. unfold corner_bit.
  rewrite Z.div_small; [reflexivity|]. rewrite <- pow2_Z. lia.
Qed.

Lemma corner_bit_high r k :
  (r < 2 ^ k)%nat -> corner_bit (2 ^ k + r) k = 1%nat.
Proof.
  intros Hr. unfold corner_bit.
  rewrite Nat2Z.inj_add, pow2_Z.
  replace (2 ^ Z.of_nat k + Z.of_nat r)%Z
    with (1 * 2 ^ Z.of_nat k + Z.of_nat r)%Z by lia.
  rewrite Z.div_add_l by (apply Z.pow_nonzero; lia).
  rewrite Z.div_small; [reflexivity|]. rewrite <- pow2_Z. lia.
Qed.

Lemma corner_bit_add r m k :
  (k < m)%nat -> corner_bit (2 ^ m + r) k = corner_bit r k.
Proof.
  intros Hk. unfold corner_bit. f_equal.
  rewrite Nat2Z.inj_add, pow2_Z.
  replace (Z.of_nat m) with (Z.of_nat (m - k - 1) + 1 + Z.of_nat k)%Z by lia.
  rewrite !Z.pow_add_r by lia.
  rewrite Z.div_add_l by (apply Z.pow_nonzero; lia).
  rewrite Z.pow_1_r, Z.add_comm. apply Z_mod_plus_full.
Qed.

Lemma corner_bit_cases r k : corner_bit r k = 0%nat \/ corner_bit r k = 1%nat.
Proof.
  unfold corner_bit.
  pose proof (Z.mod_pos_bound (Z.of_nat r / 2 ^ Z.of_nat k) 2 ltac:(lia)).
  lia.
Qed.

Lemma bind_singleton_map {A B} (g : A -> B) (l : list A) :
  (t ← l; [g t]) = map g l.
Proof. induction l as [|x l IH]; [reflexivity|]. cbn. congruence. Qed.

Lemma cartesian_product_two lo hi rest :
  cartesian_product ([lo; hi] :: rest)
  = map (cons lo) (cartesian_product rest)
    ++ map (cons hi) (cartesian_product rest).
Proof.
  cbn [cartesian_product].
  change (x ← [lo; hi]; t ← cartesian_product rest; [x :: t])
    with ((t ← cartesian_product rest; [lo :: t])
          ++ (t ← cartesian_product rest; [hi :: t]) ++ []).
  rewrite app_nil_r, !bind_singleton_map. reflexivity.
Qed.

Lemma map_seq_offset {B} (F : nat -> B) s n :
  map F (seq s n) = map (fun r => F (s + r)%nat) (seq 0 n).
Proof.
  revert s. induction n as [|n IH]; intros s; [reflexivity|].
  cbn [seq map]. rewrite Nat.add_0_r. f_equal.
  rewrite (IH (S s)), <- (seq_shift n 0), map_map. apply map_ext. intros r.
  f_equal. lia.
Qed.

Lemma corner_rows_two lo hi rest :
  corner_rows ([lo; hi] :: rest)
  = map (cons lo) (corner_rows rest) ++ map (cons hi) (corner_rows rest).
Proof.
  unfold corner_rows. cbn [length].
  replace (2 ^ S (length rest))%nat
    with (2 ^ length rest + 2 ^ length rest)%nat by (cbn; lia).
  rewrite seq_app, map_app, !map_map. f_equal.
  - apply map_ext_in. intros r Hr. apply in_seq in Hr.
    rewrite imap_cons. f_equal.
    + replace (S (length rest) - 1 - 0)%nat with (length rest) by lia.
      rewrite corner_bit_low by lia. reflexivity.
    + apply imap_ext. intros i col _. cbn.
      replace (length rest - 0 - S i)%nat with (length rest - 1 - i)%nat
        by lia.
      reflexivity.
  - rewrite (map_seq_offset _ (0 + 2 ^ length rest)).
    apply map_ext_in. intros r Hr. apply in_seq in Hr.
    rewrite imap_cons. f_equal.
    + replace (S (length rest) - 1 - 0)%nat with (length rest) by lia.
      cbn [Nat.add]. rewrite corner_bit_high by lia. reflexivity.
    + apply imap_ext. intros i col Hcol. cbn.
      apply lookup_lt_Some in Hcol.
      replace (length rest - 0 - S i)%nat with (length rest - 1 - i)%nat
        by lia.
      rewrite corner_bit_add by lia. reflexivity.
Qed.

(** The combinations of two edge values per dimension, in the order of
    the Cartesian product, are the rows of the closed form. *)
Lemma cartesian_product_rows cols :
  Forall (fun c => length c = 2%nat) cols ->
  cartesian_product cols = corner_rows cols.
Proof.
  induction 1 as [|c rest Hc _ IH]; [reflexivity|].
  destruct c as [|lo [|hi [|? ?]]]; try discriminate.
  rewrite cartesian_product_two, corner_rows_two, IH. reflexivity.
Qed.

Lemma np_put_col_lookup locs i v : forall (m : list (list Q)) r,
  np_put_col locs i v m !! r
  = if decide (r ∈ locs) then (fun row => <[i := v]> row) <$> m !! r
    else m !! r.
Proof.
  unfold np_put_col. induction locs as [|k locs IH]; intros m r.
  - cbn [fold_left]. rewrite decide_False by (intros H; inversion H).
    reflexivity.
  - cbn [fold_left]. rewrite IH.
    destruct (decide (r = k)) as [->|Hne].
    + rewrite list_lookup_alter_eq.
      rewrite (decide_True (P := k ∈ k :: locs)) by apply list_elem_of_here.
      destruct (decide (k ∈ locs)); [|reflexivity].
      destruct (m !! k) as [row|]; [|reflexivity].
      cbn. rewrite list_insert_insert_eq. reflexivity.
    + rewrite list_lookup_alter_ne by congruence.
      destruct (decide (r ∈ locs)) as [Hin|Hout].
      * rewrite decide_True by (apply list_elem_of_further, Hin).
        reflexivity.
      * rewrite decide_False; [reflexivity|].
        intros H. apply elem_of_cons in H as [->|H]; [congruence|].
        exact (Hout H).
Qed.

Lemma list_filter_all {A} (f : A -> bool) l :
  (forall v, v ∈ l -> f v = true) -> List.filter f l = l.
Proof.
  induction l as [|y l IH]; intros H; [reflexivity|].
  cbn. rewrite (H y) by apply list_elem_of_here. f_equal.
  apply IH. intros v Hv. apply H, list_elem_of_further, Hv.
Qed.

Lemma corner_loc_bit n m r :
  (m < n)%nat ->
  corner_loc (2 ^ n) (Z.of_nat n - Z.of_nat 0 - Z.of_nat m - 1) r
  = Z.of_nat (corner_bit r (n - 1 - m)).
Proof.
  intros Hm. unfold corner_loc, corner_bit.
  pose proof (Z.mod_pos_bound
                (Z.of_nat r / 2 ^ Z.of_nat (n - 1 - m)) 2 ltac:(lia)) as Hb.
  rewrite Z2Nat.id by lia.
  replace (Z.of_nat n - Z.of_nat 0 - Z.of_nat m - 1)%Z
    with (Z.of_nat (n - 1 - m)) by lia.
  destruct (2 ^ n =? 2)%nat eqn:E.
  - apply Nat.eqb_eq in E.
    assert (n = 1%nat) as ->.
    { destruct n as [|[|n]]; [cbn in E; lia | reflexivity|].
      exfalso. cbn [Nat.pow] in E.
      pose proof (Nat.pow_nonzero 2 n ltac:(lia)). lia. }
    replace m with 0%nat by lia. reflexivity.
  - replace (0 <=? Z.of_nat (n - 1 - m))%Z with true
      by (symmetry; apply Z.leb_le; lia).
    reflexivity.
Qed.

(** Writing the next column into a row of the table. *)
Lemma insert_next_column (cols : list (list Q)) r m col :
  cols !! m = Some col ->
  <[m := default 0 (col !! corner_bit r (length cols - 1 - m))]>
    (imap (fun i c =>
             if (i <? m)%nat
             then default 0 (c !! corner_bit r (length cols - 1 - i))
             else 0) cols)
  = imap (fun i c =>
            if (i <? S m)%nat
            then default 0 (c !! corner_bit r (length cols - 1 - i))
            else 0) cols.
Proof.
  intros Hcol. pose proof (lookup_lt_Some _ _ _ Hcol) as Hm.
  apply list_eq. intros i. destruct (decide (i = m)) as [->|Hne].
  - rewrite list_lookup_insert_eq by (rewrite length_imap; exact Hm).
    rewrite list_lookup_imap, Hcol. cbn [fmap option_fmap option_map].
    replace (m <? S m)%nat with true by (symmetry; apply Nat.ltb_lt; lia).
    reflexivity.
  - rewrite list_lookup_insert_ne by congruence.
    rewrite !list_lookup_imap. destruct (cols !! i) as [c|]; [|reflexivity].
    cbn [fmap option_fmap option_map]. f_equal.
    destruct (i <? m)%nat eqn:E1, (i <? S m)%nat eqn:E2; try reflexivity.
    + apply Nat.ltb_lt in E1. apply Nat.ltb_ge in E2. lia.
    + apply Nat.ltb_ge in E1. apply Nat.ltb_lt in E2. lia.
Qed.

Lemma corner_rows_upto_zero cols :
  corner_rows_upto 0 cols = np_zeros2 (2 ^ length cols) (length cols).
Proof.
  unfold corner_rows_upto, np_zeros2, np_zeros.
  assert (Hrow : forall r,
            imap (fun i (c : list Q) =>
                    if (i <? 0)%nat
                    then default 0 (c !! corner_bit r (length cols - 1 - i))
                    else 0) cols
            = replicate (length cols) 0).
  { intros r. apply list_eq. intros i. rewrite list_lookup_imap.
    destruct (cols !! i) as [c|] eqn:E.
    - rewrite lookup_replicate_2 by (apply lookup_lt_Some in E; exact E).
      reflexivity.
    - symmetry. apply lookup_replicate_None.
      apply lookup_ge_None in E. exact E. }
  generalize (2 ^ length cols)%nat. intros N.
  rewrite (map_ext _ (fun _ => replicate (length cols) 0) Hrow).
  generalize 0%nat at 1. induction N as [|N IH]; intros s; [reflexivity|].
  cbn [seq map replicate]. f_equal. apply IH.
Qed.

Lemma corner_rows_upto_all cols :
  corner_rows_upto (length cols) cols = corner_rows cols.
Proof.
  unfold corner_rows_upto, corner_rows. apply map_ext. intros r.
  apply imap_ext. intros i c Hc. cbv beta. apply lookup_lt_Some in Hc.
  replace (i <? length cols)%nat with true
    by (symmetry; apply Nat.ltb_lt; exact Hc).
  reflexivity.
Qed.

Lemma corner_mask_member (f : Z -> bool) N e r :
  (r < N)%nat ->
  r ∈ np_where (map f (map (corner_loc N e) (np_arange N)))
  <-> f (corner_loc N e r) = true.
Proof.
  intros Hr. rewrite np_where_elem, !list_lookup_fmap. unfold np_arange.
  rewrite lookup_seq_lt by exact Hr. cbn [fmap option_fmap option_map Nat.add].
  split; [intros [= ->] | intros ->]; reflexivity.
Qed.

Section AllInterpolated.

Variable self : ModelGrid.
Variable E : gmap string (list Q).

Hypothesis two_edges :
  forall i name, params self !! i = Some name ->
    exists lo hi, E !! name = Some [lo; hi].

Lemma edges_length :
  length (map (fun name => default [] (E !! name)) (params self)) = ndim self.
Proof. apply length_map. Qed.

Lemma edges_lookup m name lo hi :
  params self !! m = Some name -> E !! name = Some [lo; hi] ->
  map (fun name => default [] (E !! name)) (params self) !! m
  = Some [lo; hi].
Proof. intros Hname HE. rewrite list_lookup_fmap, Hname. cbn. rewrite HE. reflexivity. Qed.

Lemma edges_two :
  Forall (fun c => length c = 2%nat)
         (map (fun name => default [] (E !! name)) (params self)).
Proof.
  apply Forall_forall. intros c Hc.
  apply list_elem_of_lookup in Hc as [i Hi].
  rewrite list_lookup_fmap in Hi.
  destruct (params self !! i) as [name|] eqn:Hname; [|discriminate].
  destruct (two_edges i name Hname) as (lo & hi & HE).
  cbn in Hi. rewrite HE in Hi. injection Hi as <-. reflexivity.
Qed.

(** One pass of the second loop writes one column of the table. *)
Lemma corners_interp_step_column m :
  (m < ndim self)%nat ->
  corners_interp_step self E (2 ^ ndim self) 0
    (corner_rows_upto m (map (fun name => default [] (E !! name))
                             (params self))) m
  = Ok (corner_rows_upto (S m) (map (fun name => default [] (E !! name))
                                    (params self))).
Proof.
  intros Hm.
  destruct (lookup_lt_is_Some_2 (params self) m Hm) as [name Hname].
  destruct (two_edges m name Hname) as (lo & hi & HE).
  pose proof (edges_lookup m name lo hi Hname HE) as Hcol.
  unfold corners_interp_step.
  rewrite (py_get_Some _ _ _ Hname), bind_ret_l.
  rewrite (dict_get_Some _ _ _ HE), bind_ret_l.
  change (py_get [lo; hi] 0) with (Ok lo). rewrite !bind_ret_l.
  rewrite (dict_get_Some _ _ _ HE), bind_ret_l.
  change (py_get [lo; hi] 1) with (Ok hi). rewrite bind_ret_l.
  f_equal. apply list_eq. intros r. rewrite !np_put_col_lookup.
  set (edges := map (fun name => default [] (E !! name)) (params self)) in *.
  destruct (decide (r < 2 ^ ndim self)%nat) as [Hr|Hr].
  - assert (Hrow : forall k,
              corner_rows_upto k edges !! r
              = Some (imap (fun i c =>
                              if (i <? k)%nat
                              then default 0
                                     (c !! corner_bit r (length edges - 1 - i))
                              else 0) edges)).
    { intros k. unfold corner_rows_upto.
      rewrite list_lookup_fmap, lookup_seq_lt
        by (unfold edges; rewrite edges_length; exact Hr).
      reflexivity. }
    rewrite !Hrow, <- (insert_next_column edges r m [lo; hi] Hcol).
    assert (Hlen : length edges = ndim self) by apply edges_length.
    pose proof (corner_loc_bit (ndim self) m r Hm) as Hloc.
    replace (ndim self - 1 - m)%nat with (length edges - 1 - m)%nat in Hloc
      by (rewrite Hlen; reflexivity).
    destruct (decide _) as [H2|H2], (decide _) as [H1|H1];
      rewrite (corner_mask_member _ _ _ r Hr), Hloc in H1;
      rewrite (corner_mask_member _ _ _ r Hr), Hloc in H2;
      destruct (corner_bit_cases r (length edges - 1 - m)) as [Hb|Hb];
      rewrite Hb in *; cbn in H1, H2;
      try discriminate; try (exfalso; auto; fail); reflexivity.
  - assert (Hnone : forall k, corner_rows_upto k edges !! r = None).
    { intros k. apply lookup_ge_None. unfold corner_rows_upto.
      rewrite length_map, length_seq. unfold edges.
      rewrite edges_length. lia. }
    rewrite !Hnone. destruct (decide _), (decide _); reflexivity.
Qed.

Lemma corners_interp_loop m :
  (m <= ndim self)%nat ->
  for_each (corners_interp_step self E (2 ^ ndim self) 0) (seq 0 m)
    (corner_rows_upto 0 (map (fun name => default [] (E !! name))
                             (params self)))
  = Ok (corner_rows_upto m (map (fun name => default [] (E !! name))
                                (params self))).
Proof.
  induction m as [|m IH]; intros Hm; [reflexivity|].
  rewrite seq_S, for_each_app, IH, bind_ret_l, for_each_one by lia.
  apply corners_interp_step_column. lia.
Qed.

(** With two edges in every dimension and no pinned dimension, the
    corner table is the Cartesian product of the edges. *)
Lemma grid_corners_of_all_interpolated :
  grid_corners_of self E []
  = Ok (cartesian_product
          (map (fun name => default [] (E !! name)) (params self))).
Proof.
  unfold grid_corners_of. cbn [length for_each].
  rewrite Nat.sub_0_r, bind_ret_l.
  replace (to_interp_of (ndim self) []) with (seq 0 (ndim self))
    by (symmetry; apply list_filter_all; reflexivity).
  rewrite (cartesian_product_rows _ edges_two), <- corner_rows_upto_all.
  rewrite edges_length at 1.
  rewrite <- (corners_interp_loop (ndim self) (Nat.le_refl _)).
  rewrite corner_rows_upto_zero, edges_length. reflexivity.
Qed.

Lemma collect_edges names : forall acc,
  Forall (fun name => name ∈ params self) names ->
  for_each (fun acc name => e ← dict_get E name; Ok (acc ++ [e])) names acc
  = Ok (acc ++ map (fun name => default [] (E !! name)) names).
Proof.
  induction names as [|name rest IH]; intros acc Hnames.
  - cbn. rewrite app_nil_r. reflexivity.
  - apply Forall_cons in Hnames as [Hname Hrest].
    apply list_elem_of_lookup in Hname as [i Hi].
    destruct (two_edges i name Hi) as (lo & hi & HE).
    rewrite for_each_cons, (dict_get_Some _ _ _ HE), !bind_ret_l.
    rewrite (IH _ Hrest). cbn [map]. rewrite HE, <- app_assoc. reflexivity.
Qed.

End AllInterpolated.

Lemma py_get_inv {A} (l : list A) i v : py_get l i = Ok v -> l !! i = Some v.
Proof. unfold py_get. destruct (l !! i); [intros [= ->]; reflexivity | discriminate]. Qed.

(** A pass of the first loop either pins the dimension or records two
    edges for it. *)
Lemma grid_edges_step_cases self p E0 f0 i E1 f1 :
  grid_edges_step self p (E0, f0) i = Ok (E1, f1) ->
  f1 = f0 ++ [i] \/
  (f1 = f0 /\ exists name lo hi,
      params self !! i = Some name /\ E1 = <[name := [lo; hi]]> E0).
Proof.
  unfold grid_edges_step. intros H.
  apply bind_Ok in H as (p_i & _ & H).
  apply bind_Ok in H as (name & Hname & H). apply py_get_inv in Hname.
  apply bind_Ok in H as (pl & _ & H).
  destruct (np_in p_i (plim_vals pl)).
  - injection H as <- <-. left. reflexivity.
  - apply bind_Ok in H as (lo & _ & H). apply bind_Ok in H as (hi & _ & H).
    injection H as <- <-. right. split; [reflexivity|]. eauto.
Qed.

(** When the first loop ends with no pinned dimension, it recorded two
    edges for every dimension it visited. *)
Lemma grid_edges_no_flags self p (E : gmap string (list Q)) :
  forall idxs (E0 : gmap string (list Q)) f0,
    for_each (grid_edges_step self p) idxs (E0, f0) = Ok (E, []) ->
    f0 = [] /\
    (forall name lo hi, E0 !! name = Some [lo; hi] ->
       exists lo' hi', E !! name = Some [lo'; hi']) /\
    (forall i name, i ∈ idxs -> params self !! i = Some name ->
       exists lo hi, E !! name = Some [lo; hi]).
Proof.
  induction idxs as [|i idxs IH]; intros E0 f0 H.
  - cbn in H. injection H as -> ->. split; [reflexivity|].
    split; [intros name lo hi Hnm; exists lo, hi; exact Hnm|].
    intros i name Hi. inversion Hi.
  - rewrite for_each_cons in H.
    apply bind_Ok in H as ([E1 f1] & Hstep & Hrest).
    destruct (IH E1 f1 Hrest) as (-> & Hkeep & Hall).
    apply grid_edges_step_cases in Hstep
      as [Hflag|(<- & name & lo & hi & Hname & ->)].
    { symmetry in Hflag. apply app_eq_nil in Hflag as [_ Hflag].
      discriminate. }
    split; [reflexivity|]. split.
    + intros nm lo' hi' Hnm. destruct (decide (nm = name)) as [->|Hne].
      * apply (Hkeep name lo hi), lookup_insert_eq.
      * apply (Hkeep nm lo' hi'). rewrite lookup_insert_ne by congruence.
        exact Hnm.
    + intros i' nm Hi' Hnm. apply elem_of_cons in Hi' as [->|Hi'].
      * assert (nm = name) as -> by congruence.
        apply (Hkeep name lo hi), lookup_insert_eq.
      * apply (Hall i' nm Hi' Hnm).
Qed.

(** When the edge search pins no dimension (no requested value is a grid
    value), the corner table of [interp_models] is the Cartesian product
    of the lower and upper edge of each dimension, with its [2 ^ ndim]
    rows in the order of the product. *)
Theorem grid_corners_all_interpolated self p (E : gmap string (list Q)) :
  grid_edges_of self p = Ok (E, []) ->
  exists rows,
    grid_corners self p = Ok rows /\
    hypercube_corners_spec self p = Ok rows /\
    length rows = (2 ^ ndim self)%nat.
Proof.
  intros Hedges.
  assert (two_edges : forall i name, params self !! i = Some name ->
            exists lo hi, E !! name = Some [lo; hi]).
  { intros i name Hname.
    destruct (grid_edges_no_flags self p E _ _ _ Hedges) as (_ & _ & Hall).
    apply (Hall i name); [|exact Hname].
    apply elem_of_seq. apply lookup_lt_Some in Hname. unfold ndim. lia. }
  exists (cartesian_product
            (map (fun name => default [] (E !! name)) (params self))).
  split; [|split].
  - unfold grid_corners. rewrite Hedges, bind_ret_l. cbn [fst snd].
    apply (grid_corners_of_all_interpolated self E two_edges).
  - unfold hypercube_corners_spec. rewrite Hedges, bind_ret_l. cbn [fst].
    rewrite (collect_edges self E two_edges (params self) [])
      by (apply Forall_forall; auto).
    reflexivity.
  - rewrite (cartesian_product_rows _ (edges_two self E two_edges)).
    unfold corner_rows. rewrite length_map, length_seq, edges_length.
    reflexivity.
Qed.

(** The theorem at [complete_grid] and the request (1500, 4.75), between
    the grid values in both dimensions. *)
Lemma grid_corners_all_interpolated_witness :
  exists rows,
    grid_corners complete_grid [1500; 4.75] = Ok rows /\
    hypercube_corners_spec complete_grid [1500; 4.75] = Ok rows /\
    length rows = (2 ^ ndim complete_grid)%nat.
Proof.
  apply (grid_corners_all_interpolated complete_grid [1500; 4.75]
           (<["logg" := [4.5; 5.0]]> (<["teff" := [1400; 1600]]> ∅))).
  vm_compute. reflexivity.
Defined.

(** ** The lookup of a corner *)

Lemma np_where_from_NoDup mask : forall s, NoDup (np_where_from s mask).
Proof.
  induction mask as [|b mask IH]; intros s; cbn [np_where_from];
    [constructor|].
  destruct b; [|apply IH]. constructor; [|apply IH].
  intros Hin. apply np_where_from_elem in Hin as [Hle _]. lia.
Qed.

Lemma NoDup_only_element {A} (l : list A) k :
  NoDup l -> (forall j, j ∈ l <-> j = k) -> l = [k].
Proof.
  intros Hnd Hl. destruct l as [|y t].
  - exfalso. assert (H : k ∈ @nil A) by (apply Hl; reflexivity).
    inversion H.
  - assert (y = k) as -> by (apply Hl, list_elem_of_here).
    apply NoDup_cons in Hnd as [Hnotin _].
    destruct t as [|z t]; [reflexivity|]. exfalso. apply Hnotin.
    assert (z = k) as ->
      by (apply Hl, list_elem_of_further, list_elem_of_here).
    apply list_elem_of_here.
Qed.

Section Lookup.

Variable self : ModelGrid.
Variable table : list (list Q).
Hypothesis indexed : grid_indexed self table.

(** The mask after the loop over the dimensions [indices]: a model stays
    selected when it was selected before and its column holds the
    coordinate of the corner in each of these dimensions. *)
Lemma find_i_steps_spec c indices : forall find_i,
  (ndim self <= length c)%nat ->
  length find_i = length table ->
  Forall (fun i => (i < ndim self)%nat) indices ->
  exists r,
    for_each (find_i_step self c) indices find_i = Ok r /\
    length r = length table /\
    forall j, r !! j = Some true <->
      (find_i !! j = Some true /\
       forall i, i ∈ indices -> forall name pl ci,
         params self !! i = Some name -> plims self !! name = Some pl ->
         c !! i = Some ci ->
         exists v, plim_vals pl !! j = Some v /\ ci == v).
Proof.
  induction indices as [|i indices IH]; intros find_i Hc Hlen Hind.
  - exists find_i. split; [reflexivity|]. split; [exact Hlen|].
    intros j. split; [intros H; split; [exact H|] | intros [H _]; exact H].
    intros i Hi. inversion Hi.
  - apply Forall_cons in Hind as [Hi Hind].
    destruct (lookup_lt_is_Some_2 c i) as [c_i Hci]; [lia|].
    destruct (lookup_lt_is_Some_2 (params self) i) as [name Hname];
      [exact Hi|].
    destruct (indexed_lookup self table indexed i name Hname)
      as (pl & Hpl & Hvals & _).
    rewrite for_each_cons.
    set (continue := for_each (find_i_step self c) indices).
    unfold find_i_step.
    rewrite (py_get_Some _ _ _ Hci), bind_ret_l.
    rewrite (py_get_Some _ _ _ Hname), bind_ret_l.
    rewrite (dict_get_Some _ _ _ Hpl), bind_ret_l.
    rewrite np_broadcast_same_length by (rewrite length_map; congruence).
    rewrite bind_ret_l. subst continue.
    destruct (IH (zip_with andb find_i
                    (map (fun v => Qeq_bool c_i v) (plim_vals pl))) Hc)
      as (r & Hr & Hrlen & Hspec);
      [rewrite length_zip_with, length_map; lia | exact Hind |].
    exists r. split; [exact Hr|]. split; [exact Hrlen|].
    intros j. rewrite Hspec.
    assert (Hstep : zip_with andb find_i
                      (map (fun v => Qeq_bool c_i v) (plim_vals pl)) !! j
                    = Some true
                    <-> find_i !! j = Some true /\
                        exists v, plim_vals pl !! j = Some v /\ c_i == v).
    { rewrite lookup_zip_with, list_lookup_fmap.
      destruct (find_i !! j) as [b|]; cbn.
      - destruct (plim_vals pl !! j) as [v|]; cbn.
        + split.
          * intros [= Hb]. apply andb_true_iff in Hb as [-> Hq].
            split; [reflexivity|]. exists v. split; [reflexivity|].
            apply Qeq_bool_iff, Hq.
          * intros [[= ->] (v' & [= <-] & Hq)]. cbn. f_equal.
            apply Qeq_bool_iff, Hq.
        + split; [discriminate | intros [_ (v' & Hv' & _)]; discriminate].
      - split; [discriminate | intros [H _]; discriminate]. }
    rewrite Hstep. split.
    + intros [[Hf (v & Hv & Hq)] Hrest]. split; [exact Hf|].
      intros i' Hi' name' pl' ci Hname' Hpl' Hci'.
      apply elem_of_cons in Hi' as [->|Hi'].
      * assert (name' = name) as -> by congruence.
        assert (pl' = pl) as -> by congruence.
        assert (ci = c_i) as -> by congruence.
        exists v. split; assumption.
      * apply (Hrest i' Hi' name' pl' ci); assumption.
    + intros [Hf Hall]. split; [split; [exact Hf|] |].
      * apply (Hall i (list_elem_of_here _ _) name pl c_i); assumption.
      * intros i' Hi'. apply Hall, list_elem_of_further, Hi'.
Qed.

(** [find_i] holds exactly the positions of the models that lie at the
    corner, each once. *)
Lemma find_i_of_spec c :
  (1 <= ndim self)%nat -> (ndim self <= length c)%nat ->
  exists l,
    find_i_of self c = Ok l /\ NoDup l /\
    forall j, j ∈ l <-> (j < length table)%nat /\ model_at self j c.
Proof.
  intros Hnd Hc. unfold find_i_of.
  destruct (lookup_lt_is_Some_2 (params self) 0) as [name0 Hname0];
    [exact Hnd|].
  destruct (indexed_lookup self table indexed 0 name0 Hname0)
    as (pl0 & Hpl0 & Hvals0 & _).
  rewrite (py_get_Some _ _ _ Hname0), bind_ret_l.
  rewrite (dict_get_Some _ _ _ Hpl0), bind_ret_l.
  destruct (find_i_steps_spec c (seq 0 (ndim self))
              (replicate (length (plim_vals pl0)) true))
    as (r & -> & Hr & Hspec);
    [exact Hc | rewrite length_replicate; exact Hvals0 | apply seq_lt |].
  rewrite bind_ret_l. eexists. split; [reflexivity|].
  split; [apply np_where_from_NoDup|].
  intros j. rewrite np_where_elem, Hspec, Hvals0. split.
  - intros [Hj Hall]. apply lookup_replicate in Hj as [_ Hj].
    split; [exact Hj|]. intros i name pl ci Hname Hpl Hci.
    apply (Hall i) with (name := name) (pl := pl); [|assumption..].
    apply elem_of_seq. apply lookup_lt_Some in Hname. unfold ndim. lia.
  - intros [Hj Hat]. split; [apply lookup_replicate_2, Hj|].
    intros i _ name pl ci Hname Hpl Hci. apply (Hat i name pl ci); assumption.
Qed.

(** The lookup of a corner at which exactly one model lies finds that
    model. *)
Lemma find_i_of_only c k :
  (1 <= ndim self)%nat -> (ndim self <= length c)%nat ->
  only_model_at self (length table) k c ->
  find_i_of self c = Ok [k].
Proof.
  intros Hnd Hc (Hk & Hat & Honly).
  destruct (find_i_of_spec c Hnd Hc) as (l & -> & Hnodup & Hl).
  f_equal. apply NoDup_only_element; [exact Hnodup|].
  intros j. rewrite Hl. split.
  - intros [Hj Hj']. apply Honly; assumption.
  - intros ->. split; assumption.
Qed.

End Lookup.

(** Coordinates that are equal as rationals select the same models. *)
Lemma model_at_insert_proper self j (p : list Q) a u u' :
  u' == u -> model_at self j (<[a := u]> p) ->
  model_at self j (<[a := u']> p).
Proof.
  intros Hu Hat i name pl c Hname Hpl Hc.
  destruct (decide (i = a)) as [->|Hne].
  - pose proof (lookup_lt_Some _ _ _ Hc) as Hlt.
    rewrite length_insert in Hlt.
    rewrite list_lookup_insert_eq in Hc by exact Hlt. injection Hc as <-.
    destruct (Hat a name pl u Hname Hpl) as (v & Hv & Hq);
      [apply list_lookup_insert_eq; exact Hlt|].
    exists v. split; [exact Hv|]. rewrite Hu. exact Hq.
  - rewrite list_lookup_insert_ne in Hc by congruence.
    apply (Hat i name pl c Hname Hpl).
    rewrite list_lookup_insert_ne by congruence. exact Hc.
Qed.

Lemma only_model_at_insert_proper self n k (p : list Q) a u u' :
  u' == u -> only_model_at self n k (<[a := u]> p) ->
  only_model_at self n k (<[a := u']> p).
Proof.
  intros Hu (Hk & Hat & Honly). split; [exact Hk|]. split.
  - apply (model_at_insert_proper self k p a u u' Hu Hat).
  - intros j Hj Hj'. apply (Honly j Hj).
    apply (model_at_insert_proper self j p a u' u); [symmetry; exact Hu|].
    exact Hj'.
Qed.

Lemma only_model_at_from_lookup self table c k :
  grid_indexed self table ->
  (1 <= ndim self)%nat -> (ndim self <= length c)%nat ->
  find_i_of self c = Ok [k] ->
  only_model_at self (length table) k c.
Proof.
  intros Hidx Hnd Hc Hfind.
  destruct (find_i_of_spec self table Hidx c Hnd Hc) as (l & Hl & _ & Hspec).
  rewrite Hfind in Hl. injection Hl as <-.
  destruct (proj1 (Hspec k) (list_elem_of_here _ _)) as [Hk Hat].
  split; [exact Hk|]. split; [exact Hat|].
  intros j Hj Hj'. apply list_elem_of_singleton, Hspec. split; assumption.
Qed.

(** ** Retrieval at a grid point, from the grid *)

(** C9: on an indexed grid with distinct parameter names, smoothing and
    resampling off, let the vector [p] be the coordinates of model [k]
    and of no other model (so that every component is a grid
    coordinate).  Then interpolated retrieval returns the stored flux of
    model [k], with no blending, scaled by the least-squares factor
    [ck = sum(flux*row/unc^2) / sum(row^2/unc^2)] of that flux against
    the spectrum. *)
Theorem C9_interp_at_grid_point falt2 resolution np_interp self table p k
    row :
  grid_indexed self table ->
  NoDup (params self) ->
  (1 <= ndim self)%nat ->
  length p = ndim self ->
  smooth self = false ->
  interp self = false ->
  only_model_at self (length table) k p ->
  table !! k = Some row ->
  length row = length (flux self) ->
  length (unc self) = length (flux self) ->
  Forall (fun w => ~ w == 0) (unc self) ->
  ~ weighted_dot row row (unc self) == 0 ->
  exists ck,
    ck == weighted_dot (flux self) row (unc self)
          / weighted_dot row row (unc self) /\
    interp_models falt2 resolution np_interp self p
    = Ok (map (fun x => x * ck) row).
Proof.
  intros Hidx Hdistinct Hnd Hlen Hsmooth Hinterp Honly Hrow Hrowlen Hunclen
         _ _.
  assert (Hon : forall i x name, p !! i = Some x ->
            params self !! i = Some name ->
            exists pl, plims self !! name = Some pl /\
                       np_in x (plim_vals pl) = true).
  { intros i x name Hx Hname.
    destruct (indexed_lookup self table Hidx i name Hname) as (pl & Hpl & _).
    exists pl. split; [exact Hpl|].
    destruct Honly as (_ & Hat & _).
    destruct (Hat i name pl x Hname Hpl Hx) as (v & Hv & Hq).
    apply existsb_exists. exists v. split.
    - apply list_elem_of_In, list_elem_of_lookup. eauto.
    - apply Qeq_bool_iff, Hq. }
  pose proof (find_i_of_only self table Hidx p k Hnd ltac:(lia) Honly)
    as Hfind.
  destruct Hidx as [Htable _].
  rewrite (interp_models_at_grid_point self p Hdistinct Hlen Hon falt2
             resolution np_interp k table row Hsmooth Hinterp Hfind Htable
             Hrow).
  unfold normalize_model.
  rewrite (normalize_model_ck_eq self row Hrowlen Hunclen), bind_ret_l.
  eexists. split; [|reflexivity].
  rewrite !py_sum_weighted_dot. reflexivity.
Qed.

(** The theorem at [complete_grid] and the grid point (1400, 5.0), the
    coordinates of the second model alone. *)
Lemma C9_interp_at_grid_point_witness :
  exists ck,
    ck == weighted_dot (flux complete_grid) [2; 3; 4] (unc complete_grid)
          / weighted_dot [2; 3; 4] [2; 3; 4] (unc complete_grid) /\
    interp_models (fun _ f _ => f) None (fun _ _ f => Ok f)
                  complete_grid [1400; 5.0]
    = Ok (map (fun x => x * ck) [2; 3; 4]).
Proof.
  assert (Hidx : grid_indexed complete_grid
                   [[1; 2; 3]; [2; 3; 4]; [3; 4; 5]; [4; 5; 7]]).
  { split; [reflexivity|].
    repeat constructor; eexists; repeat split; vm_compute; reflexivity. }
  apply (C9_interp_at_grid_point (fun _ f _ => f) None (fun _ _ f => Ok f)
           complete_grid [[1; 2; 3]; [2; 3; 4]; [3; 4; 5]; [4; 5; 7]]
           [1400; 5.0] 1%nat [2; 3; 4]).
  - exact Hidx.
  - apply (bool_decide_unpack _). vm_compute. exact I.
  - cbn. lia.
  - reflexivity.
  - reflexivity.
  - reflexivity.
  - apply (only_model_at_from_lookup complete_grid _ _ _ Hidx);
      [cbn; lia | cbn; lia | reflexivity].
  - reflexivity.
  - reflexivity.
  - reflexivity.
  - repeat constructor; discriminate.
  - discriminate.
Defined.

(** ** A corner of the hyper-cube without a model *)

(** C4 (fails on the code): the grid of [holed_cube_model], with
    parameters (logg, teff, fsed), has no model at (4.5, 1400, 2).  The
    vector (4.5, 1500, 1.5) is within the limits, and (4.5, 1400, 2) is
    one of the four corners of its hyper-cube.  The routine never looks
    that corner up: its corner table repeats the two corners with
    [fsed = 1] (C5), a model is found for each, and the reduction goes on
    to a weight whose two edge values are equal.  The flux returned is
    not finite and is not the array of -99, and the evaluation does not
    return negative infinity: its value is not a number. *)
Theorem C4_missing_corner_not_rejected :
  exists mg cols corners,
    __init__ example_spectrum holed_cube_model ["logg"; "teff"; "fsed"]
             false None false default_bins = Ok mg /\
    snap mg = false /\
    outside_limits mg [4.5; 1500; 1.5] (seq 0 (ndim mg)) = Ok false /\
    hypercube_corners_spec mg [4.5; 1500; 1.5] = Ok corners /\
    [4.5; 1400; 2] ∈ corners /\
    fit_columns mg (params mg) = Ok cols /\
    existsb (tuple_eqb [4.5; 1400; 2]) (model_tuples cols) = false /\
    find_i_of mg [4.5; 1400; 2] = Ok [] /\
    grid_corners mg [4.5; 1500; 1.5]
      = Ok [[4.5; 1400; 1]; [4.5; 1600; 1]; [4.5; 1400; 1]; [4.5; 1600; 1]] /\
    forall falt2 resolution np_interp np_exp np_log np_pi,
      interp_models falt2 resolution np_interp mg [4.5; 1500; 1.5]
        = Raise NonFinite /\
      __call__ falt2 resolution np_interp np_exp np_log np_pi mg
               ([4.5; 1500; 1.5] ++ [1; 1; 1] ++ [0]) = Raise NonFinite.
Proof.
  eexists _, _, _. split; [vm_compute; reflexivity|].
  split; [reflexivity|].
  split; [vm_compute; reflexivity|].
  split; [vm_compute; reflexivity|].
  split; [apply list_elem_of_further, list_elem_of_here|].
  split; [vm_compute; reflexivity|].
  split; [vm_compute; reflexivity|].
  split; [vm_compute; reflexivity|].
  split; [vm_compute; reflexivity|].
  intros falt2 resolution np_interp np_exp np_log np_pi.
  split; vm_compute; reflexivity.
Qed.

(** ** Interpolation between two grid values *)

Lemma brackets_off_grid vals x dn up :
  brackets vals x dn up -> np_in x vals = false.
Proof.
  intros (_ & _ & Hdn & Hup & Hgap). apply not_true_iff_false. intros Hin.
  apply existsb_exists in Hin as (v & Hv & Hq).
  apply Qeq_bool_iff in Hq. apply list_elem_of_In in Hv.
  destruct (Hgap v Hv) as [H|H]; rewrite <- Hq in H.
  - apply (Qlt_not_le _ _ Hdn H).
  - apply (Qlt_not_le _ _ Hup H).
Qed.

Lemma brackets_lower vals x dn up :
  brackets vals x dn up ->
  exists dn', py_max (List.filter (fun v => Qlt_b v x) vals) = Ok dn' /\
              dn' == dn.
Proof.
  intros (Hdn_in & _ & Hdn & Hup & Hgap).
  assert (Hin : dn ∈ List.filter (fun v => Qlt_b v x) vals).
  { apply list_elem_of_In, filter_In.
    split; [apply list_elem_of_In, Hdn_in | apply Qlt_b_true, Hdn]. }
  destruct (py_max_nonempty _ _ Hin) as [m Hm]. exists m.
  split; [exact Hm|].
  pose proof (py_max_ge _ _ Hm dn Hin) as Hge.
  apply py_max_elem, list_elem_of_In, filter_In in Hm as [Hm_in Hm_lt].
  apply Qlt_b_true in Hm_lt. apply list_elem_of_In in Hm_in.
  destruct (Hgap m Hm_in) as [H|H].
  - apply Qle_antisym; assumption.
  - exfalso. apply (Qlt_not_le _ _ Hup). apply (Qle_trans _ m); [exact H|].
    apply Qlt_le_weak, Hm_lt.
Qed.

Lemma brackets_upper vals x dn up :
  brackets vals x dn up ->
  exists up', py_min (List.filter (fun v => Qlt_b x v) vals) = Ok up' /\
              up' == up.
Proof.
  intros (_ & Hup_in & Hdn & Hup & Hgap).
  assert (Hin : up ∈ List.filter (fun v => Qlt_b x v) vals).
  { apply list_elem_of_In, filter_In.
    split; [apply list_elem_of_In, Hup_in | apply Qlt_b_true, Hup]. }
  destruct (py_min_nonempty _ _ Hin) as [m Hm]. exists m.
  split; [exact Hm|].
  pose proof (py_min_le _ _ Hm up Hin) as Hle.
  apply py_min_elem, list_elem_of_In, filter_In in Hm as [Hm_in Hm_lt].
  apply Qlt_b_true in Hm_lt. apply list_elem_of_In in Hm_in.
  destruct (Hgap m Hm_in) as [H|H].
  - exfalso. apply (Qlt_not_le _ _ Hdn). apply (Qle_trans _ m); [|exact H].
    apply Qlt_le_weak, Hm_lt.
  - apply Qle_antisym; assumption.
Qed.

Section BetweenGridValues.

Variable self : ModelGrid.
Variable table : list (list Q).
Variable p : list Q.
Variable a : nat.
Variable name_a : string.
Variable pl_a : Plim.
Variables x dn up : Q.
Variables k0 k1 : nat.
Variables s0 s1 : list Q.

Hypothesis indexed : grid_indexed self table.
Hypothesis params_distinct : NoDup (params self).
Hypothesis p_length : length p = ndim self.
Hypothesis a_name : params self !! a = Some name_a.
Hypothesis a_plim : plims self !! name_a = Some pl_a.
Hypothesis a_value : p !! a = Some x.
Hypothesis a_brackets : brackets (plim_vals pl_a) x dn up.
Hypothesis others_on_grid :
  forall i y name pl, i <> a -> p !! i = Some y ->
    params self !! i = Some name -> plims self !! name = Some pl ->
    exists v, v ∈ plim_vals pl /\ y == v.
Hypothesis at_lower : only_model_at self (length table) k0 (<[a := dn]> p).
Hypothesis at_upper : only_model_at self (length table) k1 (<[a := up]> p).
Hypothesis lower_flux : table !! k0 = Some s0.
Hypothesis upper_flux : table !! k1 = Some s1.

(** The routine finds the two grid values, looks up the two models and
    blends their spectra with the weight computed from the two values. *)
Lemma interp_models_between_grid_values :
  exists dn' up',
    dn' == dn /\ up' == up /\
    forall falt2 resolution np_interp,
      interp_models falt2 resolution np_interp self p
      = (w ← coeff name_a x dn' up';
         blended ← blend s0 s1 w;
         smooth_resample_normalize falt2 resolution np_interp self blended).
Proof.
  destruct (brackets_lower _ _ _ _ a_brackets) as (dn' & Hlower & Hdn).
  destruct (brackets_upper _ _ _ _ a_brackets) as (up' & Hupper & Hup).
  exists dn', up'. split; [exact Hdn|]. split; [exact Hup|].
  intros falt2 resolution np_interp.
  assert (Hnd : (1 <= ndim self)%nat)
    by (apply lookup_lt_Some in a_name; unfold ndim; lia).
  apply (interp_models_one_between self p a name_a pl_a x dn' up'
           params_distinct p_length a_name a_plim a_value
           (brackets_off_grid _ _ _ _ a_brackets) Hlower Hupper)
    with (k0 := k0) (k1 := k1) (table := table).
  - intros i y name Hi Hy Hname.
    destruct (indexed_lookup self table indexed i name Hname)
      as (pl & Hpl & _).
    exists pl. split; [exact Hpl|].
    destruct (others_on_grid i y name pl Hi Hy Hname Hpl) as (v & Hv & Hq).
    apply existsb_exists. exists v.
    split; [apply list_elem_of_In, Hv | apply Qeq_bool_iff, Hq].
  - apply (find_i_of_only self table indexed _ k0 Hnd);
      [rewrite length_insert; lia|].
    apply (only_model_at_insert_proper _ _ _ _ _ dn dn' Hdn at_lower).
  - apply (find_i_of_only self table indexed _ k1 Hnd);
      [rewrite length_insert; lia|].
    apply (only_model_at_insert_proper _ _ _ _ _ up up' Hup at_upper).
  - destruct indexed as [Hm _]. exact Hm.
  - exact lower_flux.
  - exact upper_flux.
Qed.

Lemma between_grid_values_weight :
  (name_a = "teff"%string -> 0 <= dn) ->
  exists w,
    0 < w < 1 /\
    w == (if String.eqb name_a "teff"
          then (x ^ 4 - dn ^ 4) / (up ^ 4 - dn ^ 4)
          else (x - dn) / (up - dn)) /\
    forall falt2 resolution np_interp,
      interp_models falt2 resolution np_interp self p
      = (blended ← blend s0 s1 w;
         smooth_resample_normalize falt2 resolution np_interp self blended).
Proof.
  intros Hteff.
  destruct interp_models_between_grid_values
    as (dn' & up' & Hdn & Hup & Hrun).
  destruct a_brackets as (_ & _ & Hlt_dn & Hlt_up & _).
  destruct (coeff_between name_a x dn' up') as (w & Hw & Hrange & Hval).
  - rewrite Hdn. exact Hlt_dn.
  - rewrite Hup. exact Hlt_up.
  - intros Hname. rewrite Hdn. apply Hteff, Hname.
  - exists w. split; [exact Hrange|]. split.
    + rewrite Hval. destruct (String.eqb name_a "teff");
        rewrite Hdn, Hup; reflexivity.
    + intros falt2 resolution np_interp.
      rewrite Hrun, Hw, bind_ret_l. reflexivity.
Qed.

(** On an indexed grid with distinct parameter names, let the request
    equal a grid value in every dimension but one, in which it lies
    between the grid values [dn] and [up] next to it, and let exactly one
    model lie at the request with [dn] and exactly one at the request
    with [up] in that dimension (for ['teff']: [dn] not negative and the
    requested value at most 55108 in absolute value).  Then
    [interp_models] returns the blend [ns1 + (ns2-ns1)*w] of the stored
    spectra of these two models, with the linear weight
    [(x - dn) / (up - dn)], or the fourth-power weight for ['teff'],
    handed to smoothing, resampling and normalization. *)
Theorem interp_models_between_two_models falt2 resolution np_interp :
  (name_a = "teff"%string -> 0 <= dn /\ Qabs x <= 55108) ->
  exists w,
    w == (if String.eqb name_a "teff"
          then (x ^ 4 - dn ^ 4) / (up ^ 4 - dn ^ 4)
          else (x - dn) / (up - dn)) /\
    interp_models falt2 resolution np_interp self p
    = (blended ← blend s0 s1 w;
       smooth_resample_normalize falt2 resolution np_interp self blended).
Proof.
  intros Hteff.
  destruct between_grid_values_weight as (w & _ & Hval & Hrun).
  - intros Hname. apply Hteff, Hname.
  - exists w. split; [exact Hval | apply Hrun].
Qed.

(** Under the same conditions, for spectra of one length, the weight
    that [interp_models] applies lies strictly between 0 and 1, and every
    sample of the blended flux lies between the samples of the two
    models it is blended from. *)
Theorem interpolated_flux_between_the_two_models falt2 resolution
    np_interp :
  (name_a = "teff"%string -> 0 <= dn /\ Qabs x <= 55108) ->
  length s0 = length s1 ->
  exists w blended,
    0 < w < 1 /\
    blend s0 s1 w = Ok blended /\
    interp_models falt2 resolution np_interp self p
    = smooth_resample_normalize falt2 resolution np_interp self blended /\
    forall j u v, s0 !! j = Some u -> s1 !! j = Some v ->
      exists y, blended !! j = Some y /\
                (u <= v -> u <= y <= v) /\ (v <= u -> v <= y <= u).
Proof.
  intros Hteff Hlen.
  destruct between_grid_values_weight as (w & [Hw0 Hw1] & _ & Hrun).
  - intros Hname. apply Hteff, Hname.
  - eexists w, _. split; [split; assumption|].
    split; [apply blend_same_length, Hlen|].
    split; [rewrite Hrun, (blend_same_length _ _ _ Hlen); reflexivity|].
    intros j u v Hu Hv. exists (u + (v - u) * w).
    split; [apply blend_lookup; assumption|].
    split; intros Huv; split; nra.
Qed.


End BetweenGridValues.

Lemma complete_grid_indexed :
  grid_indexed complete_grid [[1; 2; 3]; [2; 3; 4]; [3; 4; 5]; [4; 5; 7]].
Proof.
  split; [reflexivity|].
  repeat constructor; eexists; repeat split; vm_compute; reflexivity.
Defined.

Lemma complete_grid_teff_brackets :
  brackets [1400; 1400; 1600; 1600] 1500 1400 1600.
Proof.
  split; [apply list_elem_of_here|].
  split; [do 2 apply list_elem_of_further; apply list_elem_of_here|].
  split; [reflexivity|]. split; [reflexivity|].
  intros v Hv.
  repeat (apply elem_of_cons in Hv as [->|Hv];
          [first [left; vm_compute; discriminate
                 |right; vm_compute; discriminate]|]).
  inversion Hv.
Defined.

Lemma complete_grid_logg_brackets :
  brackets [4.5; 5.0; 4.5; 5.0] 4.75 4.5 5.0.
Proof.
  split; [apply list_elem_of_here|].
  split; [apply list_elem_of_further, list_elem_of_here|].
  split; [reflexivity|]. split; [reflexivity|].
  intros v Hv.
  repeat (apply elem_of_cons in Hv as [->|Hv];
          [first [left; vm_compute; discriminate
                 |right; vm_compute; discriminate]|]).
  inversion Hv.
Defined.


(** The theorem at [complete_grid] and the request (1400, 4.75), between
    the models at (1400, 4.5) and (1400, 5.0): the weight is 1/2. *)
Lemma interp_models_between_two_models_witness :
  exists w,
    w == (4.75 - 4.5) / (5.0 - 4.5) /\
    interp_models (fun _ f _ => f) None (fun _ _ f => Ok f)
                  complete_grid [1400; 4.75]
    = (blended ← blend [1; 2; 3] [2; 3; 4] w;
       smooth_resample_normalize (fun _ f _ => f) None (fun _ _ f => Ok f)
                                 complete_grid blended).
Proof.
  apply (interp_models_between_two_models complete_grid
           [[1; 2; 3]; [2; 3; 4]; [3; 4; 5]; [4; 5; 7]] [1400; 4.75]
           1%nat "logg"
           {| plim_vals := [4.5; 5.0; 4.5; 5.0];
              plim_min := 4.5; plim_max := 5.0 |}
           4.75 4.5 5.0 0%nat 1%nat [1; 2; 3] [2; 3; 4]
           complete_grid_indexed).
  - apply (bool_decide_unpack _). vm_compute. exact I.
  - reflexivity.
  - reflexivity.
  - reflexivity.
  - reflexivity.
  - exact complete_grid_logg_brackets.
  - intros [|[|i]] y name pl Hi Hy Hname Hpl; [|congruence|discriminate].
    cbn in Hy, Hname. injection Hy as <-. injection Hname as <-.
    vm_compute in Hpl. injection Hpl as <-.
    exists 1400. split; [apply list_elem_of_here | reflexivity].
  - apply (only_model_at_from_lookup complete_grid _ _ _
             complete_grid_indexed); [cbn; lia | cbn; lia | reflexivity].
  - apply (only_model_at_from_lookup complete_grid _ _ _
             complete_grid_indexed); [cbn; lia | cbn; lia | reflexivity].
  - reflexivity.
  - reflexivity.
  - discriminate.
Defined.

(** The theorem at [complete_grid] and the request (1500, 4.5), between
    the models at (1400, 4.5) and (1600, 4.5). *)
Lemma interpolated_flux_between_the_two_models_witness :
  exists w blended,
    0 < w < 1 /\
    blend [1; 2; 3] [3; 4; 5] w = Ok blended /\
    interp_models (fun _ f _ => f) None (fun _ _ f => Ok f)
                  complete_grid [1500; 4.5]
    = smooth_resample_normalize (fun _ f _ => f) None (fun _ _ f => Ok f)
                                complete_grid blended /\
    forall j u v, [1; 2; 3] !! j = Some u -> [3; 4; 5] !! j = Some v ->
      exists y, blended !! j = Some y /\
                (u <= v -> u <= y <= v) /\ (v <= u -> v <= y <= u).
Proof.
  apply (interpolated_flux_between_the_two_models complete_grid
           [[1; 2; 3]; [2; 3; 4]; [3; 4; 5]; [4; 5; 7]] [1500; 4.5]
           0%nat "teff"
           {| plim_vals := [1400; 1400; 1600; 1600];
              plim_min := 1400; plim_max := 1600 |}
           1500 1400 1600 0%nat 2%nat [1; 2; 3] [3; 4; 5]
           complete_grid_indexed).
  - apply (bool_decide_unpack _). vm_compute. exact I.
  - reflexivity.
  - reflexivity.
  - reflexivity.
  - reflexivity.
  - exact complete_grid_teff_brackets.
  - intros [|[|i]] y name pl Hi Hy Hname Hpl; [congruence| |discriminate].
    cbn in Hy, Hname. injection Hy as <-. injection Hname as <-.
    vm_compute in Hpl. injection Hpl as <-.
    exists 4.5. split; [apply list_elem_of_here | reflexivity].
  - apply (only_model_at_from_lookup complete_grid _ _ _
             complete_grid_indexed); [cbn; lia | cbn; lia | reflexivity].
  - apply (only_model_at_from_lookup complete_grid _ _ _
             complete_grid_indexed); [cbn; lia | cbn; lia | reflexivity].
  - reflexivity.
  - reflexivity.
  - intros _. split; vm_compute; discriminate.
  - reflexivity.
Defined.

(** ** A corner of the hyper-cube without a single model, when every
       dimension is interpolated *)

Lemma not_only_model_from_lookup self table c l :
  grid_indexed self table ->
  (1 <= ndim self)%nat -> (ndim self <= length c)%nat ->
  find_i_of self c = Ok l -> length l <> 1%nat ->
  forall k, ~ only_model_at self (length table) k c.
Proof.
  intros Hidx Hnd Hc Hl Hlen k Honly.
  rewrite (find_i_of_only self table Hidx c k Hnd Hc Honly) in Hl.
  injection Hl as <-. apply Hlen. reflexivity.
Qed.


